(** * Story studio: generation orchestration and consistency engine

    A shallow embedding of the generation services (the retry wrapper, the
    WAV encoder, the script, speech and image calls) and of the application
    handlers that merge their results into the project, together with the
    properties the written specification states about them.

    Conventions of the embedding.
    - A JavaScript [number] that the code only uses as an integer is a [Z];
      a count that the code only decrements to zero is a [nat].
    - A JavaScript string is a [string]; concatenation of template literals
      is [+:+].
    - A promise-returning function is a computation in the monad [M]: it reads
      and extends a chronological trace of events (calls to the external
      service, timer waits) and either resolves ([Ok]) or rejects ([Err]).
    - The external service is an oracle: the outcome of the k-th call is a
      function of k and of the request.
    - A state setter of the component applies its update at the call; the
      rendering that React schedules afterwards is not modelled.
    - Console logging has no effect on any result and is left out, and so
      are the constant settings of a request (response schema, MIME type,
      temperature).
    - In the services the current file is followed; where the older
      [services/geminiService.ts] differs in a function modelled here
      ([generateSpeech]), both versions are given.
    - A handler's [project] is the value of the render that created the
      handler; it is the parameter [project0], as [project] names the field
      of the component state. *)

From stdpp Require Import numbers list strings pretty.

Local Open Scope Z_scope.
Local Open Scope string_scope.
Local Open Scope list_scope.

(** ** JavaScript values shared by all modules *)

Module JS.

(** An [Error] object as the code inspects it: [error.status] and
    [error.message]. *)
Record JsError : Type := mkError {
  status : option Z;
  message : option string
}.

(** [new Error(msg)] *)
Definition Error (msg : string) : JsError :=
  {| status := None; message := Some msg |}.

(** Settled state of a promise, or outcome of a call that may throw. *)
Inductive Result (A : Type) : Type :=
| Ok (a : A)
| Err (e : JsError).
Arguments Ok {A} a.
Arguments Err {A} e.

Definition isOk {A} (r : Result A) : bool :=
  match r with Ok _ => true | Err _ => false end.

(** [s.includes(sub)]: [sub] occurs in [s] as a contiguous run. *)
Fixpoint includes (s sub : string) : bool :=
  if String.prefix sub s then true
  else match s with
       | EmptyString => false
       | String _ s' => includes s' sub
       end.

(** Truthiness of a string: only the empty string is falsy. *)
Definition truthy (s : string) : bool :=
  match s with EmptyString => false | _ => true end.

(** Truthiness of an optional string ([undefined] is falsy). *)
Definition truthy_opt (s : option string) : bool :=
  match s with Some s => truthy s | None => false end.

(** [arr[i] = x] on a copy of [arr]. Elements are optional: [None] is a
    hole, which reads as [undefined]. Writing at or past the length extends
    the array, leaving holes in between. *)
Definition array_set {A} (arr : list (option A)) (i : nat) (x : A)
  : list (option A) :=
  if decide (i < length arr)%nat then <[i := Some x]> arr
  else arr ++ replicate (i - length arr) None ++ [Some x].

(** [arr[i]]: an index past the end and a hole both read as [undefined]. *)
Definition array_get {A} (arr : list (option A)) (i : nat) : option A :=
  match arr !! i with Some (Some x) => Some x | _ => None end.

(** [sub] occurs in [s] verbatim: as a contiguous run of characters. *)
Definition occurs_in (sub s : string) : Prop :=
  exists pre post, s = pre +:+ sub +:+ post.

End JS.
Export JS.

(** ** The event trace and the monad of asynchronous computations *)

(** A request to [ai.models.generateContent]: the key the client was built
    with, the model name, the prompt text, and those settings of the call
    that vary: system instruction, voice name, aspect ratio, image size. *)
Record Request : Type := mkRequest {
  req_apiKey : string;
  req_model : string;
  req_contents : option string;
  req_systemInstruction : option string;
  req_voiceName : option string;
  req_aspectRatio : option string;
  req_imageSize : option string
}.

Inductive Event : Type :=
| EvInvoke                   (* the wrapped operation of a bare retry was run *)
| EvSleep (ms : Z)           (* [setTimeout(res, ms)] was awaited *)
| EvCall (req : Request).    (* the external service was called *)

(** The world of a computation is the trace so far, oldest event first. *)
Abbreviation World := (list Event).

Definition M (A : Type) : Type := World -> Result A * World.

Definition ret {A} (a : A) : M A := fun w => (Ok a, w).
Definition throw {A} (e : JsError) : M A := fun w => (Err e, w).
Definition bind {A B} (m : M A) (k : A -> M B) : M B :=
  fun w => match m w with
           | (Ok a, w') => k a w'
           | (Err e, w') => (Err e, w')
           end.
(** [try { m } catch (e) { h e }] *)
Definition try_catch {A} (m : M A) (h : JsError -> M A) : M A :=
  fun w => match m w with
           | (Ok a, w') => (Ok a, w')
           | (Err e, w') => h e w'
           end.
(** Lift a synchronous call that may throw. *)
Definition lift {A} (r : Result A) : M A := fun w => (r, w).

Notation "x <- m ;; k" := (bind m (fun x => k))
  (at level 100, m at next level, right associativity).

(** [await new Promise(res => setTimeout(res, ms))] *)
Definition sleep (ms : Z) : M unit := fun w => (Ok tt, w ++ [EvSleep ms]).

Definition is_call (e : Event) : bool :=
  match e with EvCall _ => true | _ => false end.

Definition calls (w : World) : nat := length (filter is_call w).

(** ** RetryPolicy: [callWithRetry] *)

Module Retry.

(** The classification in the catch block of [callWithRetry]. *)
Definition isRetryable (error : JsError) : bool :=
  bool_decide (status error = Some 429)
  || bool_decide (status error = Some 503)
  || match message error with
     | Some m => truthy m && (includes m "429" || includes m "503"
                              || includes m "overloaded")
     | None => false
     end.

(** [callWithRetry(fn, retries = 3, delay = 1000)]. The count of retries is
    only compared with zero and decremented, and every caller leaves it at
    its default, so it is a natural number. *)
Fixpoint callWithRetry {T} (fn : M T) (retries : nat) (delay : Z) : M T :=
  fun w =>
    match fn w with
    | (Ok v, w') => (Ok v, w')
    | (Err error, w') =>
        match retries with
        | O => (Err error, w')
        | S retries' =>
            if isRetryable error
            then (_ <- sleep delay ;; callWithRetry fn retries' (delay * 2)) w'
            else (Err error, w')
        end
    end.

Definition default_retries : nat := 3.
Definition default_delay : Z := 1000.


(** A transient failure: a rejection that the wrapper classifies as
    retryable. *)
Definition transient {T} (r : Result T) : Prop :=
  match r with Err e => isRetryable e = true | Ok _ => False end.

(** A failure that the wrapper does not retry. *)
Definition permanent {T} (r : Result T) : Prop :=
  match r with Err e => isRetryable e = false | Ok _ => False end.





(** The waits of a trace, in order. *)
Definition sleeps (w : World) : list Z :=
  omap (fun e => match e with EvSleep ms => Some ms | _ => None end) w.


End Retry.
Export Retry.

(** ** AudioContainerCodec: [addWavHeader] *)

Module Wav.

(** Synchronous code that may throw: the error monad on [Result]. *)
Definition rbind {A B} (r : Result A) (k : A -> Result B) : Result B :=
  match r with Ok a => k a | Err e => Err e end.

Notation "x <-! r ;; k" := (rbind r (fun x => k))
  (at level 100, r at next level, right associativity).

(** The contents of an [ArrayBuffer]: bytes, each a [Z] in [0, 256). *)
Definition is_byte (b : Z) : Prop := 0 <= b < 256.

(** Byte [k] (from the least significant) of a non-negative integer. *)
Definition byte_at (v : Z) (k : nat) : Z := (v / 256 ^ Z.of_nat k) mod 256.

Definition RangeError (msg : string) : JsError := Error msg.

(** [view.setUint8(byteOffset, value)]: stores the value modulo 2^8; throws
    a RangeError outside the buffer. *)
Definition setUint8 (view : list Z) (byteOffset : nat) (value : Z)
  : Result (list Z) :=
  if (byteOffset + 1 <=? length view)%nat
  then Ok (<[byteOffset := value mod 256]> view)
  else Err (RangeError "Offset is outside the bounds of the DataView").

(** [view.setUint16(byteOffset, value, true)]: the value modulo 2^16, least
    significant byte first. *)
Definition setUint16 (view : list Z) (byteOffset : nat) (value : Z)
  : Result (list Z) :=
  if (byteOffset + 2 <=? length view)%nat
  then let v := value mod 2 ^ 16 in
       Ok (<[byteOffset + 1 := byte_at v 1]>
           (<[byteOffset := byte_at v 0]> view))%nat
  else Err (RangeError "Offset is outside the bounds of the DataView").

(** [view.setUint32(byteOffset, value, true)]: the value modulo 2^32, least
    significant byte first. *)
Definition setUint32 (view : list Z) (byteOffset : nat) (value : Z)
  : Result (list Z) :=
  if (byteOffset + 4 <=? length view)%nat
  then let v := value mod 2 ^ 32 in
       Ok (<[byteOffset + 3 := byte_at v 3]>
           (<[byteOffset + 2 := byte_at v 2]>
            (<[byteOffset + 1 := byte_at v 1]>
             (<[byteOffset := byte_at v 0]> view))))%nat
  else Err (RangeError "Offset is outside the bounds of the DataView").

(** [string.charCodeAt(i)] of each character, in order. *)
Fixpoint charCodes (s : string) : list Z :=
  match s with
  | EmptyString => []
  | String c s' => Z.of_nat (Ascii.nat_of_ascii c) :: charCodes s'
  end.

(** [writeString(view, offset, string)]: one [setUint8] per character. *)
Fixpoint writeCodes (view : list Z) (offset : nat) (codes : list Z)
  : Result (list Z) :=
  match codes with
  | [] => Ok view
  | c :: rest =>
      view' <-! setUint8 view offset c ;;
      writeCodes view' (S offset) rest
  end.

Definition writeString (view : list Z) (offset : nat) (s : string)
  : Result (list Z) :=
  writeCodes view offset (charCodes s).

(** An [Int16Array]: a window of [length16] 16-bit elements starting at
    [byteOffset] into an underlying [ArrayBuffer]. *)
Record Int16Array : Type := mkInt16Array {
  buffer : list Z;
  byteOffset : nat;
  length16 : nat
}.

(** The error that [new Int16Array(buffer)] throws on a buffer of odd
    length. *)
Definition oddLength : JsError :=
  RangeError "byte length of Int16Array should be a multiple of 2".

(** [new Int16Array(buffer)]: a view of the whole buffer; throws a
    RangeError when the byte length is not a multiple of 2. *)
Definition newInt16Array (buf : list Z) : Result Int16Array :=
  if (length buf mod 2 =? 0)%nat
  then Ok {| buffer := buf; byteOffset := 0; length16 := (length buf / 2)%nat |}
  else Err oddLength.

(** [target.set(source)] for [target = new Uint8Array(buffer, offset)]:
    copies [source] to the start of the window; throws a RangeError when the
    source is longer than the window. *)
Definition setFrom (buf : list Z) (offset : nat) (source : list Z)
  : Result (list Z) :=
  if (length source <=? length buf - offset)%nat
  then Ok (take offset buf ++ source ++ drop (offset + length source) buf)
  else Err (RangeError "offset is out of bounds").

(** [addWavHeader(pcmData, sampleRate = 24000)] *)
Definition addWavHeader (pcmData : Int16Array) (sampleRate : Z)
  : Result (list Z) :=
  let numChannels := 1 in
  let bitsPerSample := 16 in
  let byteRate := sampleRate * numChannels * (bitsPerSample / 8) in
  let blockAlign := numChannels * (bitsPerSample / 8) in
  let dataSize := (length16 pcmData * 2)%nat in
  let view := replicate (44 + dataSize) 0 in
  view <-! writeString view 0 "RIFF" ;;
  view <-! setUint32 view 4 (36 + Z.of_nat dataSize) ;;
  view <-! writeString view 8 "WAVE" ;;
  view <-! writeString view 12 "fmt " ;;
  view <-! setUint32 view 16 16 ;;
  view <-! setUint16 view 20 1 ;;
  view <-! setUint16 view 22 numChannels ;;
  view <-! setUint32 view 24 sampleRate ;;
  view <-! setUint32 view 28 byteRate ;;
  view <-! setUint16 view 32 blockAlign ;;
  view <-! setUint16 view 34 bitsPerSample ;;
  view <-! writeString view 36 "data" ;;
  view <-! setUint32 view 40 (Z.of_nat dataSize) ;;
  setFrom view 44 (buffer pcmData).

Definition default_sampleRate : Z := 24000.

(** *** Reading a container back

    The repository has no decoder. [parseWav] is the reference reader of the
    canonical 44-byte RIFF/WAVE header, used to state the round-trip law:
    fields at their standard offsets, least significant byte first, and the
    sample bytes after the header. *)

Definition getUint16 (view : list Z) (off : nat) : Z :=
  view !!! off + 256 * view !!! (off + 1)%nat.

Definition getUint32 (view : list Z) (off : nat) : Z :=
  view !!! off + 256 * view !!! (off + 1)%nat
  + 65536 * view !!! (off + 2)%nat + 16777216 * view !!! (off + 3)%nat.

Record WavInfo : Type := mkWavInfo {
  wav_numChannels : Z;
  wav_sampleRate : Z;
  wav_byteRate : Z;
  wav_blockAlign : Z;
  wav_bitsPerSample : Z;
  wav_dataSize : Z;
  wav_sampleBytes : list Z
}.

Definition parseWav (file : list Z) : option WavInfo :=
  if bool_decide (take 4 file = charCodes "RIFF"
                  /\ take 4 (drop 8 file) = charCodes "WAVE"
                  /\ take 4 (drop 12 file) = charCodes "fmt "
                  /\ take 4 (drop 36 file) = charCodes "data"
                  /\ getUint16 file 20 = 1)
  then Some {| wav_numChannels := getUint16 file 22;
               wav_sampleRate := getUint32 file 24;
               wav_byteRate := getUint32 file 28;
               wav_blockAlign := getUint16 file 32;
               wav_bitsPerSample := getUint16 file 34;
               wav_dataSize := getUint32 file 40;
               wav_sampleBytes := drop 44 file |}
  else None.

(** The elements of an [Int16Array] on a little-endian platform: element [i]
    is the signed value of the two bytes at [byteOffset + 2 i]. *)
Definition toInt16 (u : Z) : Z := if decide (u < 32768) then u else u - 65536.

Definition samples (a : Int16Array) : list Z :=
  map (fun i => toInt16 (getUint16 (buffer a) (byteOffset a + 2 * i)%nat))
      (seq 0 (length16 a)).

(** The two bytes of a signed 16-bit sample, least significant first. *)
Definition int16_le (s : Z) : list Z := [byte_at (s mod 65536) 0; byte_at (s mod 65536) 1].

(** An [Int16Array] that spans its whole buffer, as [new Int16Array(buffer)]
    makes it. *)
Definition whole_buffer (a : Int16Array) : Prop :=
  byteOffset a = 0%nat /\ length (buffer a) = (2 * length16 a)%nat.

(** *** The layout of the header, for the statements below *)

(** A 16-bit and a 32-bit field, least significant byte first. *)
Definition le16 (v : Z) : list Z :=
  [byte_at (v mod 2 ^ 16) 0; byte_at (v mod 2 ^ 16) 1].
Definition le32 (v : Z) : list Z :=
  [byte_at (v mod 2 ^ 32) 0; byte_at (v mod 2 ^ 32) 1;
   byte_at (v mod 2 ^ 32) 2; byte_at (v mod 2 ^ 32) 3].

(** The 44 bytes that [addWavHeader] writes before the samples. *)
Definition wavHeader (sampleRate : Z) (dataSize : nat) : list Z :=
  charCodes "RIFF" ++ le32 (36 + Z.of_nat dataSize) ++ charCodes "WAVE"
  ++ charCodes "fmt " ++ le32 16 ++ le16 1 ++ le16 1 ++ le32 sampleRate
  ++ le32 (sampleRate * 2) ++ le16 2 ++ le16 16 ++ charCodes "data"
  ++ le32 (Z.of_nat dataSize).

(** Every [Int16Array] satisfies this: the window is aligned and lies inside
    the buffer, and the buffer holds bytes. *)
Definition valid_view (a : Int16Array) : Prop :=
  (byteOffset a mod 2 = 0)%nat
  /\ (byteOffset a + 2 * length16 a <= length (buffer a))%nat
  /\ Forall is_byte (buffer a).

(** [file] is a container for the samples of [pcmData] at [sampleRate]:
    44 header bytes and two bytes per sample; read back, the header declares
    one channel, 16 bits per sample, the sample rate, a byte rate of twice
    the sample rate and a block alignment of 2, and what follows the header
    is the samples, each as its two bytes, least significant first. *)
Definition container_of (pcmData : Int16Array) (sampleRate : Z)
    (file : list Z) : Prop :=
  length file = (44 + 2 * length16 pcmData)%nat
  /\ exists info, parseWav file = Some info
     /\ wav_numChannels info = 1
     /\ wav_bitsPerSample info = 16
     /\ wav_sampleRate info = sampleRate
     /\ wav_byteRate info = sampleRate * 2
     /\ wav_blockAlign info = 2
     /\ wav_sampleBytes info = concat (map int16_le (samples pcmData)).

(** A view of the second half of a four-byte buffer, and an empty view. *)
Definition view_of_second_half : Int16Array :=
  {| buffer := [1; 2; 3; 4]; byteOffset := 2; length16 := 1 |}.
Definition empty_view : Int16Array :=
  {| buffer := []; byteOffset := 0; length16 := 0 |}.
Definition two_samples : Int16Array :=
  {| buffer := [1; 2; 3; 255]; byteOffset := 0; length16 := 2 |}.

End Wav.
Export Wav.

(** ** The data model ([types.ts]) *)

Module Model.

(** Field names are those of the interfaces, but for [id] and for the names
    that two interfaces share: [char_id], [project_id], [project_title],
    [voice_language], [out_title]. *)

Inductive Language := ar | en | fr | es | de.
Inductive VoiceType := man_deep | man_soft | man_drama | woman | child.
Inductive Tone := enthusiastic | sad | calm | mysterious | dramatic.
Inductive Accent := fusha | egyptian | khaleeji | shami | maghrebi | neutral.
Inductive Role := protagonist | antagonist | supporting.
Inductive Pacing := slow | balanced | fast.
Inductive PlotTwist := none | mild | shocking.
Inductive AspectRatio := r16_9 | r9_16 | r1_1 | r4_5 | r3_4 | r4_3.
Inductive ImageModel := gemini_3_pro_image_preview | gemini_2_5_flash_image.

(** The string each member of a union type is at run time. *)
Definition language_str (l : Language) : string :=
  match l with ar => "ar" | en => "en" | fr => "fr" | es => "es" | de => "de" end.
Definition voiceType_str (v : VoiceType) : string :=
  match v with
  | man_deep => "man_deep" | man_soft => "man_soft" | man_drama => "man_drama"
  | woman => "woman" | child => "child"
  end.
Definition role_str (r : Role) : string :=
  match r with
  | protagonist => "protagonist" | antagonist => "antagonist"
  | supporting => "supporting"
  end.
Definition pacing_str (p : Pacing) : string :=
  match p with slow => "slow" | balanced => "balanced" | fast => "fast" end.
Definition aspectRatio_str (a : AspectRatio) : string :=
  match a with
  | r16_9 => "16:9" | r9_16 => "9:16" | r1_1 => "1:1"
  | r4_5 => "4:5" | r3_4 => "3:4" | r4_3 => "4:3"
  end.
Definition imageModel_str (m : ImageModel) : string :=
  match m with
  | gemini_3_pro_image_preview => "gemini-3-pro-image-preview"
  | gemini_2_5_flash_image => "gemini-2.5-flash-image"
  end.

Record VoiceConfig : Type := mkVoiceConfig {
  voiceType : VoiceType;
  tone : Tone;
  accent : Accent;
  voice_language : Language
}.

Record Character : Type := mkCharacter {
  char_id : string;
  name : string;
  role : Role;
  description : string;          (* the visual signature *)
  image : option string
}.

Record StoryConfig : Type := mkStoryConfig {
  language : Language;
  category : string;
  title : string;
  premise : string;
  setting : string;
  pacing : Pacing;
  plotTwist : PlotTwist;
  characters : list Character;
  sceneCount : Z;
  characterCount : Z
}.

Record ImageStyleConfig : Type := mkImageStyleConfig {
  artStyle : string;
  cameraAngle : string;
  lighting : string;
  colorGrade : string;
  characterLook : string;
  clothingStyle : string
}.

(** A scene object at run time. The interface declares the text fields
    required and the two media slots optional; but scene objects come from an
    unchecked cast of parsed JSON and from object spreads, so every property
    may be absent ([None] reads as [undefined]). *)
Record Scene : Type := mkScene {
  sceneNumber : option Z;
  narrative : option string;
  imagePrompt : option string;
  motionPrompt : option string;
  characterNames : option (list string);
  audioData : option string;     (* base64 WAV *)
  imageUrl : option string
}.

(** The object [{}]. *)
Definition emptyObject : Scene :=
  {| sceneNumber := None; narrative := None; imagePrompt := None;
     motionPrompt := None; characterNames := None; audioData := None;
     imageUrl := None |}.

(** [{ ...scene, audioData: v }] and [{ ...scene, imageUrl: v }]; spreading
    a nullish value contributes no property. *)
Definition spread (scene : option Scene) : Scene := default emptyObject scene.

Definition with_audioData (scene : Scene) (v : string) : Scene :=
  {| sceneNumber := sceneNumber scene; narrative := narrative scene;
     imagePrompt := imagePrompt scene; motionPrompt := motionPrompt scene;
     characterNames := characterNames scene; audioData := Some v;
     imageUrl := imageUrl scene |}.

Definition with_imageUrl (scene : Scene) (v : string) : Scene :=
  {| sceneNumber := sceneNumber scene; narrative := narrative scene;
     imagePrompt := imagePrompt scene; motionPrompt := motionPrompt scene;
     characterNames := characterNames scene; audioData := audioData scene;
     imageUrl := Some v |}.

(** The scenes array holds scene objects; [None] is a hole, an element
    that reads as [undefined].  An element that is [null], which only a
    text that departs from the interface could parse to, is not
    represented. *)
Record StoryOutput : Type := mkStoryOutput {
  out_title : string;
  summary : string;
  scenes : list (option Scene)
}.

Record MediaSettings : Type := mkMediaSettings {
  aspectRatio : AspectRatio;
  imageModel : ImageModel
}.

Record Project : Type := mkProject {
  project_id : string;
  project_title : option string;
  lastSaved : option Z;
  createdAt : Z;
  config : StoryConfig;
  output : option StoryOutput;
  mediaSettings : MediaSettings;
  imageStyle : ImageStyleConfig;
  voiceConfig : VoiceConfig;
  apiKey : option string
}.

(** [{ ...p, output: { ...o, scenes: newScenes } }] *)
Definition with_scenes (p : Project) (o : StoryOutput)
    (newScenes : list (option Scene)) : Project :=
  {| project_id := project_id p; project_title := project_title p;
     lastSaved := lastSaved p; createdAt := createdAt p; config := config p;
     output := Some {| out_title := out_title o; summary := summary o;
                       scenes := newScenes |};
     mediaSettings := mediaSettings p; imageStyle := imageStyle p;
     voiceConfig := voiceConfig p; apiKey := apiKey p |}.

(** [{ ...p, output }] *)
Definition with_output (p : Project) (o : option StoryOutput) : Project :=
  {| project_id := project_id p; project_title := project_title p;
     lastSaved := lastSaved p; createdAt := createdAt p; config := config p;
     output := o;
     mediaSettings := mediaSettings p; imageStyle := imageStyle p;
     voiceConfig := voiceConfig p; apiKey := apiKey p |}.

(** [{ ...p, config: { ...p.config, characters: cs } }] *)
Definition with_characters (p : Project) (cs : list Character) : Project :=
  let c := config p in
  {| project_id := project_id p; project_title := project_title p;
     lastSaved := lastSaved p; createdAt := createdAt p;
     config := {| language := language c; category := category c;
                  title := title c; premise := premise c;
                  setting := setting c; pacing := pacing c;
                  plotTwist := plotTwist c; characters := cs;
                  sceneCount := sceneCount c;
                  characterCount := characterCount c |};
     output := output p;
     mediaSettings := mediaSettings p; imageStyle := imageStyle p;
     voiceConfig := voiceConfig p; apiKey := apiKey p |}.

End Model.
Export Model.

(** ** The generation services ([geminiService.ts]) *)

Module Gemini.

(** *** Responses of the external service *)

Record InlineData : Type := mkInlineData {
  mimeType : option string;
  data : option string
}.
Record Part : Type := mkPart { inlineData : option InlineData }.
Record Content : Type := mkContent { parts : option (list Part) }.
Record Candidate : Type := mkCandidate { content : option Content }.
Record Response : Type := mkResponse {
  text : option string;
  candidates : option (list Candidate)
}.

(** What the code takes from its platform: the external service (the
    outcome of the k-th call, given the request), the process-level
    credential, and the built-ins [atob], [btoa], [JSON.parse] and
    [String.prototype.toLowerCase].  A binary string is the list of its
    character codes. *)
Record Platform : Type := mkPlatform {
  service : nat -> Request -> Result Response;
  env_API_KEY : option string;
  atob : string -> Result (list Z);
  btoa : list Z -> string;
  JSON_parse : string -> Result StoryOutput;
  toLowerCase : string -> string
}.

(** The double-quote character, and a line break. *)
Definition dq : string := String (Ascii.ascii_of_nat 34) EmptyString.
Definition newline : string := String (Ascii.ascii_of_nat 10) EmptyString.

(** A value interpolated in a template literal: a string that may be
    absent, and a number.  [number_str] gives the decimal digits of an
    integer, which is what JavaScript prints for the safe integers
    ([isSafeInteger]); beyond them a number is rounded to 17 significant
    digits, and from 1e21 it is printed with an exponent. *)
Definition str_of_opt (s : option string) : string := default "undefined" s.
Definition number_str (n : Z) : string := pretty n.

(** [Number.isSafeInteger(n)], for an integer: at most 2^53 - 1 in absolute
    value. *)
Definition isSafeInteger (n : Z) : Prop := Z.abs n <= 9007199254740991.

(** [arr.join(sep)] *)
Fixpoint join (sep : string) (l : list string) : string :=
  match l with
  | [] => ""
  | [s] => s
  | s :: rest => s +:+ sep +:+ join sep rest
  end.

Definition TypeError (msg : string) : JsError := Error msg.

Section WithPlatform.

Variable env : Platform.

(** [getAI(customKey)]: the key the client is built with. *)
Definition getAI (customKey : option string) : Result string :=
  let key := if truthy_opt customKey then customKey else env_API_KEY env in
  match key with
  | Some k => if truthy k then Ok k
              else Err (Error "Missing API Key. Please add one in Settings.")
  | None => Err (Error "Missing API Key. Please add one in Settings.")
  end.

(** [await ai.models.generateContent(...)]: the call is recorded and
    settles as the service decides. *)
Definition generateContent (req : Request) : M Response :=
  fun w => (service env (calls w) req, w ++ [EvCall req]).

(** **** [generateStory] *)

Definition characterProfile (c : Character) : string :=
  "- Name: " +:+ name c +:+ " (" +:+ role_str (role c) +:+ ")
  Visual Signature: " +:+ description c.

Definition characterProfiles (config : StoryConfig) : string :=
  join newline (map characterProfile (characters config)).

Definition dialectSystemInstruction (config : StoryConfig) : string :=
  match language config with
  | ar => "You are an expert Arabic storyteller. Write narration in the requested dialect."
  | l => "Write in " +:+ language_str l +:+ "."
  end.

Definition storyPrompt (config : StoryConfig) (style : ImageStyleConfig)
  : string :=
  "
        STORY SETTINGS:
        - Genre: " +:+ category config +:+ "
        - Premise: " +:+ premise config +:+ "
        - Setting: " +:+ setting config +:+ "
        - Pacing: " +:+ pacing_str (pacing config) +:+ "

        VISUAL STYLE PREFERENCES:
        - Art Style: " +:+ artStyle style +:+ "
        - Preferred Camera Angle: " +:+ cameraAngle style +:+ "
        - Lighting: " +:+ lighting style +:+ "
        - Color Palette: " +:+ colorGrade style +:+ "

        CHARACTER PROFILES (Reference these for context):
        " +:+ characterProfiles config +:+ "

        INSTRUCTIONS:
        1. **SEPARATION OF CONCERNS**:
           - **Narrative**: Story text for audio. Conversational, dialect-aware.
           - **ImagePrompt**: ENGLISH ONLY.
             - **MANDATORY**: Start every image prompt with " +:+ dq +:+ artStyle style +:+ " style, " +:+ lighting style +:+ " lighting" +:+ dq +:+ ".
             - Describe the scene's action and composition.
             - Use Character Names (e.g., " +:+ dq +:+ "John is running" +:+ dq +:+ ").
             - **DO NOT** paste long visual descriptions of characters here. The system injects them later.
           - **MotionPrompt**: ENGLISH ONLY. Provide HIGHLY DETAILED technical camera movement instructions suitable for AI video generators (e.g., Veo, Sora). 
             - Must align with pacing '" +:+ pacing_str (pacing config) +:+ "'.
             - Must consider the preferred angle '" +:+ cameraAngle style +:+ "'. 
             - Examples: " +:+ dq +:+ "Slow pan right" +:+ dq +:+ ", " +:+ dq +:+ "Tracking shot" +:+ dq +:+ ", " +:+ dq +:+ "Push in" +:+ dq +:+ ", " +:+ dq +:+ "Static camera with moving elements" +:+ dq +:+ ".

        Generate exactly " +:+ number_str (sceneCount config) +:+ " scenes.
      ".

(** The request that [generateStory] sends. *)
Definition storyRequest (ai : string) (config : StoryConfig)
    (style : ImageStyleConfig) : Request :=
  {| req_apiKey := ai; req_model := "gemini-3-flash-preview";
     req_contents := Some (storyPrompt config style);
     req_systemInstruction := Some (dialectSystemInstruction config);
     req_voiceName := None; req_aspectRatio := None; req_imageSize := None |}.

Definition storyAttempt (config : StoryConfig) (voiceConfig : VoiceConfig)
    (style : ImageStyleConfig) (apiKey : option string) : M StoryOutput :=
  ai <- lift (getAI apiKey) ;;
  response <- generateContent (storyRequest ai config style) ;;
  match text response with
  | Some t =>
      if truthy t then lift (JSON_parse env t)
      else throw (Error "No text returned from Gemini.")
  | None => throw (Error "No text returned from Gemini.")
  end.

Definition generateStory (config : StoryConfig) (voiceConfig : VoiceConfig)
    (style : ImageStyleConfig) (apiKey : option string) : M StoryOutput :=
  callWithRetry (storyAttempt config voiceConfig style apiKey)
                default_retries default_delay.

(** **** [generateSpeech] *)

(** The voice table of the current service file. *)
Definition voiceName (voiceType : string) : string :=
  if String.eqb voiceType "man_deep" then "Charon"
  else if String.eqb voiceType "man_soft" then "Puck"
  else if String.eqb voiceType "man_drama" then "Fenrir"
  else if String.eqb voiceType "woman" then "Kore"
  else if String.eqb voiceType "child" then "Puck"
  else "Charon".

(** The voice table of [services/geminiService.ts]. *)
Definition voiceName_v1 (voiceType : string) : string :=
  if String.eqb voiceType "man_deep" then "Fenrir"
  else if String.eqb voiceType "man_soft" then "Puck"
  else if String.eqb voiceType "man_drama" then "Charon"
  else if String.eqb voiceType "woman" then "Kore"
  else if String.eqb voiceType "child" then "Puck"
  else "Puck".

(** [response.candidates?.[0]?.content?.parts?.[0]?.inlineData?.data] *)
Definition firstInlineData (response : Response) : option string :=
  cands ← candidates response;
  cand ← head cands;
  c ← content cand;
  ps ← parts c;
  p ← head ps;
  d ← inlineData p;
  data d.

(** The loop that rebuilds the binary string in chunks of [chunkSize]
    bytes: [for (i = 0; i < wavLen; i += chunkSize)].  Each round advances
    [i] by the positive chunk size, so [wavLen] rounds always suffice. *)
Definition chunkSize : nat := Z.to_nat 8192.

Fixpoint chunkLoop (rounds : nat) (wavBytes : list Z) (i : nat)
    (binary : list Z) : list Z :=
  match rounds with
  | O => binary
  | S rounds' =>
      if (i <? length wavBytes)%nat
      then let chunk := take (Nat.min (i + chunkSize) (length wavBytes) - i)
                             (drop i wavBytes) in
           chunkLoop rounds' wavBytes (i + chunkSize)%nat (binary ++ chunk)
      else binary
  end.

Definition toBinaryString (wavBytes : list Z) : list Z :=
  chunkLoop (length wavBytes) wavBytes 0 [].

(** The request that [generateSpeech] sends, given the voice table. *)
Definition speechRequest (voices : string -> string) (ai : string)
    (text : option string) (voiceType : string) : Request :=
  {| req_apiKey := ai; req_model := "gemini-2.5-flash-preview-tts";
     req_contents := text; req_systemInstruction := None;
     req_voiceName := Some (voices voiceType); req_aspectRatio := None;
     req_imageSize := None |}.

(** The body shared by the two versions of [generateSpeech], which differ
    in the voice table and in the text of the missing-audio error. *)
Definition speechAttemptWith (voices : string -> string) (noAudio : string)
    (text : option string) (voiceType : string) (apiKey : option string)
  : M string :=
  ai <- lift (getAI apiKey) ;;
  response <- generateContent (speechRequest voices ai text voiceType) ;;
  match firstInlineData response with
  | Some base64Audio =>
      if truthy base64Audio then
        binaryString <- lift (atob env base64Audio) ;;
        let bytes := map (fun c => c mod 256) binaryString in
        pcmData <- lift (newInt16Array bytes) ;;
        wavBuffer <- lift (addWavHeader pcmData 24000) ;;
        ret (btoa env (toBinaryString wavBuffer))
      else throw (Error noAudio)
  | None => throw (Error noAudio)
  end.

Definition speechAttempt := speechAttemptWith voiceName "No audio".
Definition speechAttempt_v1 :=
  speechAttemptWith voiceName_v1 "No audio data returned from Gemini.".

Definition generateSpeech (text : option string) (voiceType : string)
    (apiKey : option string) : M string :=
  callWithRetry (speechAttempt text voiceType apiKey)
                default_retries default_delay.

Definition generateSpeech_v1 (text : option string) (voiceType : string)
    (apiKey : option string) : M string :=
  callWithRetry (speechAttempt_v1 text voiceType apiKey)
                default_retries default_delay.

(** **** [generateImage] *)

(** One entry of the character block. *)
Definition characterEntry (c : Character) : string :=
  "
--- CHARACTER: " +:+ name c +:+ " ---
" +:+ description c +:+ "
".

Definition characterBlock (activeCharacters : list Character) : string :=
  if (0 <? length activeCharacters)%nat
  then "
*** CHARACTER VISUAL REQUIREMENTS (STRICT ADHERENCE REQUIRED) ***
The following characters are present in the scene. You MUST render them EXACTLY as described. 
If multiple characters are listed, ALL must appear.
" +:+ join newline (map characterEntry activeCharacters) +:+ "
"
  else "".

Definition styleBlock (style : ImageStyleConfig) : string :=
  "
*** GLOBAL ART STYLE & TECHNICAL SPECS ***
- Art Style: " +:+ artStyle style +:+ "
- Lighting: " +:+ lighting style +:+ "
- Color Palette: " +:+ colorGrade style +:+ "
- Camera Angle: " +:+ cameraAngle style +:+ "
- Character Look: " +:+ characterLook style +:+ "
- Clothing Style: " +:+ clothingStyle style +:+ "
- Quality: 8k, highly detailed, photorealistic, cinematic composition.
".

Definition sceneBlock (basePrompt : option string) : string :=
  "
*** SCENE CONTENT ***
" +:+ str_of_opt basePrompt +:+ "
".

Definition finalPrompt (basePrompt : option string)
    (style : ImageStyleConfig) (activeCharacters : list Character) : string :=
  "
You are an expert image generation prompt engineer.
Generate an image based on the following rigid specifications.

" +:+ styleBlock style +:+ "
" +:+ characterBlock activeCharacters +:+ "
" +:+ sceneBlock basePrompt +:+ "

INSTRUCTION: 
1. Prioritize the GLOBAL ART STYLE. The entire image must unify under " +:+ dq +:+ artStyle style +:+ dq +:+ ".
2. Render characters EXACTLY as defined in the CHARACTER VISUAL REQUIREMENTS. Do not blend their features.
3. Ensure the scene content actions are depicted clearly.
".

(** The scan of the response for the first part that carries inline data. *)
Fixpoint firstImagePart (ps : list Part) : option string :=
  match ps with
  | [] => None
  | part :: rest =>
      match inlineData part with
      | Some d => Some ("data:" +:+ str_of_opt (mimeType d) +:+ ";base64,"
                        +:+ str_of_opt (data d))
      | None => firstImagePart rest
      end
  end.

Fixpoint scanCandidates (cands : list Candidate) : Result string :=
  match cands with
  | [] => Err (Error "No image data returned.")
  | cand :: rest =>
      match content cand with
      | None => Err (TypeError "Cannot read properties of undefined (reading 'parts')")
      | Some c =>
          match parts c with
          | None => Err (TypeError "cand.content.parts is not iterable")
          | Some ps =>
              match firstImagePart ps with
              | Some url => Ok url
              | None => scanCandidates rest
              end
          end
      end
  end.

Definition proRequest (ai prompt : string) (settings : MediaSettings)
  : Request :=
  {| req_apiKey := ai; req_model := "gemini-3-pro-image-preview";
     req_contents := Some prompt; req_systemInstruction := None;
     req_voiceName := None;
     req_aspectRatio := Some (aspectRatio_str (aspectRatio settings));
     req_imageSize := Some "1K" |}.

Definition flashRequest (ai prompt : string) (settings : MediaSettings)
  : Request :=
  {| req_apiKey := ai; req_model := "gemini-2.5-flash-image";
     req_contents := Some prompt; req_systemInstruction := None;
     req_voiceName := None;
     req_aspectRatio := Some (aspectRatio_str (aspectRatio settings));
     req_imageSize := None |}.

(** [runGeneration(model, config)], given the request it sends. *)
Definition runGeneration (req : Request) : M string :=
  response <- generateContent req ;;
  lift (scanCandidates (default [] (candidates response))).

Definition imageAttempt (basePrompt : option string)
    (settings : MediaSettings) (style : ImageStyleConfig)
    (apiKey : option string) (activeCharacters : list Character) : M string :=
  ai <- lift (getAI apiKey) ;;
  let prompt := finalPrompt basePrompt style activeCharacters in
  try_catch (runGeneration (proRequest ai prompt settings))
            (fun e => runGeneration (flashRequest ai prompt settings)).

Definition generateImage (basePrompt : option string)
    (settings : MediaSettings) (style : ImageStyleConfig)
    (apiKey : option string) (activeCharacters : list Character) : M string :=
  callWithRetry (imageAttempt basePrompt settings style apiKey activeCharacters)
                default_retries default_delay.

End WithPlatform.

(** *** Notions used to state the properties of the services *)

(** What the specification requires of a script for [config]: exactly
    [sceneCount] scenes, each with its fields populated, numbered densely
    from 1. *)
Definition populated (s : Scene) : Prop :=
  is_Some (sceneNumber s) /\ is_Some (narrative s) /\ is_Some (imagePrompt s)
  /\ is_Some (motionPrompt s) /\ is_Some (characterNames s).

Definition valid_script (config : StoryConfig) (out : StoryOutput) : Prop :=
  Z.of_nat (length (scenes out)) = sceneCount config
  /\ forall i elt, scenes out !! i = Some elt ->
       exists s, elt = Some s /\ populated s
                 /\ sceneNumber s = Some (Z.of_nat i + 1).


(** How [runGeneration] settles when its call is the k-th call to the
    service: as the service, then as the scan of the response. *)
Definition imageOutcome (env : Platform) (k : nat) (req : Request)
  : Result string :=
  match service env k req with
  | Ok response => scanCandidates (default [] (candidates response))
  | Err e => Err e
  end.

(** The runs of [generateImage] from a world with [n] earlier calls,
    [retries] retries left and the current [delay], [pro] and [flash] being
    the requests to the two tiers: the events a run adds, and how it
    settles. *)
Inductive image_run (env : Platform) (pro flash : Request) (n : nat)
  : nat -> Z -> list Event -> Result string -> Prop :=
| run_pro_ok retries delay v :
    imageOutcome env n pro = Ok v ->
    image_run env pro flash n retries delay [EvCall pro] (Ok v)
| run_flash_ok retries delay e v :
    imageOutcome env n pro = Err e ->
    imageOutcome env (S n) flash = Ok v ->
    image_run env pro flash n retries delay [EvCall pro; EvCall flash] (Ok v)
| run_both_fail retries delay e1 e2 :
    imageOutcome env n pro = Err e1 ->
    imageOutcome env (S n) flash = Err e2 ->
    retries = O \/ isRetryable e2 = false ->
    image_run env pro flash n retries delay [EvCall pro; EvCall flash] (Err e2)
| run_retry retries delay e1 e2 evs res :
    imageOutcome env n pro = Err e1 ->
    imageOutcome env (S n) flash = Err e2 ->
    isRetryable e2 = true ->
    image_run env pro flash (S (S n)) retries (delay * 2) evs res ->
    image_run env pro flash n (S retries) delay
      (EvCall pro :: EvCall flash :: EvSleep delay :: evs) res.

(** The model of the first and of the last call of a trace. *)
Definition call_model (e : Event) : option string :=
  match e with EvCall req => Some (req_model req) | _ => None end.
Definition first_model (evs : list Event) : option string :=
  head (omap call_model evs).
Definition last_model (evs : list Event) : option string :=
  last (omap call_model evs).

(** The order of composition that the specification names, read on a
    trace: every wait of the retry wrapper separates two calls to the same
    model tier, and no call to the high tier follows a call to the lower
    tier. *)
Definition fallback_wraps_retry (evs : list Event) : Prop :=
  (forall pre ms post, evs = pre ++ EvSleep ms :: post ->
     last_model pre = first_model post)
  /\ (forall pre req post, evs = pre ++ EvCall req :: post ->
        req_model req = "gemini-2.5-flash-image" ->
        "gemini-3-pro-image-preview" ∉ omap call_model post).

End Gemini.
Export Gemini.

(** ** The application handlers ([App.tsx]) *)

Module App.

(** The component state that the generation handlers read and write. *)
Record AppState : Type := mkAppState {
  project : Project;
  lang : Language;
  loading : bool;
  audioLoadingIndex : option nat;
  imageLoadingIndex : option nat;
  generatingAllAudio : bool;
  generatingAllImages : bool;
  error : option string
}.

(** The state setters. [setProject] takes an updater, which React applies
    to the latest state; updaters are applied in the order of the calls. *)
Definition setProject (f : Project -> Project) (st : AppState) : AppState :=
  {| project := f (project st); lang := lang st; loading := loading st;
     audioLoadingIndex := audioLoadingIndex st;
     imageLoadingIndex := imageLoadingIndex st;
     generatingAllAudio := generatingAllAudio st;
     generatingAllImages := generatingAllImages st; error := error st |}.
Definition setLoading (b : bool) (st : AppState) : AppState :=
  {| project := project st; lang := lang st; loading := b;
     audioLoadingIndex := audioLoadingIndex st;
     imageLoadingIndex := imageLoadingIndex st;
     generatingAllAudio := generatingAllAudio st;
     generatingAllImages := generatingAllImages st; error := error st |}.
Definition setAudioLoadingIndex (i : option nat) (st : AppState) : AppState :=
  {| project := project st; lang := lang st; loading := loading st;
     audioLoadingIndex := i;
     imageLoadingIndex := imageLoadingIndex st;
     generatingAllAudio := generatingAllAudio st;
     generatingAllImages := generatingAllImages st; error := error st |}.
Definition setImageLoadingIndex (i : option nat) (st : AppState) : AppState :=
  {| project := project st; lang := lang st; loading := loading st;
     audioLoadingIndex := audioLoadingIndex st;
     imageLoadingIndex := i;
     generatingAllAudio := generatingAllAudio st;
     generatingAllImages := generatingAllImages st; error := error st |}.
Definition setGeneratingAllAudio (b : bool) (st : AppState) : AppState :=
  {| project := project st; lang := lang st; loading := loading st;
     audioLoadingIndex := audioLoadingIndex st;
     imageLoadingIndex := imageLoadingIndex st;
     generatingAllAudio := b;
     generatingAllImages := generatingAllImages st; error := error st |}.
Definition setGeneratingAllImages (b : bool) (st : AppState) : AppState :=
  {| project := project st; lang := lang st; loading := loading st;
     audioLoadingIndex := audioLoadingIndex st;
     imageLoadingIndex := imageLoadingIndex st;
     generatingAllAudio := generatingAllAudio st;
     generatingAllImages := b; error := error st |}.
Definition setError (e : option string) (st : AppState) : AppState :=
  {| project := project st; lang := lang st; loading := loading st;
     audioLoadingIndex := audioLoadingIndex st;
     imageLoadingIndex := imageLoadingIndex st;
     generatingAllAudio := generatingAllAudio st;
     generatingAllImages := generatingAllImages st; error := e |}.

(** A handler: an asynchronous function that settles without a value and
    never rejects; it transforms the component state and extends the trace. *)
Definition Handler : Type := AppState -> World -> AppState * World.

(** Reading a property of [undefined] throws. *)
Definition readOfUndefined (prop : string) : JsError :=
  TypeError ("Cannot read properties of undefined (reading '" +:+ prop +:+ "')").

Section WithPlatform.

Variable env : Platform.

(** *** Script *)

Definition with_language (c : StoryConfig) (l : Language) : StoryConfig :=
  {| language := l; category := category c; title := title c;
     premise := premise c; setting := setting c; pacing := pacing c;
     plotTwist := plotTwist c; characters := characters c;
     sceneCount := sceneCount c; characterCount := characterCount c |}.

Definition or_else (s : option string) (d : string) : string :=
  if truthy_opt s then default d s else d.

(** [generateScript], with the values [project] and [lang] of the render
    the handler was created in. *)
Definition generateScript (project0 : Project) (lang0 : Language) : Handler :=
  fun st w =>
    let st := setError None (setLoading true st) in
    let configToUse := config project0 in
    match generateStory env (with_language configToUse lang0)
            (voiceConfig project0) (imageStyle project0) (apiKey project0) w
    with
    | (Ok out, w') =>
        (setLoading false (setProject (fun p => with_output p (Some out)) st), w')
    | (Err err, w') =>
        (setLoading false
           (setError (Some (or_else (message err) "Script generation failed.")) st),
         w')
    end.

(** *** Active characters of a scene *)

(** [n.toLowerCase().includes(c.name.toLowerCase()) ||
     c.name.toLowerCase().includes(n.toLowerCase())] *)
Definition nameMatches (n cname : string) : bool :=
  includes (toLowerCase env n) (toLowerCase env cname)
  || includes (toLowerCase env cname) (toLowerCase env n).

(** [scene.characterNames?.some(n => ...)], as the filter reads it: an
    absent list yields [undefined], which is falsy. *)
Definition isActive (scene : Scene) (c : Character) : bool :=
  match characterNames scene with
  | Some names => existsb (fun n => nameMatches n (name c)) names
  | None => false
  end.

Definition activeChars (project0 : Project) (scene : Scene) : list Character :=
  List.filter (isActive scene) (characters (config project0)).

(** The prompt that the image job of a scene sends to the service. *)
Definition scenePrompt (project0 : Project) (scene : Scene) : string :=
  finalPrompt (imagePrompt scene) (imageStyle project0)
              (activeChars project0 scene).

(** *** The updaters passed to [setProject] *)

(** [handleGenerateAudio]: the new element spreads [scene], the object read
    from the handler's own [project] before the call to the service. *)
Definition audioMerge (sceneIndex : nat) (scene : Scene) (base64Wav : string)
    (p : Project) : Project :=
  match output p with
  | None => p
  | Some o =>
      let newScenes := scenes o in
      with_scenes p o
        (array_set newScenes sceneIndex (with_audioData scene base64Wav))
  end.

(** [handleGenerateImage]: likewise. *)
Definition imageMerge (sceneIndex : nat) (scene : Scene) (base64Img : string)
    (p : Project) : Project :=
  match output p with
  | None => p
  | Some o =>
      let newScenes := scenes o in
      with_scenes p o
        (array_set newScenes sceneIndex (with_imageUrl scene base64Img))
  end.

(** [handleGenerateAllAudio]: the new element spreads [newScenes[i]], the
    element of the state the updater is applied to. *)
Definition audioMergeAll (i : nat) (base64Wav : string) (p : Project)
  : Project :=
  match output p with
  | None => p
  | Some o =>
      let newScenes := scenes o in
      with_scenes p o
        (array_set newScenes i
           (with_audioData (spread (array_get newScenes i)) base64Wav))
  end.

(** [handleGenerateAllImages] and [handleImageUpload]: likewise. *)
Definition imageMergeAll (i : nat) (base64Img : string) (p : Project)
  : Project :=
  match output p with
  | None => p
  | Some o =>
      let newScenes := scenes o in
      with_scenes p o
        (array_set newScenes i
           (with_imageUrl (spread (array_get newScenes i)) base64Img))
  end.

(** *** Single-scene handlers

    Each is the part before the [await] (reading [scene] from the handler's
    [project]), the call to the service, and the part after the [await]
    ([audioSettled], [imageSettled]), which runs when the promise settles, on
    whatever the state is by then. *)

Definition audioSettled (sceneIndex : nat) (scene : Scene)
    (r : Result string) (st : AppState) : AppState :=
  match r with
  | Ok base64Wav =>
      setAudioLoadingIndex None
        (setProject (audioMerge sceneIndex scene base64Wav) st)
  | Err err =>
      setAudioLoadingIndex None
        (setError (Some ("Audio failed: " +:+ str_of_opt (message err))) st)
  end.

Definition handleGenerateAudio (project0 : Project) (sceneIndex : nat)
  : Handler :=
  fun st w =>
    match output project0 with
    | None => (st, w)
    | Some out =>
        let st := setAudioLoadingIndex (Some sceneIndex) st in
        match array_get (scenes out) sceneIndex with
        | None =>
            (setAudioLoadingIndex None
               (setError (Some ("Audio failed: "
                  +:+ str_of_opt (message (readOfUndefined "narrative")))) st),
             w)
        | Some scene =>
            let '(r, w') :=
              generateSpeech env (narrative scene)
                (voiceType_str (voiceType (voiceConfig project0)))
                (apiKey project0) w in
            (audioSettled sceneIndex scene r st, w')
        end
    end.

Definition imageSettled (sceneIndex : nat) (scene : Scene)
    (r : Result string) (st : AppState) : AppState :=
  match r with
  | Ok base64Img =>
      setImageLoadingIndex None
        (setProject (imageMerge sceneIndex scene base64Img) st)
  | Err err =>
      setImageLoadingIndex None
        (setError (Some ("Image failed: " +:+ str_of_opt (message err))) st)
  end.

Definition handleGenerateImage (project0 : Project) (sceneIndex : nat)
  : Handler :=
  fun st w =>
    match output project0 with
    | None => (st, w)
    | Some out =>
        let st := setImageLoadingIndex (Some sceneIndex) st in
        match array_get (scenes out) sceneIndex with
        | None =>
            (setImageLoadingIndex None
               (setError (Some ("Image failed: "
                  +:+ str_of_opt (message (readOfUndefined
                        match characters (config project0) with
                        | [] => "imagePrompt"
                        | _ => "characterNames"
                        end)))) st),
             w)
        | Some scene =>
            let '(r, w') :=
              generateImage env (imagePrompt scene) (mediaSettings project0)
                (imageStyle project0) (apiKey project0)
                (activeChars project0 scene) w in
            (imageSettled sceneIndex scene r st, w')
        end
    end.

(** [handleImageUpload], once the file has been read. *)
Definition imageUploaded (sceneIndex : nat) (base64 : string)
    (st : AppState) : AppState :=
  setProject (imageMergeAll sceneIndex base64) st.

(** *** Batch handlers *)

(** [for (let i = 0; i < n; i++) body(i)], the bound being fixed. *)
Fixpoint forLoop (body : nat -> Handler) (i : nat) (rounds : nat) : Handler :=
  fun st w =>
    match rounds with
    | O => (st, w)
    | S rounds' =>
        let '(st', w') := body i st w in
        forLoop body (S i) rounds' st' w'
    end.

(** One round of [handleGenerateAllAudio]: a failure of the job is logged
    and the loop goes on. *)
Definition audioRound (project0 : Project) (out : StoryOutput) (i : nat)
  : Handler :=
  fun st w =>
    let scene := array_get (scenes out) i in
    let st := setAudioLoadingIndex (Some i) st in
    match scene with
    | None => (st, w)
    | Some scene =>
        match generateSpeech env (narrative scene)
                (voiceType_str (voiceType (voiceConfig project0)))
                (apiKey project0) w
        with
        | (Ok base64Wav, w') => (setProject (audioMergeAll i base64Wav) st, w')
        | (Err _, w') => (st, w')
        end
    end.

Definition handleGenerateAllAudio (project0 : Project) : Handler :=
  fun st w =>
    match output project0 with
    | None => (st, w)
    | Some out =>
        let st := setError None (setGeneratingAllAudio true st) in
        let '(st, w) :=
          forLoop (audioRound project0 out) 0 (length (scenes out)) st w in
        (setGeneratingAllAudio false (setAudioLoadingIndex None st), w)
    end.

Definition imageRound (project0 : Project) (out : StoryOutput) (i : nat)
  : Handler :=
  fun st w =>
    let scene := array_get (scenes out) i in
    let st := setImageLoadingIndex (Some i) st in
    match scene with
    | None => (st, w)
    | Some scene =>
        match generateImage env (imagePrompt scene) (mediaSettings project0)
                (imageStyle project0) (apiKey project0)
                (activeChars project0 scene) w
        with
        | (Ok base64Img, w') => (setProject (imageMergeAll i base64Img) st, w')
        | (Err _, w') => (st, w')
        end
    end.

Definition handleGenerateAllImages (project0 : Project) : Handler :=
  fun st w =>
    match output project0 with
    | None => (st, w)
    | Some out =>
        let st := setError None (setGeneratingAllImages true st) in
        let '(st, w) :=
          forLoop (imageRound project0 out) 0 (length (scenes out)) st w in
        (setGeneratingAllImages false (setImageLoadingIndex None st), w)
    end.

End WithPlatform.

(** *** Notions used to state the properties of the handlers *)

(** The scenes of a project; none before a script exists. *)
Definition scenes_of (p : Project) : list (option Scene) :=
  match output p with Some o => scenes o | None => [] end.

(** A scene matches a stored character, in the words of the
    specification: some entry of the scene's list of names contains the
    character's name, or is contained in it, both taken in lower case. *)
Definition matched (env : Platform) (scene : Scene) (c : Character) : Prop :=
  exists names n, characterNames scene = Some names /\ n ∈ names
    /\ (occurs_in (toLowerCase env (name c)) (toLowerCase env n)
        \/ occurs_in (toLowerCase env n) (toLowerCase env (name c))).

(** The character [c] with another visual signature. *)
Definition with_description (c : Character) (d : string) : Character :=
  {| char_id := char_id c; name := name c; role := role c;
     description := d; image := image c |}.

(** The jobs of a batch run one after the other, in the order of the
    scenes: each starts in the world that the one before left.  A hole
    has no job ([None]); the others settle as the service decides. *)
Fixpoint jobRuns (job : Scene -> M string) (scs : list (option Scene))
    (w : World) : list (option (Result string)) * World :=
  match scs with
  | [] => ([], w)
  | None :: rest =>
      let '(rs, w') := jobRuns job rest w in (None :: rs, w')
  | Some scene :: rest =>
      let '(r, w1) := job scene w in
      let '(rs, w') := jobRuns job rest w1 in
      (Some r :: rs, w')
  end.

(** Each scene with the result of its job, if it has one, in its slot. *)
Definition apply_result (set : Scene -> string -> Scene)
    (sc : option Scene) (r : option (Result string)) : option Scene :=
  match sc, r with
  | Some s, Some (Ok v) => Some (set s v)
  | _, _ => sc
  end.

Definition apply_results (set : Scene -> string -> Scene)
    (scs : list (option Scene)) (rs : list (option (Result string)))
  : list (option Scene) :=
  zip_with (apply_result set) scs rs.

(** The job of a scene in each of the two batches. *)
Definition audioJob (env : Platform) (project0 : Project) (scene : Scene)
  : M string :=
  generateSpeech env (narrative scene)
    (voiceType_str (voiceType (voiceConfig project0))) (apiKey project0).

Definition imageJob (env : Platform) (project0 : Project) (scene : Scene)
  : M string :=
  generateImage env (imagePrompt scene) (mediaSettings project0)
    (imageStyle project0) (apiKey project0) (activeChars env project0 scene).

(** Two scene objects with the same text fields. *)
Definition same_text (a b : Scene) : Prop :=
  sceneNumber a = sceneNumber b /\ narrative a = narrative b
  /\ imagePrompt a = imagePrompt b /\ motionPrompt a = motionPrompt b
  /\ characterNames a = characterNames b.

(** What it is for [final], the state and world in which a batch handler
    ends, to be the outcome of a batch over the scenes of [o], started in
    state [st0] and world [w] on project [p], [slot] being the media slot
    that the batch fills and [other] the one it does not:
    - the service saw exactly the jobs of the scenes, one after the other in
      ascending order;
    - the project is [p] with, in each scene whose job succeeded, the result
      in its slot, and nothing else changed: such a scene reads the result
      in [slot] and has its other slot and its text fields as before, and
      scenes whose job failed, or that had none, are as before;
    - after any number [k] of rounds the state already holds the results of
      the first [k] jobs, and the rest of the loop starts from that state. *)
Definition batch_outcome (job : Scene -> M string)
    (set : Scene -> string -> Scene) (slot other : Scene -> option string)
    (round : nat -> Handler)
    (p : Project) (o : StoryOutput) (st0 : AppState) (w : World)
    (final : AppState * World) : Prop :=
  let n := length (scenes o) in
  let rs := (jobRuns job (scenes o) w).1 in
  final.2 = (jobRuns job (scenes o) w).2
  /\ length rs = n
  /\ project final.1 = with_scenes p o (apply_results set (scenes o) rs)
  /\ (forall j s v,
        scenes o !! j = Some (Some s) -> rs !! j = Some (Some (Ok v)) ->
        exists s', scenes_of (project final.1) !! j = Some (Some s')
          /\ slot s' = Some v /\ other s' = other s /\ same_text s s')
  /\ (forall j,
        (forall v, rs !! j <> Some (Some (Ok v))) ->
        scenes_of (project final.1) !! j = scenes o !! j)
  /\ (forall k, (k <= n)%nat ->
        let after_k := forLoop round 0 k st0 w in
        let rs_k := jobRuns job (take k (scenes o)) w in
        after_k.2 = rs_k.2
        /\ project after_k.1
           = with_scenes p o
               (apply_results set (take k (scenes o)) rs_k.1
                ++ drop k (scenes o))
        /\ forLoop round 0 n st0 w
           = forLoop round k (n - k) after_k.1 after_k.2).

(** Two projects that differ at most in their scenes. *)
Definition same_but_scenes (p p' : Project) : Prop :=
  with_output p' None = with_output p None
  /\ out_title <$> output p' = out_title <$> output p
  /\ summary <$> output p' = summary <$> output p.

(** What a run of a single-scene handler on scene [i], from project [p] to
    project [p'], may change: the media slot [slot] of scene [i], which
    reads the result of [job] when it succeeds, and nothing else; [other]
    is the other media slot. *)
Definition single_scene_outcome (job : Scene -> M string)
    (slot other : Scene -> option string)
    (i : nat) (w : World) (p p' : Project) : Prop :=
  same_but_scenes p p'
  /\ length (scenes_of p') = length (scenes_of p)
  /\ (forall j, j <> i -> scenes_of p' !! j = scenes_of p !! j)
  /\ (forall s, array_get (scenes_of p) i = Some s ->
        exists s', array_get (scenes_of p') i = Some s'
          /\ same_text s s' /\ other s' = other s
          /\ match job s w with
             | (Ok v, _) => slot s' = Some v
             | (Err _, _) => s' = s
             end)
  /\ (array_get (scenes_of p) i = None -> p' = p).

End App.
Export App.

(** ** A reference platform

    Stand-ins for the built-ins of the platform, used to run the model on
    concrete inputs: base64 with the standard alphabet for [atob] and
    [btoa], lower-casing of the ASCII letters for [toLowerCase], and a table
    of texts with the value each parses to for [JSON.parse]. *)

Module Reference.

Definition sextet_char (v : Z) : Ascii.ascii :=
  Ascii.ascii_of_nat (Z.to_nat
    (if decide (v < 26) then v + 65
     else if decide (v < 52) then v + 71
     else if decide (v < 62) then v - 4
     else if decide (v = 62) then 43 else 47)).

Definition pad : Ascii.ascii := Ascii.ascii_of_nat 61.

Fixpoint base64_encode (bs : list Z) : string :=
  match bs with
  | [] => ""
  | [a] =>
      String (sextet_char (a / 4)) (String (sextet_char (a mod 4 * 16))
        (String pad (String pad "")))
  | [a; b] =>
      String (sextet_char (a / 4))
        (String (sextet_char (a mod 4 * 16 + b / 16))
           (String (sextet_char (b mod 16 * 4)) (String pad "")))
  | a :: b :: c :: rest =>
      String (sextet_char (a / 4))
        (String (sextet_char (a mod 4 * 16 + b / 16))
           (String (sextet_char (b mod 16 * 4 + c / 64))
              (String (sextet_char (c mod 64)) (base64_encode rest))))
  end.

Definition char_sextet (c : Ascii.ascii) : option Z :=
  let n := Z.of_nat (Ascii.nat_of_ascii c) in
  if decide (65 <= n <= 90) then Some (n - 65)
  else if decide (97 <= n <= 122) then Some (n - 71)
  else if decide (48 <= n <= 57) then Some (n + 4)
  else if decide (n = 43) then Some 62
  else if decide (n = 47) then Some 63
  else None.

Definition is_space (c : Ascii.ascii) : bool :=
  let n := Ascii.nat_of_ascii c in
  (n =? 9)%nat || (n =? 10)%nat || (n =? 12)%nat || (n =? 13)%nat
  || (n =? 32)%nat.

Fixpoint chars (s : string) : list Ascii.ascii :=
  match s with EmptyString => [] | String c s' => c :: chars s' end.

(** Up to two padding characters are dropped from the end of a text whose
    length is a multiple of four. *)
Definition strip_padding (cs : list Ascii.ascii) : list Ascii.ascii :=
  if (length cs mod 4 =? 0)%nat
  then match reverse cs with
       | p1 :: p2 :: rest =>
           if Ascii.eqb p1 pad
           then if Ascii.eqb p2 pad then reverse rest else reverse (p2 :: rest)
           else cs
       | _ => cs
       end
  else cs.

Fixpoint decode_sextets (vs : list Z) : list Z :=
  match vs with
  | a :: b :: c :: d :: rest =>
      (a * 4 + b / 16) :: (b mod 16 * 16 + c / 4) :: (c mod 4 * 64 + d)
      :: decode_sextets rest
  | [a; b; c] => [a * 4 + b / 16; b mod 16 * 16 + c / 4]
  | [a; b] => [a * 4 + b / 16]
  | _ => []
  end.

Definition invalidCharacter : JsError :=
  Error "The string to be decoded is not correctly encoded.".

Definition base64_decode (s : string) : Result (list Z) :=
  let cs := strip_padding (List.filter (fun c => negb (is_space c)) (chars s)) in
  if (length cs mod 4 =? 1)%nat then Err invalidCharacter
  else match mapM char_sextet cs with
       | Some vs => Ok (decode_sextets vs)
       | None => Err invalidCharacter
       end.

Definition ascii_lower (c : Ascii.ascii) : Ascii.ascii :=
  let n := Ascii.nat_of_ascii c in
  if ((65 <=? n) && (n <=? 90))%nat then Ascii.ascii_of_nat (n + 32) else c.

Fixpoint lower (s : string) : string :=
  match s with
  | EmptyString => EmptyString
  | String c s' => String (ascii_lower c) (lower s')
  end.

(** [s.substring(from, to)] for a text of ASCII characters, each of
    which is one code unit. *)
Definition ascii_substring (s : string) (from to : nat) : string :=
  String.substring from (to - from) s.

Definition syntaxError : JsError := Error "Unexpected token in JSON".

Fixpoint parse_from (table : list (string * StoryOutput)) (s : string)
  : Result StoryOutput :=
  match table with
  | [] => Err syntaxError
  | (t, v) :: rest => if String.eqb s t then Ok v else parse_from rest s
  end.

(** The platform with a given service, process-level key and parse table. *)
Definition platform (svc : nat -> Request -> Result Response)
    (key : option string) (table : list (string * StoryOutput)) : Platform :=
  {| service := svc; env_API_KEY := key; atob := base64_decode;
     btoa := base64_encode; JSON_parse := parse_from table;
     toLowerCase := lower |}.

(** A response that carries one image, and a service that fails the first
    call with a billing error, the second as overloaded, and then answers. *)
Definition imageResponse : Response :=
  {| text := None;
     candidates := Some [ {| content := Some {| parts := Some
       [ {| inlineData := Some {| mimeType := Some "image/png";
                                  data := Some "AAAA" |} |} ] |} |} ] |}.

Definition service_400_503_ok (k : nat) (req : Request) : Result Response :=
  match k with
  | O => Err {| status := Some 400; message := Some "billing not enabled" |}
  | S O => Err {| status := Some 503; message := None |}
  | _ => Ok imageResponse
  end.

Definition settings0 : MediaSettings :=
  {| aspectRatio := r16_9; imageModel := gemini_3_pro_image_preview |}.
Definition style0 : ImageStyleConfig :=
  {| artStyle := "Cinematic Realistic"; cameraAngle := "Wide Shot";
     lighting := "Cinematic Volumetric"; colorGrade := "Vibrant";
     characterLook := "Detailed Realistic"; clothingStyle := "Modern Casual" |}.

(** The scenario of the specification: Lina and Dr. Voss, and a scene that
    lists the surname only. *)
Definition lina : Character :=
  {| char_id := "char_1"; name := "Lina"; role := protagonist;
     description := "A girl of twelve with short black hair and a red raincoat";
     image := None |}.
Definition dr_voss : Character :=
  {| char_id := "char_2"; name := "Dr. Voss"; role := antagonist;
     description := "A tall man in his sixties, grey beard, round glasses, long white coat";
     image := None |}.
Definition voice0 : VoiceConfig :=
  {| voiceType := man_soft; tone := calm; accent := neutral;
     voice_language := en |}.
Definition config0 : StoryConfig :=
  {| language := en; category := "mystery"; title := "";
     premise := "A girl finds a hidden laboratory"; setting := "A harbour town";
     pacing := balanced; plotTwist := mild; characters := [lina; dr_voss];
     sceneCount := 3; characterCount := 2 |}.
Definition scene_voss : Scene :=
  {| sceneNumber := Some 2; narrative := Some "Voss locks the door.";
     imagePrompt := Some "Voss locks the laboratory door";
     motionPrompt := Some "Slow push in";
     characterNames := Some ["Voss"]; audioData := None; imageUrl := None |}.
Definition project0 : Project :=
  {| project_id := "1"; project_title := None; lastSaved := None;
     createdAt := 0; config := config0;
     output := Some {| out_title := "The Laboratory"; summary := "";
                       scenes := [Some scene_voss] |};
     mediaSettings := settings0; imageStyle := style0; voiceConfig := voice0;
     apiKey := None |}.

(** A scene of Dr. Voss alone, whose image prompt quotes the visual
    signature of Lina; and twins who share one visual signature, in a scene
    that lists one of them. *)
Definition scene_portrait : Scene :=
  {| sceneNumber := Some 3; narrative := Some "Voss studies the photograph.";
     imagePrompt := Some "Voss holds a photograph: A girl of twelve with short black hair and a red raincoat";
     motionPrompt := Some "Slow push in";
     characterNames := Some ["Voss"]; audioData := None; imageUrl := None |}.
Definition project_portrait : Project :=
  with_output project0
    (Some {| out_title := "The Laboratory"; summary := "";
             scenes := [Some scene_voss; Some scene_portrait] |}).
Definition tom : Character :=
  {| char_id := "char_1"; name := "Tom"; role := protagonist;
     description := "A boy of ten with red hair and a green hoodie";
     image := None |}.
Definition tim : Character :=
  {| char_id := "char_2"; name := "Tim"; role := supporting;
     description := "A boy of ten with red hair and a green hoodie";
     image := None |}.
Definition scene_tom : Scene :=
  {| sceneNumber := Some 1; narrative := Some "Tom waits at the gate.";
     imagePrompt := Some "Tom waits at the school gate";
     motionPrompt := Some "Static camera";
     characterNames := Some ["Tom"]; audioData := None; imageUrl := None |}.
Definition project_twins : Project :=
  with_output (with_characters project0 [tom; tim])
    (Some {| out_title := "The Gate"; summary := "";
             scenes := [Some scene_tom] |}).

(** A response text with a single scene, numbered 7 and otherwise empty,
    and the value it parses to. *)
Definition quoted (s : string) : string := dq +:+ s +:+ dq.
Definition short_story_text : string :=
  "{" +:+ quoted "title" +:+ ":" +:+ quoted "The Laboratory" +:+ ","
  +:+ quoted "summary" +:+ ":" +:+ quoted "" +:+ ","
  +:+ quoted "scenes" +:+ ":[{" +:+ quoted "sceneNumber" +:+ ":7}]}".
Definition short_story : StoryOutput :=
  {| out_title := "The Laboratory"; summary := "";
     scenes := [Some {| sceneNumber := Some 7; narrative := None;
                        imagePrompt := None; motionPrompt := None;
                        characterNames := None; audioData := None;
                        imageUrl := None |}] |}.
Definition service_short_story (k : nat) (req : Request) : Result Response :=
  Ok {| text := Some short_story_text; candidates := None |}.

(** A response text with another story, of one complete scene, and the
    value it parses to. *)
Definition harbour_text : string :=
  "{" +:+ quoted "title" +:+ ":" +:+ quoted "The Harbour" +:+ ","
  +:+ quoted "summary" +:+ ":" +:+ quoted "" +:+ ","
  +:+ quoted "scenes" +:+ ":[{" +:+ quoted "sceneNumber" +:+ ":1,"
  +:+ quoted "narrative" +:+ ":" +:+ quoted "Lina walks to the harbour." +:+ ","
  +:+ quoted "characterNames" +:+ ":[" +:+ quoted "Lina" +:+ "],"
  +:+ quoted "imagePrompt" +:+ ":" +:+ quoted "Lina on the pier at dawn" +:+ ","
  +:+ quoted "motionPrompt" +:+ ":" +:+ quoted "Static camera" +:+ "}]}".
Definition scene_harbour : Scene :=
  {| sceneNumber := Some 1; narrative := Some "Lina walks to the harbour.";
     imagePrompt := Some "Lina on the pier at dawn";
     motionPrompt := Some "Static camera";
     characterNames := Some ["Lina"]; audioData := None; imageUrl := None |}.
Definition harbour_story : StoryOutput :=
  {| out_title := "The Harbour"; summary := "";
     scenes := [Some scene_harbour] |}.
Definition service_harbour (k : nat) (req : Request) : Result Response :=
  Ok {| text := Some harbour_text; candidates := None |}.

(** A second project, as the archive holds it, and [project0] with a
    script that has no title. *)
Definition project_harbour : Project :=
  {| project_id := "2"; project_title := Some "The Harbour";
     lastSaved := Some 1600000000000; createdAt := 0; config := config0;
     output := Some harbour_story;
     mediaSettings := settings0; imageStyle := style0; voiceConfig := voice0;
     apiKey := None |}.
Definition untitled_story : StoryOutput :=
  {| out_title := ""; summary := ""; scenes := [Some scene_voss] |}.

(** The state of the application once [project0] is loaded. *)
Definition initialState : AppState :=
  {| project := project0; lang := en; loading := false;
     audioLoadingIndex := None; imageLoadingIndex := None;
     generatingAllAudio := false; generatingAllImages := false;
     error := None |}.

(** A service whose audio payload decodes to three bytes, and one whose
    payload decodes to four. *)
Definition audioResponse (base64 : string) : Response :=
  {| text := None;
     candidates := Some [ {| content := Some {| parts := Some
       [ {| inlineData := Some {| mimeType := Some "audio/L16;rate=24000";
                                  data := Some base64 |} |} ] |} |} ] |}.
Definition service_three_bytes (k : nat) (req : Request) : Result Response :=
  Ok (audioResponse "AQID").
Definition service_four_bytes (k : nat) (req : Request) : Result Response :=
  Ok (audioResponse "AQIDBA==").

(** A story of three scenes, and a service whose second answer carries a
    payload of odd length, so that the audio job of the second scene
    fails. *)
Definition scene_n (n : Z) (text : string) : Scene :=
  {| sceneNumber := Some n; narrative := Some text;
     imagePrompt := Some text; motionPrompt := Some "Static camera";
     characterNames := Some ["Lina"]; audioData := None; imageUrl := None |}.
Definition story_three : StoryOutput :=
  {| out_title := "The Laboratory"; summary := "";
     scenes := [Some (scene_n 1 "Lina finds a door.");
                Some (scene_n 2 "Lina opens the door.");
                Some (scene_n 3 "Lina steps inside.")] |}.
Definition state_three : AppState :=
  {| project := with_output project0 (Some story_three); lang := en;
     loading := false; audioLoadingIndex := None; imageLoadingIndex := None;
     generatingAllAudio := false; generatingAllImages := false;
     error := None |}.
Definition service_second_odd (k : nat) (req : Request) : Result Response :=
  match k with
  | S O => Ok (audioResponse "AQID")
  | _ => Ok (audioResponse "AQIDBA==")
  end.

(** An image and an audio payload, as a handler would store them. *)
Definition uploaded_image : string := "data:image/png;base64,AAAA".
Definition spoken_audio : string := "UklGRg==".

End Reference.
Export Reference.

(** ** Notions used to state further properties of the services *)

Module ServiceNotions.

(** The error that [getAI] throws when no credential is available. *)
Definition missingKey : JsError :=
  Error "Missing API Key. Please add one in Settings.".

(** The first [k] waits of a retry that starts at [delay]. *)
Definition backoff (delay : Z) (k : nat) : list Z :=
  map (fun j => delay * 2 ^ Z.of_nat j) (seq 0 k).

(** An event of a service function whose client was built with key [k]:
    a call that carries the key, or a wait. *)
Definition carries_key (k : string) (e : Event) : Prop :=
  match e with
  | EvCall req => req_apiKey req = k
  | EvSleep _ => True
  | EvInvoke => False
  end.

(** The time waited in a trace, in milliseconds. *)
Definition total_wait (evs : list Event) : Z := foldr Z.add 0 (sleeps evs).

(** The effort of one run of a service function with the default retry
    settings: the waits are the first of 1000, 2000 and 4000 ms, and there
    are at most [perAttempt] calls before the first wait and after each. *)
Definition bounded_effort (perAttempt : nat) (evs : list Event) : Prop :=
  sleeps evs `prefix_of` [1000; 2000; 4000]
  /\ (calls evs <= perAttempt * S (length (sleeps evs)))%nat.

(** [w'] extends [w] by events with at most [c] service calls and waits of
    at most [t] milliseconds in all. *)
Definition effort_within (c : nat) (t : Z) (w w' : World) : Prop :=
  exists evs, w' = w ++ evs /\ (calls evs <= c)%nat /\ total_wait evs <= t.

(** The data URL that [runGeneration] builds from a part's inline data. *)
Definition dataUrl (d : InlineData) : string :=
  "data:" +:+ str_of_opt (mimeType d) +:+ ";base64," +:+ str_of_opt (data d).

(** A candidate that the scan of [runGeneration] passes over: it has
    parts, none of which carries inline data. *)
Definition no_image (cand : Candidate) : Prop :=
  exists c ps, content cand = Some c /\ parts c = Some ps
    /\ Forall (fun p => inlineData p = None) ps.

(** [d] is the inline data of the first part that carries some, in the
    order of the candidates and of their parts. *)
Definition first_image (cands : list Candidate) (d : InlineData) : Prop :=
  exists c1 cand c2 c l1 part l2,
    cands = c1 ++ cand :: c2 /\ Forall no_image c1
    /\ content cand = Some c /\ parts c = Some (l1 ++ part :: l2)
    /\ Forall (fun p => inlineData p = None) l1
    /\ inlineData part = Some d.

(** [x] occurs in [s], and [y] occurs after it. *)
Definition occurs_before (x y s : string) : Prop :=
  exists a b c, s = a +:+ x +:+ b +:+ y +:+ c.

(** A string without the character [_]. *)
Definition no_underscore (s : string) : Prop :=
  forall pre post, s <> pre +:+ "_" +:+ post.

End ServiceNotions.
Export ServiceNotions.

(** ** The workspace handlers ([App.tsx]): start over and settings

    The tab and the dialogs that are open are state that no handler
    modelled here reads; these cells and their setters are left out.  The
    answer of [window.confirm] and the readings of [Date.now()] are
    parameters. *)

Module Workspace.

(** The factory functions of the initial values. *)
Definition getInitialConfig : StoryConfig :=
  {| language := ar; category := ""; title := ""; premise := "";
     setting := ""; pacing := balanced; plotTwist := mild; characters := [];
     sceneCount := 3; characterCount := 2 |}.

Definition getInitialVoice : VoiceConfig :=
  {| voiceType := man_soft; tone := calm; accent := neutral;
     voice_language := ar |}.

Definition getInitialImageStyle : ImageStyleConfig :=
  {| artStyle := "Cinematic Realistic"; cameraAngle := "Wide Shot";
     lighting := "Cinematic Volumetric"; colorGrade := "Vibrant";
     characterLook := "Detailed Realistic"; clothingStyle := "Modern Casual" |}.

Definition getInitialMediaSettings : MediaSettings :=
  {| aspectRatio := r16_9; imageModel := gemini_3_pro_image_preview |}.

Definition setLang (l : Language) (st : AppState) : AppState :=
  {| project := project st; lang := l; loading := loading st;
     audioLoadingIndex := audioLoadingIndex st;
     imageLoadingIndex := imageLoadingIndex st;
     generatingAllAudio := generatingAllAudio st;
     generatingAllImages := generatingAllImages st; error := error st |}.

(** [goHome]. [confirm] is the answer of [window.confirm], asked only when
    the handler's project has a script; [now_id] and [now_created] are the
    two readings of [Date.now()]. *)
Definition goHome (confirm : bool) (now_id now_created : Z)
    (project0 : Project) (st : AppState) : AppState :=
  if bool_decide (is_Some (output project0)) && negb confirm then st
  else
    let st := setLoading false st in
    let st := setAudioLoadingIndex None st in
    let st := setImageLoadingIndex None st in
    let st := setError None st in
    setProject (fun prev =>
      {| project_id := pretty now_id; project_title := None;
         lastSaved := None; createdAt := now_created;
         config := getInitialConfig; output := None;
         mediaSettings := getInitialMediaSettings;
         imageStyle := getInitialImageStyle;
         voiceConfig := getInitialVoice; apiKey := apiKey prev |}) st.

(** A [Partial<StoryConfig>] and a [Partial<VoiceConfig>]: the properties
    an update carries; [None] is a property the object does not have. *)
Record PartialStoryConfig : Type := mkPartialStoryConfig {
  upd_language : option Language;
  upd_category : option string;
  upd_title : option string;
  upd_premise : option string;
  upd_setting : option string;
  upd_pacing : option Pacing;
  upd_plotTwist : option PlotTwist;
  upd_characters : option (list Character);
  upd_sceneCount : option Z;
  upd_characterCount : option Z
}.

Record PartialVoiceConfig : Type := mkPartialVoiceConfig {
  upd_voiceType : option VoiceType;
  upd_tone : option Tone;
  upd_accent : option Accent;
  upd_voice_language : option Language
}.

(** [{ ...c, ...updates }] *)
Definition spreadConfig (c : StoryConfig) (updates : PartialStoryConfig)
  : StoryConfig :=
  {| language := default (language c) (upd_language updates);
     category := default (category c) (upd_category updates);
     title := default (title c) (upd_title updates);
     premise := default (premise c) (upd_premise updates);
     setting := default (setting c) (upd_setting updates);
     pacing := default (pacing c) (upd_pacing updates);
     plotTwist := default (plotTwist c) (upd_plotTwist updates);
     characters := default (characters c) (upd_characters updates);
     sceneCount := default (sceneCount c) (upd_sceneCount updates);
     characterCount := default (characterCount c) (upd_characterCount updates) |}.

Definition spreadVoice (v : VoiceConfig) (updates : PartialVoiceConfig)
  : VoiceConfig :=
  {| voiceType := default (voiceType v) (upd_voiceType updates);
     tone := default (tone v) (upd_tone updates);
     accent := default (accent v) (upd_accent updates);
     voice_language := default (voice_language v) (upd_voice_language updates) |}.

(** [{ ...p, config: c }] and [{ ...p, voiceConfig: v }] *)
Definition with_config (p : Project) (c : StoryConfig) : Project :=
  {| project_id := project_id p; project_title := project_title p;
     lastSaved := lastSaved p; createdAt := createdAt p; config := c;
     output := output p; mediaSettings := mediaSettings p;
     imageStyle := imageStyle p; voiceConfig := voiceConfig p;
     apiKey := apiKey p |}.

Definition with_voiceConfig (p : Project) (v : VoiceConfig) : Project :=
  {| project_id := project_id p; project_title := project_title p;
     lastSaved := lastSaved p; createdAt := createdAt p; config := config p;
     output := output p; mediaSettings := mediaSettings p;
     imageStyle := imageStyle p; voiceConfig := v; apiKey := apiKey p |}.

(** [handleConfigUpdate(updates)] *)
Definition handleConfigUpdate (updates : PartialStoryConfig) (st : AppState)
  : AppState :=
  setProject (fun p => with_config p (spreadConfig (config p) updates)) st.

(** The object [{ language: l }]. *)
Definition languageUpdate (l : Language) : PartialStoryConfig :=
  {| upd_language := Some l; upd_category := None; upd_title := None;
     upd_premise := None; upd_setting := None; upd_pacing := None;
     upd_plotTwist := None; upd_characters := None; upd_sceneCount := None;
     upd_characterCount := None |}.

(** [handleVoiceUpdate(updates)], with the [project] of the render the
    handler was created in.  A language, when the update has one, is a
    non-empty string, hence truthy. *)
Definition handleVoiceUpdate (project0 : Project)
    (updates : PartialVoiceConfig) (st : AppState) : AppState :=
  let newConfig := spreadVoice (voiceConfig project0) updates in
  let st := match upd_voice_language updates with
            | Some l => setLang l (handleConfigUpdate (languageUpdate l) st)
            | None => st
            end in
  setProject (fun p => with_voiceConfig p newConfig) st.

(** The keys of [TRANSLATIONS] ([types.ts]): the table has an entry for
    ['ar'] and for ['en'], and none for the other members of [Language]. *)
Definition translated (l : Language) : bool :=
  match l with ar | en => true | fr | es | de => false end.

(** The render of the component on a state begins with
    [const t = TRANSLATIONS[lang]], and its header shows [t.appTitle]
    whatever the state is.  Without an entry for [lang] in the table, [t]
    is [undefined] and the render throws a TypeError, which nothing in the
    component catches.  This is whether the render of [st] is in that
    case. *)
Definition render_lacks_translations (st : AppState) : bool :=
  negb (translated (lang st)).

(** The cells of the state that a round of a batch leaves alone, whatever
    its job does. *)
Definition same_flags (a b : AppState) : Prop :=
  lang b = lang a /\ loading b = loading a /\ error b = error a
  /\ generatingAllAudio b = generatingAllAudio a
  /\ generatingAllImages b = generatingAllImages a.

End Workspace.
Export Workspace.

(** ** The archive ([App.tsx])

    The notice that [saveToArchive] shows with [alert] has no effect on the
    state and is left out.  [String.prototype.substring] counts UTF-16 code
    units; how a text is laid out in a [string] is not fixed by the model,
    so the built-in is a parameter, as [toLowerCase] is. *)

Module Archive.

(** The archive: the [savedProjects] state of the component, and the item
    that [localStorage] holds under [ARCHIVE_KEY] ([None] before the first
    write), as the list it was serialised from. *)
Record ArchiveState : Type := mkArchiveState {
  savedProjects : list Project;
  stored : option (list Project)
}.

(** [{ ...project, title: t, lastSaved: now }] *)
Definition with_saved (p : Project) (t : string) (now : Z) : Project :=
  {| project_id := project_id p; project_title := Some t;
     lastSaved := Some now; createdAt := createdAt p; config := config p;
     output := output p; mediaSettings := mediaSettings p;
     imageStyle := imageStyle p; voiceConfig := voiceConfig p;
     apiKey := apiKey p |}.

Section WithPlatform.

(** [s.substring(from, to)] *)
Variable substring : string -> nat -> nat -> string.

(** [project.output.title || project.config.premise.substring(0, 30)] *)
Definition archiveTitle (p : Project) (o : StoryOutput) : string :=
  if truthy (out_title o) then out_title o
  else substring (premise (config p)) 0 30.

(** [savedProjects.findIndex(p => p.id === id)]; [None] is -1. *)
Definition findIndex (id : string) (l : list Project) : option nat :=
  fst <$> list_find (fun p => project_id p = id) l.

(** [saveToArchive], with the values [project] and [savedProjects] of the
    render the handler was created in; [now] is the reading of
    [Date.now()]. *)
Definition saveToArchive (now : Z) (project0 : Project)
    (savedProjects0 : list Project) (st : AppState) (a : ArchiveState)
  : AppState * ArchiveState :=
  match output project0 with
  | None =>
      (setError (Some "Cannot save an empty project. Generate a story first.") st,
       a)
  | Some o =>
      let projectToSave := with_saved project0 (archiveTitle project0 o) now in
      let newProjects :=
        match findIndex (project_id project0) savedProjects0 with
        | Some existingIndex => <[existingIndex := projectToSave]> savedProjects0
        | None => projectToSave :: savedProjects0
        end in
      let newProjects :=
        if (50 <? length newProjects)%nat then take 50 newProjects
        else newProjects in
      (st, {| savedProjects := newProjects; stored := Some newProjects |})
  end.

End WithPlatform.

(** [deleteFromArchive(id, e)]; [confirm] is the answer of
    [window.confirm].  Stopping the propagation of the click event has no
    effect on the state. *)
Definition deleteFromArchive (confirm : bool) (id : string)
    (savedProjects0 : list Project) (a : ArchiveState) : ArchiveState :=
  if confirm then
    let newProjects := filter (fun p => project_id p <> id) savedProjects0 in
    {| savedProjects := newProjects; stored := Some newProjects |}
  else a.

(** The identifiers of the archived projects, in order. *)
Definition archive_ids (l : list Project) : list string := map project_id l.

End Archive.
Export Archive.

(** ** The suggestion services ([geminiService.ts]) *)

Module Suggestions.

Section WithPlatform.

Variable env : Platform.

(** [JSON.parse] at the two other types the services use it at: the
    suggested settings, and the [characters] property of the parsed object
    ([None] when the object has no such property). *)
Variable parseIdeas : string -> Result PartialStoryConfig.
Variable parseCharacters : string -> Result (option (list Character)).

(** The reading of [Date.now()] in the callback for the element at each
    index. *)
Variable now : nat -> Z.

(** **** [generateStoryIdeas] *)

Definition ideasPrompt (category lang : string) : string :=
  "Generate creative story details for a '" +:+ category +:+ "' story. Language: " +:+ lang +:+ ". Make the setting vivid.".

Definition ideasRequest (ai category lang : string) : Request :=
  {| req_apiKey := ai; req_model := "gemini-3-flash-preview";
     req_contents := Some (ideasPrompt category lang);
     req_systemInstruction := None; req_voiceName := None;
     req_aspectRatio := None; req_imageSize := None |}.

Definition ideasAttempt (category lang : string) (apiKey : option string)
  : M PartialStoryConfig :=
  ai <- lift (getAI env apiKey) ;;
  response <- generateContent env (ideasRequest ai category lang) ;;
  match text response with
  | Some t =>
      if truthy t then lift (parseIdeas t)
      else throw (Error "No ideas generated.")
  | None => throw (Error "No ideas generated.")
  end.

Definition generateStoryIdeas (category lang : string)
    (apiKey : option string) : M PartialStoryConfig :=
  callWithRetry (ideasAttempt category lang apiKey)
                default_retries default_delay.

(** **** [generateCharacterProfiles] *)

Definition languageName (lang : string) : string :=
  if String.eqb lang "ar" then "Arabic" else "English".

Definition charactersPrompt (premise setting : string) (count : Z)
    (lang : string) : string :=
  "Create " +:+ number_str count +:+ " unique characters for a story with Premise: " +:+ dq +:+ premise +:+ dq +:+ " and Setting: " +:+ dq +:+ setting +:+ dq +:+ ".
        
        REQUIREMENTS:
        - Create 1 Protagonist, 1 Antagonist, and others as supporting.
        - For each character, provide a highly detailed 'description' that can be used as a stable image generation prompt (include specific details on hair, eyes, facial features, and signature clothing).
        
        LANGUAGE INSTRUCTION:
        - The Output MUST be in " +:+ languageName lang +:+ ".
        - Character Names MUST be in " +:+ languageName lang +:+ ".
        - Descriptions MUST be in " +:+ languageName lang +:+ ".".

Definition charactersRequest (ai premise setting : string) (count : Z)
    (lang : string) : Request :=
  {| req_apiKey := ai; req_model := "gemini-3-flash-preview";
     req_contents := Some (charactersPrompt premise setting count lang);
     req_systemInstruction := None; req_voiceName := None;
     req_aspectRatio := None; req_imageSize := None |}.

(** The object the callback of [data.characters.map] builds. *)
Definition newCharacter (index : nat) (c : Character) : Character :=
  {| char_id := "char_" +:+ number_str (now index) +:+ "_"
                +:+ number_str (Z.of_nat index);
     name := name c; role := role c; description := description c;
     image := None |}.

Definition charactersAttempt (premise setting : string) (count : Z)
    (lang : string) (apiKey : option string) : M (list Character) :=
  ai <- lift (getAI env apiKey) ;;
  response <-
    generateContent env (charactersRequest ai premise setting count lang) ;;
  match text response with
  | Some t =>
      if truthy t then
        data <- lift (parseCharacters t) ;;
        match data with
        | Some characters => ret (imap newCharacter characters)
        | None =>
            throw (TypeError
                     "Cannot read properties of undefined (reading 'map')")
        end
      else throw (Error "No characters generated.")
  | None => throw (Error "No characters generated.")
  end.

Definition generateCharacterProfiles (premise setting : string) (count : Z)
    (lang : string) (apiKey : option string) : M (list Character) :=
  callWithRetry (charactersAttempt premise setting count lang apiKey)
                default_retries default_delay.

End WithPlatform.

End Suggestions.
Export Suggestions.

(** ** Further inputs on which the model is run *)

Module Fixtures.

(** A service whose responses carry neither text nor candidates. *)
Definition service_empty (k : nat) (req : Request) : Result Response :=
  Ok {| text := None; candidates := None |}.

(** A scene that lists both characters of [config0]. *)
Definition scene_both : Scene :=
  {| sceneNumber := Some 3; narrative := Some "Lina faces Voss.";
     imagePrompt := Some "Lina faces Voss in the laboratory";
     motionPrompt := Some "Static camera";
     characterNames := Some ["Lina"; "Voss"]; audioData := None;
     imageUrl := None |}.

(** A service that answers with a list of two characters, the value the
    text parses to, and a clock that stands still. *)
Definition characters_text : string := "{characters}".
Definition service_characters (k : nat) (req : Request) : Result Response :=
  Ok {| text := Some characters_text; candidates := None |}.
Definition parse_characters (t : string)
  : Result (option (list Character)) :=
  if String.eqb t characters_text then Ok (Some [lina; dr_voss])
  else Err syntaxError.
Definition parse_no_ideas (t : string) : Result PartialStoryConfig :=
  Err syntaxError.
Definition clock_still (index : nat) : Z := 1700000000000.

End Fixtures.
Export Fixtures.

(** * Properties *)

(** ** Strings *)

Section StringFacts.

Lemma app_cons_s x (a b : string) : String x a +:+ b = String x (a +:+ b).
Proof. reflexivity. Qed.

Lemma app_nil_l_s (a : string) : "" +:+ a = a.
Proof. reflexivity. Qed.

Lemma app_assoc_s (a b c : string) : (a +:+ b) +:+ c = a +:+ b +:+ c.
Proof. induction a as [|x a IH]; [done|]. by rewrite !app_cons_s, IH. Qed.

Lemma app_nil_r_s (a : string) : a +:+ "" = a.
Proof. induction a as [|x a IH]; [done|]. by rewrite app_cons_s, IH. Qed.

Lemma occurs_in_refl s : occurs_in s s.
Proof. exists "", "". by rewrite app_nil_l_s, app_nil_r_s. Qed.

Lemma occurs_in_app_l sub a b : occurs_in sub a -> occurs_in sub (a +:+ b).
Proof.
  intros (pre & post & ->). exists pre, (post +:+ b).
  by rewrite !app_assoc_s.
Qed.

Lemma occurs_in_app_r sub a b : occurs_in sub b -> occurs_in sub (a +:+ b).
Proof.
  intros (pre & post & ->). exists (a +:+ pre), post.
  by rewrite !app_assoc_s.
Qed.

Lemma occurs_in_trans a b c : occurs_in a b -> occurs_in b c -> occurs_in a c.
Proof.
  intros (p1 & q1 & ->) (p2 & q2 & ->). exists (p2 +:+ p1), (q1 +:+ q2).
  by rewrite !app_assoc_s.
Qed.

Lemma occurs_in_join sep x l : x ∈ l -> occurs_in x (join sep l).
Proof.
  induction l as [|y l IH]; intros Hin; [by apply elem_of_nil in Hin|].
  apply elem_of_cons in Hin as [->|Hin].
  - destruct l; [apply occurs_in_refl|].
    cbn [join]. apply occurs_in_app_l, occurs_in_refl.
  - destruct l as [|z l]; [by apply elem_of_nil in Hin|].
    cbn [join]. by apply occurs_in_app_r, occurs_in_app_r, IH.
Qed.

(** [String.prefix] and [includes] decide what their names say. *)
Lemma prefix_spec sub s :
  String.prefix sub s = true <-> exists post, s = sub +:+ post.
Proof.
  revert s. induction sub as [|x sub IH]; intros s.
  - split; [intros _; by exists s|]. intros _. by destruct s.
  - destruct s as [|y s]; cbn [String.prefix].
    { split; [done|by intros [? ?]]. }
    destruct (Ascii.ascii_dec x y) as [->|Hne].
    + rewrite IH. split; intros [post Heq]; exists post.
      * by rewrite app_cons_s, <- Heq.
      * rewrite app_cons_s in Heq. congruence.
    + split; [done|]. intros [post Heq]. rewrite app_cons_s in Heq. congruence.
Qed.

Lemma includes_spec s sub : includes s sub = true <-> occurs_in sub s.
Proof.
  induction s as [|y s IH]; cbn [includes].
  - destruct (String.prefix sub "") eqn:Hp.
    + split; [intros _|done]. apply prefix_spec in Hp as [post ->].
      exists "", post. done.
    + split; [done|]. intros (pre & post & Heq).
      destruct pre; [|done]. cbn in Heq.
      assert (String.prefix sub "" = true) by (apply prefix_spec; eauto).
      congruence.
  - destruct (String.prefix sub (String y s)) eqn:Hp.
    + split; [intros _|done]. apply prefix_spec in Hp as [post ->].
      by exists "", post.
    + rewrite IH. split.
      * intros (pre & post & ->). by exists (String y pre), post.
      * intros (pre & post & Heq). destruct pre as [|x pre].
        -- cbn in Heq.
           assert (String.prefix sub (String y s) = true)
             by (apply prefix_spec; eauto).
           congruence.
        -- cbn in Heq. injection Heq as -> ->. by exists pre, post.
Qed.

End StringFacts.


(** ** RetryPolicy *)

Section RetryFacts.


Context {T : Type}.


Lemma calls_app (w1 w2 : World) :
  calls (w1 ++ w2) = (calls w1 + calls w2)%nat.
Proof. unfold calls. by rewrite filter_app, length_app. Qed.

Lemma callWithRetry_unfold (fn : M T) retries delay w :
  callWithRetry fn retries delay w =
  match fn w with
  | (Ok v, w') => (Ok v, w')
  | (Err error, w') =>
      match retries with
      | O => (Err error, w')
      | S retries' =>
          if isRetryable error
          then callWithRetry fn retries' (delay * 2) (w' ++ [EvSleep delay])
          else (Err error, w')
      end
  end.
Proof. destruct retries; reflexivity. Qed.










End RetryFacts.


Section RetryLast.
Context {T : Type}.

(** The wrapper settles as the last run of the operation did. *)
Lemma callWithRetry_last (fn : M T) retries : forall delay w res w',
  callWithRetry fn retries delay w = (res, w') ->
  exists w0, fn w0 = (res, w').
Proof.
  induction retries as [|r IH]; intros delay w res w';
    rewrite callWithRetry_unfold; destruct (fn w) as [[v|e] w1] eqn:Hfn;
    try (intros [= <- <-]; by exists w).
  destruct (isRetryable e); [apply IH|intros [= <- <-]; by exists w].
Qed.

(** A run that succeeds or fails permanently at once is not repeated. *)
Lemma callWithRetry_first (fn : M T) retries delay w res w' :
  fn w = (res, w') ->
  isOk res = true \/ permanent res ->
  callWithRetry fn retries delay w = (res, w').
Proof.
  intros Hfn Hstop. rewrite callWithRetry_unfold, Hfn.
  destruct res as [v|e]; [done|]. destruct Hstop as [?|Hperm]; [done|].
  cbn in Hperm. rewrite Hperm. by destruct retries.
Qed.

End RetryLast.

(** ** AudioContainerCodec *)

Section WavFacts.

Lemma le32_value v :
  0 <= v < 2 ^ 32 ->
  byte_at v 0 + 256 * byte_at v 1 + 65536 * byte_at v 2 + 16777216 * byte_at v 3 = v.
Proof.
  intros Hv. unfold byte_at.
  change (256 ^ Z.of_nat 0) with 1. change (256 ^ Z.of_nat 1) with 256.
  change (256 ^ Z.of_nat 2) with 65536. change (256 ^ Z.of_nat 3) with 16777216.
  change (2 ^ 32) with 4294967296 in Hv.
  Z.div_mod_to_equations. lia.
Qed.

Lemma le16_value v :
  0 <= v < 2 ^ 16 -> byte_at v 0 + 256 * byte_at v 1 = v.
Proof.
  intros Hv. unfold byte_at.
  change (256 ^ Z.of_nat 0) with 1. change (256 ^ Z.of_nat 1) with 256.
  change (2 ^ 16) with 65536 in Hv.
  Z.div_mod_to_equations. lia.
Qed.

Lemma addWavHeader_whole pcmData sampleRate :
  whole_buffer pcmData ->
  addWavHeader pcmData sampleRate
  = Ok (wavHeader sampleRate (length16 pcmData * 2) ++ buffer pcmData).
Proof.
  destruct pcmData as [buf off n]. intros [Hoff Hlen]. cbn in Hoff, Hlen. subst off.
  unfold addWavHeader. cbn [length16 buffer].
  set (d := (n * 2)%nat).
  assert (Hd : length buf = d) by (unfold d; lia). clearbody d. clear Hlen.
  replace (sampleRate * 1 * (16 / 8)) with (sampleRate * 2)
    by (change (16 / 8) with 2; lia).
  replace (1 * (16 / 8)) with 2 by reflexivity.
  unfold writeString. simpl. unfold setFrom.
  match goal with |- context [(?a <=? ?b)%nat] =>
    replace (a <=? b)%nat with true
  end.
  2:{ symmetry. apply Nat.leb_le. simpl. rewrite length_replicate. lia. }
  simpl. rewrite drop_ge by (rewrite length_replicate; lia).
  rewrite app_nil_r. reflexivity.
Qed.

(** The elements of a whole-buffer view are its bytes taken two by two. *)
Lemma samples_bytes_aux n : forall buf,
  length buf = (2 * n)%nat -> Forall is_byte buf ->
  concat (map (fun i => int16_le (toInt16 (getUint16 buf (2 * i)%nat))) (seq 0 n))
  = buf.
Proof.
  induction n as [|n IH]; intros buf Hlen Hb.
  - destruct buf; [done|cbn in Hlen; lia].
  - destruct buf as [|b0 [|b1 buf]]; [cbn in Hlen; lia|cbn in Hlen; lia|].
    apply Forall_cons in Hb as [Hb0 Hb]. apply Forall_cons in Hb as [Hb1 Hb].
    cbn [seq map concat]. rewrite <- seq_shift, map_map.
    change (b0 :: b1 :: buf) with ([b0; b1] ++ buf) at 3. f_equal.
    + unfold getUint16. cbn. unfold int16_le, toInt16, byte_at, is_byte in *.
      change (256 ^ Z.of_nat 0) with 1. change (256 ^ Z.of_nat 1) with 256.
      case_decide; f_equal; [| f_equal | | f_equal];
        Z.div_mod_to_equations; lia.
    + etrans; [|apply (IH buf); [cbn in Hlen; lia|done]].
      f_equal. apply map_ext. intros i.
      replace (2 * S i)%nat with (S (S (2 * i))) by lia. reflexivity.
Qed.

Lemma samples_bytes pcmData :
  whole_buffer pcmData -> Forall is_byte (buffer pcmData) ->
  concat (map int16_le (samples pcmData)) = buffer pcmData.
Proof.
  intros [Hoff Hlen] Hb. unfold samples. rewrite Hoff, map_map.
  by apply samples_bytes_aux.
Qed.

Lemma parseWav_header sampleRate d rest :
  0 <= sampleRate < 2 ^ 31 ->
  parseWav (wavHeader sampleRate d ++ rest)
  = Some {| wav_numChannels := 1; wav_sampleRate := sampleRate;
            wav_byteRate := sampleRate * 2; wav_blockAlign := 2;
            wav_bitsPerSample := 16;
            wav_dataSize := Z.of_nat d mod 2 ^ 32;
            wav_sampleBytes := rest |}.
Proof.
  intros Hsr. unfold parseWav. rewrite bool_decide_eq_true_2.
  2:{ repeat split; vm_compute; reflexivity. }
  f_equal. unfold getUint16, getUint32. simpl.
  rewrite !le32_value by (apply Z.mod_pos_bound; lia).
  rewrite !Z.mod_small by lia.
  reflexivity.
Qed.

(** C2 (amended). For every [Int16Array] that spans its whole buffer, as the
    one [generateSpeech] builds, and every integer sample rate from 0 up to,
    but excluding, 2^31, the encoder returns a buffer of exactly 44 + 2 n
    bytes, n the sample count, whose first 44 bytes are a header that
    declares one channel, 16 bits per sample, the given sample rate, a byte
    rate of twice the sample rate and a block alignment of 2, followed at once
    by the sample bytes, little-endian and without padding; reading the
    buffer back gives these fields and the original sample bytes. *)
Theorem wav_roundtrip (pcmData : Int16Array) (sampleRate : Z) :
  valid_view pcmData ->
  whole_buffer pcmData ->
  0 <= sampleRate < 2 ^ 31 ->
  exists file,
    addWavHeader pcmData sampleRate = Ok file
    /\ container_of pcmData sampleRate file
    /\ take 44 file = wavHeader sampleRate (length16 pcmData * 2)
    /\ drop 44 file = buffer pcmData.
Proof.
  intros (_ & _ & Hbytes) Hwhole Hsr.
  exists (wavHeader sampleRate (length16 pcmData * 2) ++ buffer pcmData).
  split; [by apply addWavHeader_whole|].
  split; [|split; reflexivity].
  split.
  - rewrite length_app. destruct Hwhole as [_ ->]. reflexivity.
  - eexists. split; [by apply parseWav_header|].
    cbn. by rewrite samples_bytes.
Qed.

Lemma wav_roundtrip_witness :
  exists file,
    addWavHeader two_samples 24000 = Ok file
    /\ container_of two_samples 24000 file
    /\ take 44 file = wavHeader 24000 4
    /\ drop 44 file = [1; 2; 3; 255].
Proof.
  apply (wav_roundtrip two_samples 24000).
  - split; [reflexivity|]. split; [apply Nat.le_refl|].
    repeat constructor; discriminate.
  - split; reflexivity.
  - lia.
Defined.

(** C2 as stated fails on an [Int16Array] that is a window into a larger
    buffer, where the encoder throws, and at the sample rate 2^31, where the
    byte-rate field of the header wraps around to 0. *)
Lemma wav_roundtrip_counterexample :
  valid_view view_of_second_half
  /\ ~ (exists file, addWavHeader view_of_second_half 24000 = Ok file
                     /\ container_of view_of_second_half 24000 file)
  /\ valid_view empty_view
  /\ ~ (exists file, addWavHeader empty_view (2 ^ 31) = Ok file
                     /\ container_of empty_view (2 ^ 31) file).
Proof.
  split; [|split; [|split]].
  - split; [reflexivity|]. split; [apply Nat.le_refl|].
    repeat constructor; discriminate.
  - intros (file & Hfile & _). vm_compute in Hfile. discriminate.
  - split; [reflexivity|]. split; [apply Nat.le_refl|]. constructor.
  - intros (file & Hfile & _ & info & Hinfo & _ & _ & _ & Hrate & _).
    vm_compute in Hfile. injection Hfile as <-.
    vm_compute in Hinfo. injection Hinfo as <-.
    vm_compute in Hrate. discriminate.
Qed.

End WavFacts.

(** ** Image generation: tier fallback and retry *)

Section ImageFacts.

Variable env : Platform.

Lemma runGeneration_eq req w :
  runGeneration env req w = (imageOutcome env (calls w) req, w ++ [EvCall req]).
Proof.
  unfold runGeneration, bind, generateContent, imageOutcome, lift.
  by destruct (service env (calls w) req).
Qed.

Lemma calls_snoc_call w req : calls (w ++ [EvCall req]) = S (calls w).
Proof.
  unfold calls. rewrite filter_app, length_app.
  change (length (filter is_call [EvCall req])) with 1%nat. lia.
Qed.

Lemma calls_snoc_sleep w ms : calls (w ++ [EvSleep ms]) = calls w.
Proof.
  unfold calls. rewrite filter_app, length_app.
  change (length (filter is_call [EvSleep ms])) with 0%nat. lia.
Qed.

Lemma calls_cons_call req w : calls (EvCall req :: w) = S (calls w).
Proof. reflexivity. Qed.

Lemma calls_cons_sleep ms w : calls (EvSleep ms :: w) = calls w.
Proof. reflexivity. Qed.

Section OneRequest.

Variables (basePrompt : option string) (settings : MediaSettings)
  (style : ImageStyleConfig) (apiKey : option string)
  (activeCharacters : list Character) (ai : string).

Hypothesis Hkey : getAI env apiKey = Ok ai.

Let prompt := finalPrompt basePrompt style activeCharacters.
Let pro := proRequest ai prompt settings.
Let flash := flashRequest ai prompt settings.

Lemma imageAttempt_eq w :
  imageAttempt env basePrompt settings style apiKey activeCharacters w
  = match imageOutcome env (calls w) pro with
    | Ok v => (Ok v, w ++ [EvCall pro])
    | Err _ => (imageOutcome env (S (calls w)) flash,
                w ++ [EvCall pro; EvCall flash])
    end.
Proof.
  unfold imageAttempt, bind, lift, try_catch. rewrite Hkey.
  fold prompt. fold pro. fold flash.
  rewrite runGeneration_eq.
  destruct (imageOutcome env (calls w) pro) as [v|e]; [done|].
  rewrite runGeneration_eq, calls_snoc_call, <- app_assoc. done.
Qed.

Lemma generateImage_run retries : forall delay w,
  exists evs res,
    callWithRetry
      (imageAttempt env basePrompt settings style apiKey activeCharacters)
      retries delay w = (res, w ++ evs)
    /\ image_run env pro flash (calls w) retries delay evs res.
Proof.
  induction retries as [|r IH]; intros delay w;
    rewrite callWithRetry_unfold, imageAttempt_eq;
    destruct (imageOutcome env (calls w) pro) as [v|e1] eqn:Hpro;
    try (eexists _, _; split; [reflexivity|by constructor]);
    destruct (imageOutcome env (S (calls w)) flash) as [v|e2] eqn:Hflash;
    try (eexists _, _; split; [reflexivity|by econstructor]).
  - eexists _, _; split; [reflexivity|]. econstructor; eauto.
  - destruct (isRetryable e2) eqn:Hre.
    + destruct (IH (delay * 2) ((w ++ [EvCall pro; EvCall flash]) ++ [EvSleep delay]))
        as (evs & res & Heq & Hrun).
      rewrite Heq. exists (EvCall pro :: EvCall flash :: EvSleep delay :: evs), res.
      split; [by rewrite <- !app_assoc|].
      eapply run_retry; eauto.
      rewrite calls_snoc_sleep in Hrun.
      replace (w ++ [EvCall pro; EvCall flash])
        with ((w ++ [EvCall pro]) ++ [EvCall flash]) in Hrun
        by (by rewrite <- app_assoc).
      by rewrite !calls_snoc_call in Hrun.
    + eexists _, _; split; [reflexivity|]. econstructor; eauto.
Qed.


Lemma pro_neq_flash : pro <> flash.
Proof. discriminate. Qed.

Lemma image_run_head n r d evs res :
  image_run env pro flash n r d evs res -> head evs = Some (EvCall pro).
Proof. by destruct 1. Qed.

Lemma image_run_requests n r d evs res :
  image_run env pro flash n r d evs res ->
  forall req, EvCall req ∈ evs -> req = pro \/ req = flash.
Proof.
  induction 1 as [| | |n r d e1 e2 evs res _ _ _ _ IH]; intros req Hin;
    repeat (apply elem_of_cons in Hin as [Hin|Hin]);
    try (apply elem_of_nil in Hin; done);
    try (injection Hin as ->; by eauto); try discriminate.
  by apply IH.
Qed.

(** The event after a call to the high tier that failed is the call to the
    lower tier. *)
Lemma image_run_after_pro n r d evs res :
  image_run env pro flash n r d evs res ->
  forall pre post, evs = pre ++ EvCall pro :: post ->
    isOk (imageOutcome env (n + calls pre) pro) = false ->
    head post = Some (EvCall flash).
Proof.
  induction 1 as [n r d v Hp|n r d e v Hp Hf|n r d e1 e2 Hp Hf Hstop
                 |n r d e1 e2 evs res Hp Hf Hre Hrun IH];
    intros pre post Heq Hfail.
  - destruct pre as [|? [|? ?]]; simplify_eq/=.
    rewrite Nat.add_0_r, Hp in Hfail. done.
  - destruct pre as [|? [|? [|? ?]]]; simplify_eq/=; try done.
  - destruct pre as [|? [|? [|? ?]]]; simplify_eq/=; try done.
  - destruct pre as [|? [|? [|? pre]]]; simplify_eq/=; try done.
    apply (IH pre post eq_refl).
    rewrite !calls_cons_call, calls_cons_sleep in Hfail.
    by replace (S (S (n + calls pre))) with (n + S (S (calls pre)))%nat by lia.
Qed.

(** The event after a call to the lower tier, when there is one, is a wait. *)
Lemma image_run_after_flash n r d evs res :
  image_run env pro flash n r d evs res ->
  forall pre post, evs = pre ++ EvCall flash :: post ->
    post = [] \/ exists ms, head post = Some (EvSleep ms).
Proof.
  induction 1 as [n r d v Hp|n r d e v Hp Hf|n r d e1 e2 Hp Hf Hstop
                 |n r d e1 e2 evs res Hp Hf Hre Hrun IH];
    intros pre post Heq.
  - destruct pre as [|? [|? ?]]; simplify_eq/=.
  - destruct pre as [|? [|? [|? ?]]]; simplify_eq/=. by left.
  - destruct pre as [|? [|? [|? ?]]]; simplify_eq/=. by left.
  - destruct pre as [|? [|? [|? pre]]]; simplify_eq/=; [right; by eexists|].
    by apply (IH pre post).
Qed.

(** A run that ends in failure ends with the two tiers failing in turn. *)
Lemma image_run_failure n r d evs res :
  image_run env pro flash n r d evs res ->
  forall e, res = Err e ->
    exists pre e1, evs = pre ++ [EvCall pro; EvCall flash]
      /\ imageOutcome env (n + calls pre) pro = Err e1
      /\ imageOutcome env (S (n + calls pre)) flash = Err e.
Proof.
  induction 1 as [n r d v Hp|n r d e v Hp Hf|n r d e1 e2 Hp Hf Hstop
                 |n r d e1 e2 evs res Hp Hf Hre Hrun IH];
    intros e' Hres; simplify_eq.
  - exists [], e1. by rewrite Nat.add_0_r.
  - destruct (IH e' eq_refl) as (pre & e1' & -> & H1 & H2).
    exists (EvCall pro :: EvCall flash :: EvSleep d :: pre), e1'.
    rewrite !calls_cons_call, calls_cons_sleep.
    replace (n + S (S (calls pre)))%nat with (S (S n) + calls pre)%nat by lia.
    done.
Qed.

(** Every wait follows a transient failure of the lower tier, which itself
    followed a failure of the high tier, and is followed by a call to the
    high tier. *)
Lemma image_run_sleep n r d evs res :
  image_run env pro flash n r d evs res ->
  forall pre ms post, evs = pre ++ EvSleep ms :: post ->
    exists pre' post',
      pre = pre' ++ [EvCall pro; EvCall flash]
      /\ post = EvCall pro :: post'
      /\ isOk (imageOutcome env (n + calls pre') pro) = false
      /\ transient (imageOutcome env (S (n + calls pre')) flash).
Proof.
  induction 1 as [n r d v Hp|n r d e v Hp Hf|n r d e1 e2 Hp Hf Hstop
                 |n r d e1 e2 evs res Hp Hf Hre Hrun IH];
    intros pre ms post Heq.
  - destruct pre as [|? [|? ?]]; simplify_eq/=.
  - destruct pre as [|? [|? [|? ?]]]; simplify_eq/=.
  - destruct pre as [|? [|? [|? ?]]]; simplify_eq/=.
  - destruct pre as [|? [|? [|? pre]]]; simplify_eq/=.
    + exists [].
      pose proof (image_run_head _ _ _ _ _ Hrun) as Hh.
      destruct post as [|ev post]; simplify_eq/=.
      eexists. rewrite Nat.add_0_r, Hp, Hf. done.
    + destruct (IH pre ms post eq_refl) as (pre' & post' & -> & -> & H1 & H2).
      exists (EvCall pro :: EvCall flash :: EvSleep d :: pre'), post'.
      rewrite !calls_cons_call, calls_cons_sleep.
      replace (n + S (S (calls pre')))%nat with (S (S n) + calls pre')%nat by lia.
      done.
Qed.

(** The waits are the successive delays, and at most as many as retries. *)
Lemma image_run_sleeps n r d evs res :
  image_run env pro flash n r d evs res ->
  (length (sleeps evs) <= r)%nat
  /\ sleeps evs = map (fun j => d * 2 ^ Z.of_nat j) (seq 0 (length (sleeps evs))).
Proof.
  induction 1 as [n r d v Hp|n r d e v Hp Hf|n r d e1 e2 Hp Hf Hstop
                 |n r d e1 e2 evs res Hp Hf Hre Hrun [IH1 IH2]];
    try (split; [cbn; lia|reflexivity]).
  change (sleeps (EvCall pro :: EvCall flash :: EvSleep d :: evs))
    with (d :: sleeps evs).
  split; [cbn; lia|]. cbn [length seq map]. f_equal; [cbn; lia|].
  rewrite IH2 at 1. rewrite <- seq_shift, map_map. apply map_ext. intros j.
  rewrite Nat2Z.inj_succ, Z.pow_succ_r by lia. lia.
Qed.


(** C4 (amended). For every image-generation request for which a credential
    is available, the high-quality tier is attempted first; every call the
    request makes carries the same assembled prompt; whenever an attempt at
    the high tier fails, for any reason, the next thing that happens is one
    call to the lower tier with that prompt, after which the request either
    settles or waits before a new attempt; and a failure is surfaced only if
    both tiers failed, the high tier and then the lower one, whose error is
    the one surfaced. *)
Theorem tier_fallback (w : World) :
  exists evs res,
    generateImage env basePrompt settings style apiKey activeCharacters w
      = (res, w ++ evs)
    /\ head evs = Some (EvCall pro)
    /\ (forall req, EvCall req ∈ evs ->
          (req = pro \/ req = flash) /\ req_contents req = Some prompt)
    /\ (forall pre post, evs = pre ++ EvCall pro :: post ->
          isOk (imageOutcome env (calls (w ++ pre)) pro) = false ->
          head post = Some (EvCall flash))
    /\ (forall pre post, evs = pre ++ EvCall flash :: post ->
          post = [] \/ exists ms, head post = Some (EvSleep ms))
    /\ (forall e, res = Err e ->
          exists pre e1, evs = pre ++ [EvCall pro; EvCall flash]
            /\ imageOutcome env (calls (w ++ pre)) pro = Err e1
            /\ imageOutcome env (S (calls (w ++ pre))) flash = Err e).
Proof.
  destruct (generateImage_run default_retries default_delay w)
    as (evs & res & Heq & Hrun).
  exists evs, res. split; [exact Heq|].
  split; [by eapply image_run_head|].
  split.
  { intros req Hin.
    destruct (image_run_requests _ _ _ _ _ Hrun req Hin) as [->| ->]; eauto. }
  split.
  { intros pre post Hevs Hfail. rewrite calls_app in Hfail.
    by eapply image_run_after_pro. }
  split; [by eapply image_run_after_flash|].
  intros e Hres.
  destruct (image_run_failure _ _ _ _ _ Hrun e Hres) as (pre & e1 & ? & ? & ?).
  exists pre, e1. by rewrite calls_app.
Qed.

(** C5 (amended). The two policies compose in the order "retry wraps tier
    fallback": the switch to the lower tier happens inside one attempt of
    the retry wrapper, at once and without a wait, also when the failure of
    the high tier was transient; the wrapper waits only after the lower tier
    has failed transiently, and the attempt after the wait starts at the high
    tier again.  The waits are 1000 ms doubled each time, three at most. *)
Theorem retry_wraps_fallback (w : World) :
  exists evs res,
    generateImage env basePrompt settings style apiKey activeCharacters w
      = (res, w ++ evs)
    /\ (forall pre ms post, evs = pre ++ EvSleep ms :: post ->
          exists pre' post',
            pre = pre' ++ [EvCall pro; EvCall flash]
            /\ post = EvCall pro :: post'
            /\ isOk (imageOutcome env (calls (w ++ pre')) pro) = false
            /\ transient (imageOutcome env (S (calls (w ++ pre'))) flash))
    /\ (forall pre post, evs = pre ++ EvCall pro :: post ->
          transient (imageOutcome env (calls (w ++ pre)) pro) ->
          head post = Some (EvCall flash))
    /\ (length (sleeps evs) <= 3)%nat
    /\ sleeps evs
       = map (fun j => 1000 * 2 ^ Z.of_nat j) (seq 0 (length (sleeps evs))).
Proof.
  destruct (generateImage_run default_retries default_delay w)
    as (evs & res & Heq & Hrun).
  exists evs, res. split; [exact Heq|].
  split.
  { intros pre ms post Hevs.
    destruct (image_run_sleep _ _ _ _ _ Hrun pre ms post Hevs)
      as (pre' & post' & ? & ? & ? & ?).
    exists pre', post'. by rewrite calls_app. }
  split.
  { intros pre post Hevs Htr. rewrite calls_app in Htr.
    eapply image_run_after_pro; [exact Hrun|exact Hevs|].
    by destruct (imageOutcome env (calls w + calls pre) pro). }
  exact (image_run_sleeps _ _ _ _ _ Hrun).
Qed.

End OneRequest.
End ImageFacts.

Lemma tier_fallback_witness :
  getAI (platform service_400_503_ok (Some "key") []) None = Ok "key"
  /\ exists evs res,
       generateImage (platform service_400_503_ok (Some "key") [])
         (Some "A cat") settings0 style0 None [] [] = (res, evs)
       /\ head evs
          = Some (EvCall (proRequest "key"
                            (finalPrompt (Some "A cat") style0 []) settings0)).
Proof.
  split; [reflexivity|].
  destruct (tier_fallback (platform service_400_503_ok (Some "key") [])
              (Some "A cat") settings0 style0 None [] "key" eq_refl [])
    as (evs & res & Heq & Hhead & _).
  exists evs, res. split; [exact Heq|exact Hhead].
Defined.

(** C4 as stated fails for a request made without any credential: the
    failure is surfaced and no tier was attempted. *)
Lemma tier_fallback_counterexample :
  generateImage (platform service_400_503_ok None [])
    (Some "A cat") settings0 style0 None [] []
  = (Err (Error "Missing API Key. Please add one in Settings."), []).
Proof. reflexivity. Qed.

Lemma retry_wraps_fallback_witness :
  getAI (platform service_400_503_ok (Some "key") []) None = Ok "key"
  /\ exists evs res,
       generateImage (platform service_400_503_ok (Some "key") [])
         (Some "A cat") settings0 style0 None [] [] = (res, evs)
       /\ (length (sleeps evs) <= 3)%nat.
Proof.
  split; [reflexivity|].
  destruct (retry_wraps_fallback (platform service_400_503_ok (Some "key") [])
              (Some "A cat") settings0 style0 None [] "key" eq_refl [])
    as (evs & res & Heq & _ & _ & Hlen & _).
  exists evs, res. split; [exact Heq|exact Hlen].
Defined.

(** C5 as stated fails: with the high tier failing, the lower tier
    overloaded, and the service answering afterwards, the wait of the retry
    wrapper stands between a call to the lower tier and a call to the high
    tier, which is attempted again after the switch. *)
Lemma retry_wraps_fallback_counterexample :
  let env := platform service_400_503_ok (Some "key") [] in
  let prompt := finalPrompt (Some "A cat") style0 [] in
  generateImage env (Some "A cat") settings0 style0 None [] []
  = (Ok "data:image/png;base64,AAAA",
     [EvCall (proRequest "key" prompt settings0);
      EvCall (flashRequest "key" prompt settings0);
      EvSleep 1000;
      EvCall (proRequest "key" prompt settings0)])
  /\ ~ fallback_wraps_retry
         (generateImage env (Some "A cat") settings0 style0 None [] []).2.
Proof.
  split; [reflexivity|].
  intros [Hsame _].
  specialize (Hsame
    [EvCall (proRequest "key" (finalPrompt (Some "A cat") style0 []) settings0);
     EvCall (flashRequest "key" (finalPrompt (Some "A cat") style0 []) settings0)]
    1000
    [EvCall (proRequest "key" (finalPrompt (Some "A cat") style0 []) settings0)]
    eq_refl).
  discriminate Hsame.
Qed.


(** ** ConsistencyPromptBuilder *)

Section PromptFacts.

Variable env : Platform.

Lemma description_in_entry c : occurs_in (description c) (characterEntry c).
Proof.
  unfold characterEntry.
  do 3 apply occurs_in_app_r. apply occurs_in_app_l, occurs_in_refl.
Qed.

Lemma entry_in_block c cs : c ∈ cs -> occurs_in (characterEntry c) (characterBlock cs).
Proof.
  intros Hin. unfold characterBlock.
  destruct cs as [|c0 cs]; [by apply elem_of_nil in Hin|].
  cbn [length Nat.ltb Nat.leb].
  apply occurs_in_app_r, occurs_in_app_l, occurs_in_join.
  by apply list_elem_of_fmap_2.
Qed.

Lemma entry_in_prompt basePrompt style c cs :
  c ∈ cs -> occurs_in (characterEntry c) (finalPrompt basePrompt style cs).
Proof.
  intros Hin. unfold finalPrompt.
  do 3 apply occurs_in_app_r. by apply occurs_in_app_l, entry_in_block.
Qed.

Lemma isActive_spec scene c :
  isActive env scene c = true <->
  exists names n, characterNames scene = Some names /\ n ∈ names
    /\ (includes (toLowerCase env n) (toLowerCase env (name c)) = true
        \/ includes (toLowerCase env (name c)) (toLowerCase env n) = true).
Proof.
  unfold isActive, nameMatches. destruct (characterNames scene) as [names|].
  - rewrite existsb_exists. split.
    + intros (n & Hin & Hm). apply orb_true_iff in Hm.
      exists names, n. by rewrite list_elem_of_In.
    + intros (names' & n & [= <-] & Hin & Hm). exists n.
      rewrite <- list_elem_of_In. split; [done|]. by apply orb_true_iff.
  - split; [done|]. by intros (? & ? & ? & _).
Qed.

Lemma activeChars_elem project scene c :
  c ∈ activeChars env project scene <->
  c ∈ characters (config project) /\ isActive env scene c = true.
Proof. unfold activeChars. by rewrite !list_elem_of_In, filter_In. Qed.

Lemma activeChars_without project scene c l1 l2 :
  characters (config project) = l1 ++ c :: l2 ->
  isActive env scene c = false ->
  activeChars env (with_characters project (l1 ++ l2)) scene
  = activeChars env project scene.
Proof.
  intros Hcs Hc. unfold activeChars. cbn [with_characters config characters].
  rewrite Hcs, !List.filter_app. cbn [List.filter]. by rewrite Hc.
Qed.

Lemma isActive_matched scene c :
  isActive env scene c = true <-> matched env scene c.
Proof.
  rewrite isActive_spec. unfold matched.
  split; intros (names & n & Hn & Hin & Hm); exists names, n;
    (split; [done|split; [done|]]).
  - destruct Hm as [Hm|Hm]; apply includes_spec in Hm; auto.
  - destruct Hm as [Hm|Hm]; apply includes_spec in Hm; auto.
Qed.

Lemma activeChars_with_description project scene c d l1 l2 :
  characters (config project) = l1 ++ c :: l2 ->
  isActive env scene c = false ->
  activeChars env (with_characters project (l1 ++ with_description c d :: l2))
    scene
  = activeChars env project scene.
Proof.
  intros Hcs Hc. unfold activeChars. cbn [with_characters config characters].
  rewrite Hcs, !List.filter_app. cbn [List.filter].
  change (isActive env scene (with_description c d)) with (isActive env scene c).
  by rewrite Hc.
Qed.

(** C1 (amended). For every scene and every stored character: the
    character is among the active characters of the scene exactly when the
    scene matches it, that is when some entry of the scene's list of names
    contains the character's name, or is contained in it, both in lower
    case.  The prompt built for a scene that matches the character contains
    the character's entry and in it the stored description, verbatim and
    whole.  A character that the scene does not match is not among the
    characters the prompt is built from, and contributes nothing to it: the
    prompt is the very same when that character is not stored at all and
    when it is stored with any other description.  Every call that the
    image generation of the scene makes to the service carries that
    prompt. *)
Theorem active_characters_in_prompt (project : Project) (scene : Scene)
    (c : Character) :
  c ∈ characters (config project) ->
  (isActive env scene c = true <-> matched env scene c)
  /\ (c ∈ activeChars env project scene <-> matched env scene c)
  /\ (matched env scene c ->
        occurs_in (description c) (scenePrompt env project scene)
        /\ occurs_in (characterEntry c) (scenePrompt env project scene))
  /\ (~ matched env scene c ->
        forall l1 l2, characters (config project) = l1 ++ c :: l2 ->
          scenePrompt env (with_characters project (l1 ++ l2)) scene
          = scenePrompt env project scene
          /\ forall d,
               scenePrompt env
                 (with_characters project (l1 ++ with_description c d :: l2))
                 scene
               = scenePrompt env project scene)
  /\ (forall ai w, getAI env (apiKey project) = Ok ai ->
        exists evs res,
          generateImage env (imagePrompt scene) (mediaSettings project)
            (imageStyle project) (apiKey project)
            (activeChars env project scene) w = (res, w ++ evs)
          /\ forall req, EvCall req ∈ evs ->
               req_contents req = Some (scenePrompt env project scene)).
Proof.
  intros Hin. split; [apply isActive_matched|]. split; [|split; [|split]].
  - rewrite activeChars_elem, isActive_matched. tauto.
  - intros Hact%isActive_matched.
    assert (Hentry : occurs_in (characterEntry c) (scenePrompt env project scene)).
    { apply entry_in_prompt, activeChars_elem. done. }
    split; [|done]. eapply occurs_in_trans; [apply description_in_entry|done].
  - intros Hno l1 l2 Hcs.
    assert (isActive env scene c = false) as Hact.
    { destruct (isActive env scene c) eqn:E; [|done].
      by apply isActive_matched in E. }
    unfold scenePrompt. split.
    + by rewrite (activeChars_without project scene c l1 l2).
    + intros d. cbn [with_characters imageStyle].
      by rewrite (activeChars_with_description project scene c d l1 l2).
  - intros ai w Hkey.
    destruct (generateImage_run env (imagePrompt scene) (mediaSettings project)
                (imageStyle project) (apiKey project)
                (activeChars env project scene) ai Hkey
                default_retries default_delay w) as (evs & res & Heq & Hrun).
    exists evs, res. split; [exact Heq|]. intros req Hreq.
    by destruct (image_run_requests _ _ _ _ _ _ _ _ _ _ _ Hrun req Hreq)
      as [->| ->].
Qed.

End PromptFacts.

Lemma active_characters_in_prompt_witness :
  let env := platform service_400_503_ok (Some "key") [] in
  dr_voss ∈ characters (config project0)
  /\ matched env scene_voss dr_voss
  /\ occurs_in (description dr_voss) (scenePrompt env project0 scene_voss)
  /\ occurs_in (characterEntry dr_voss) (scenePrompt env project0 scene_voss).
Proof.
  intros env.
  assert (Hin : dr_voss ∈ characters (config project0))
    by (right; left).
  assert (Hm : matched env scene_voss dr_voss).
  { exists ["Voss"], "Voss". split; [reflexivity|]. split; [left|].
    right. exists "dr. ", "". reflexivity. }
  split; [exact Hin|]. split; [exact Hm|].
  exact (proj1 (proj2 (proj2 (active_characters_in_prompt env project0
                                scene_voss dr_voss Hin))) Hm).
Defined.

(** C1 as stated fails in its second half.  The second scene of the
    script lists Dr. Voss alone and no entry matches Lina, yet the
    description of Lina stands, whole, in the prompt that the image job of
    the scene sends, because the image prompt of the scene quotes it.  And
    of twins who share one description, a scene that lists one carries the
    description of the other, whom it does not match. *)
Lemma active_characters_in_prompt_counterexample :
  let env := platform service_400_503_ok (Some "key") [] in
  let prompt := scenePrompt env project_portrait scene_portrait in
  (lina ∈ characters (config project_portrait)
   /\ array_get (scenes_of project_portrait) 1 = Some scene_portrait
   /\ ~ matched env scene_portrait lina
   /\ occurs_in (description lina) prompt
   /\ head (handleGenerateImage env project_portrait 1
              (setProject (fun _ => project_portrait) initialState) []).2
      = Some (EvCall (proRequest "key" prompt settings0)))
  /\ (tim ∈ characters (config project_twins)
      /\ array_get (scenes_of project_twins) 0 = Some scene_tom
      /\ ~ matched env scene_tom tim
      /\ occurs_in (description tim) (scenePrompt env project_twins scene_tom)).
Proof.
  intros env prompt. split.
  - split; [left|]. split; [reflexivity|]. split; [|split].
    + intros H%isActive_matched. discriminate H.
    + apply includes_spec. vm_compute. reflexivity.
    + vm_compute. reflexivity.
  - split; [right; left|]. split; [reflexivity|]. split.
    + intros H%isActive_matched. discriminate H.
    + apply includes_spec. vm_compute. reflexivity.
Qed.

(** ** ScriptGenerationJob *)

(** Peel the segments of a template from the left until the remainder
    splits as [pre +:+ sub +:+ post]. *)
Ltac find_occurrence pre post :=
  first [ by (exists pre, post; rewrite ?app_assoc_s)
        | apply occurs_in_app_r; find_occurrence pre post ].

Section StoryFacts.

Variable env : Platform.

Lemma storyPrompt_asks_count config style :
  occurs_in ("Generate exactly " +:+ number_str (sceneCount config)
             +:+ " scenes.")
            (storyPrompt config style).
Proof.
  unfold storyPrompt.
  find_occurrence ".

        " "
      ".
Qed.

Lemma storyAttempt_ok config voice style apiKey w out w' :
  storyAttempt env config voice style apiKey w = (Ok out, w') ->
  exists ai response t,
    getAI env apiKey = Ok ai
    /\ w' = w ++ [EvCall (storyRequest ai config style)]
    /\ service env (calls w) (storyRequest ai config style) = Ok response
    /\ text response = Some t /\ truthy t = true
    /\ JSON_parse env t = Ok out.
Proof.
  unfold storyAttempt, bind, lift, generateContent, throw.
  destruct (getAI env apiKey) as [ai|e]; [|done].
  destruct (service env (calls w) (storyRequest ai config style))
    as [response|e] eqn:Hsvc; [|done].
  destruct (text response) as [t|] eqn:Ht; [|done].
  destruct (truthy t) eqn:Htr; [|done].
  intros [= Hp <-]. by exists ai, response, t.
Qed.

(** C9 (amended). Every StoryOutput returned by a successful
    script-generation call is the value that [JSON.parse] gives for the text
    of the response to the last call made, a text that is present and not
    empty; the prompt of that call asked for exactly [sceneCount] scenes,
    the count being printed in decimal digits when it is a safe integer.
    Nothing else is checked: whatever value a present, non-empty response
    text parses to is returned as the script, whether or not it has
    [sceneCount] scenes, populated fields or dense numbering. *)
Theorem script_is_parsed_response (config : StoryConfig) (voice : VoiceConfig)
    (style : ImageStyleConfig) (apiKey : option string) (w : World) :
  (forall out w',
     generateStory env config voice style apiKey w = (Ok out, w') ->
     exists ai pre response t,
       getAI env apiKey = Ok ai
       /\ w' = pre ++ [EvCall (storyRequest ai config style)]
       /\ service env (calls pre) (storyRequest ai config style) = Ok response
       /\ text response = Some t /\ truthy t = true
       /\ JSON_parse env t = Ok out
       /\ req_contents (storyRequest ai config style)
          = Some (storyPrompt config style)
       /\ (isSafeInteger (sceneCount config) ->
           occurs_in ("Generate exactly " +:+ number_str (sceneCount config)
                      +:+ " scenes.")
                     (storyPrompt config style)))
  /\ (forall ai response t out,
        getAI env apiKey = Ok ai ->
        service env (calls w) (storyRequest ai config style) = Ok response ->
        text response = Some t -> truthy t = true ->
        JSON_parse env t = Ok out ->
        generateStory env config voice style apiKey w
        = (Ok out, w ++ [EvCall (storyRequest ai config style)])).
Proof.
  split.
  - intros out w' Hgen. apply callWithRetry_last in Hgen as [w0 Hatt].
    apply storyAttempt_ok in Hatt as (ai & response & t & ? & ? & ? & ? & ? & ?).
    exists ai, w0, response, t. repeat (split; [done|]).
    intros _. apply storyPrompt_asks_count.
  - intros ai response t out Hkey Hsvc Ht Htr Hparse.
    apply callWithRetry_first; [|by left].
    unfold storyAttempt, bind, lift, generateContent. rewrite Hkey.
    rewrite Hsvc, Ht, Htr. unfold lift. by rewrite Hparse.
Qed.

End StoryFacts.

Lemma script_is_parsed_response_witness :
  generateStory
    (platform service_short_story (Some "key") [(short_story_text, short_story)])
    config0 voice0 style0 None []
  = (Ok short_story, [EvCall (storyRequest "key" config0 style0)]).
Proof.
  exact (proj2 (script_is_parsed_response
    (platform service_short_story (Some "key") [(short_story_text, short_story)])
    config0 voice0 style0 None [])
    "key" {| text := Some short_story_text; candidates := None |}
    short_story_text short_story eq_refl eq_refl eq_refl eq_refl eq_refl).
Defined.

(** C9 as stated fails: asked for three scenes, the service answers with a
    text that holds one scene, numbered 7 and without its text fields; the
    call succeeds with that value, and [generateScript] stores it as the
    script of the project. *)
Lemma script_is_parsed_response_counterexample :
  let env := platform service_short_story (Some "key")
               [(short_story_text, short_story)] in
  sceneCount config0 = 3
  /\ generateStory env config0 voice0 style0 None []
     = (Ok short_story, [EvCall (storyRequest "key" config0 style0)])
  /\ ~ valid_script config0 short_story
  /\ output (project (generateScript env project0 en initialState []).1)
     = Some short_story.
Proof.
  split; [reflexivity|]. split; [reflexivity|]. split; [|reflexivity].
  intros [Hcount _]. discriminate Hcount.
Qed.


(** ** Speech *)

Section SpeechFacts.

Variable env : Platform.

Lemma chunkLoop_all (wavBytes : list Z) rounds : forall i,
  (length wavBytes - i <= rounds)%nat ->
  chunkLoop rounds wavBytes i (take i wavBytes) = wavBytes.
Proof.
  induction rounds as [|r IH]; intros i Hi; cbn [chunkLoop].
  - apply take_ge. lia.
  - destruct (i <? length wavBytes)%nat eqn:Hlt.
    + apply Nat.ltb_lt in Hlt.
      assert (Hcs : (0 < chunkSize)%nat) by (unfold chunkSize; lia).
      replace (take i wavBytes
               ++ take (Nat.min (i + chunkSize) (length wavBytes) - i)
                       (drop i wavBytes))
        with (take (i + chunkSize) wavBytes); [apply IH; lia|].
      destruct (decide (i + chunkSize <= length wavBytes)%nat).
      * rewrite Nat.min_l by lia.
        replace (i + chunkSize - i)%nat with chunkSize by lia.
        by rewrite take_take_drop.
      * rewrite Nat.min_r by lia.
        rewrite (take_ge wavBytes (i + chunkSize)) by lia.
        rewrite (take_ge (drop i wavBytes)) by (rewrite length_drop; lia).
        by rewrite take_drop.
    + apply Nat.ltb_ge in Hlt. by apply take_ge.
Qed.

(** The chunked loop rebuilds the whole byte string. *)
Lemma toBinaryString_all wavBytes : toBinaryString wavBytes = wavBytes.
Proof. unfold toBinaryString. apply (chunkLoop_all wavBytes _ 0%nat). lia. Qed.

Lemma newInt16Array_odd buf :
  Nat.Odd (length buf) -> newInt16Array buf = Err oddLength.
Proof.
  intros Hodd. unfold newInt16Array.
  replace (length buf mod 2 =? 0)%nat with false; [done|].
  symmetry. apply Nat.eqb_neq. apply Nat.Odd_OddT in Hodd as [k ->].
  rewrite Nat.add_comm, Nat.mul_comm, Nat.Div0.mod_add. done.
Qed.

Lemma newInt16Array_even buf :
  Nat.Even (length buf) ->
  exists pcmData, newInt16Array buf = Ok pcmData
    /\ buffer pcmData = buf /\ whole_buffer pcmData
    /\ (length16 pcmData * 2)%nat = length buf.
Proof.
  intros [k Hk]. unfold newInt16Array.
  assert (Hm : (length buf mod 2 = 0)%nat)
    by (rewrite Hk, Nat.mul_comm; apply Nat.Div0.mod_mul).
  assert (Hd : (length buf / 2 = k)%nat)
    by (rewrite Hk, Nat.mul_comm; apply Nat.div_mul; lia).
  rewrite Hm, Hd. eexists. split; [reflexivity|].
  unfold whole_buffer. cbn [buffer byteOffset length16].
  repeat split; try done; lia.
Qed.

Section OneVersion.

Variables (voices : string -> string) (noAudio : string).
Variables (text : option string) (voiceType : string) (apiKey : option string).

Let attempt := speechAttemptWith env voices noAudio text voiceType apiKey.

(** One attempt, once the response carries an inline payload that [atob]
    decodes. *)
Lemma speechAttempt_decoded w ai response base64Audio binaryString :
  getAI env apiKey = Ok ai ->
  service env (calls w) (speechRequest voices ai text voiceType) = Ok response ->
  firstInlineData response = Some base64Audio ->
  truthy base64Audio = true ->
  atob env base64Audio = Ok binaryString ->
  attempt w
  = (pcmData <-! newInt16Array (map (fun c => c mod 256) binaryString) ;;
     wavBuffer <-! addWavHeader pcmData 24000 ;;
     Ok (btoa env (toBinaryString wavBuffer)),
     w ++ [EvCall (speechRequest voices ai text voiceType)]).
Proof.
  intros Hkey Hsvc Hdata Htr Hatob.
  unfold attempt, speechAttemptWith, bind, lift, generateContent, ret.
  rewrite Hkey.
  rewrite Hsvc, Hdata, Htr, Hatob.
  destruct (newInt16Array _) as [pcmData|e]; [|done]. cbn [rbind].
  by destruct (addWavHeader pcmData 24000).
Qed.

Lemma speechAttempt_ok w out w' :
  attempt w = (Ok out, w') ->
  exists ai response base64Audio binaryString,
    getAI env apiKey = Ok ai
    /\ w' = w ++ [EvCall (speechRequest voices ai text voiceType)]
    /\ service env (calls w) (speechRequest voices ai text voiceType) = Ok response
    /\ firstInlineData response = Some base64Audio
    /\ truthy base64Audio = true
    /\ atob env base64Audio = Ok binaryString
    /\ Nat.Even (length binaryString)
    /\ out = btoa env (wavHeader 24000 (length binaryString)
                       ++ map (fun c => c mod 256) binaryString).
Proof.
  unfold attempt, speechAttemptWith, bind, lift, generateContent, ret, throw.
  destruct (getAI env apiKey) as [ai|e]; [|done].
  destruct (service env (calls w) _) as [response|e] eqn:Hsvc; [|done].
  destruct (firstInlineData response) as [b64|] eqn:Hdata; [|done].
  destruct (truthy b64) eqn:Htr; [|done].
  destruct (atob env b64) as [bin|e] eqn:Hatob; [|done].
  destruct (Nat.Even_or_Odd (length bin)) as [Heven|Hodd].
  - destruct (newInt16Array_even (map (fun c => c mod 256) bin))
      as (pcm & -> & Hbuf & Hwhole & Hlen); [by rewrite length_map|].
    rewrite (addWavHeader_whole pcm 24000 Hwhole), toBinaryString_all.
    rewrite Hlen, Hbuf, length_map. intros [= <- <-].
    by exists ai, response, b64, bin.
  - rewrite newInt16Array_odd by (by rewrite length_map). done.
Qed.

Lemma speech_even_or_fail w :
  (forall ai response base64Audio binaryString,
     getAI env apiKey = Ok ai ->
     service env (calls w) (speechRequest voices ai text voiceType) = Ok response ->
     firstInlineData response = Some base64Audio ->
     truthy base64Audio = true ->
     atob env base64Audio = Ok binaryString ->
     (Nat.Odd (length binaryString) ->
      callWithRetry attempt default_retries default_delay w
      = (Err oddLength, w ++ [EvCall (speechRequest voices ai text voiceType)]))
     /\ (Nat.Even (length binaryString) ->
         callWithRetry attempt default_retries default_delay w
         = (Ok (btoa env (wavHeader 24000 (length binaryString)
                          ++ map (fun c => c mod 256) binaryString)),
            w ++ [EvCall (speechRequest voices ai text voiceType)])))
  /\ (forall out w',
        callWithRetry attempt default_retries default_delay w = (Ok out, w') ->
        exists binaryString,
          Nat.Even (length binaryString)
          /\ out = btoa env (wavHeader 24000 (length binaryString)
                             ++ map (fun c => c mod 256) binaryString)).
Proof.
  split.
  - intros ai response b64 bin Hkey Hsvc Hdata Htr Hatob.
    pose proof (speechAttempt_decoded w ai response b64 bin
                  Hkey Hsvc Hdata Htr Hatob) as Hatt.
    split; intros Hpar.
    + apply callWithRetry_first; [|by right].
      rewrite Hatt, newInt16Array_odd by (by rewrite length_map). done.
    + apply callWithRetry_first; [|by left]. rewrite Hatt.
      destruct (newInt16Array_even (map (fun c => c mod 256) bin))
        as (pcm & -> & Hbuf & Hwhole & Hlen); [by rewrite length_map|].
      cbn [rbind]. rewrite (addWavHeader_whole pcm 24000 Hwhole).
      cbn [rbind]. by rewrite toBinaryString_all, Hlen, Hbuf, length_map.
  - intros out w' Hgen. apply callWithRetry_last in Hgen as [w0 Hatt].
    apply speechAttempt_ok in Hatt
      as (ai & response & b64 & bin & _ & _ & _ & _ & _ & _ & Heven & ->).
    by exists bin.
Qed.

End OneVersion.

(** C10. For either version of [generateSpeech]: when the response carries
    an inline audio payload that decodes to an odd number of bytes, the call
    fails with the RangeError of the 16-bit array constructor, on that
    attempt and without a retry, and produces nothing; when the payload
    decodes to an even number of bytes, the call returns the base64 text of
    the 44-byte header followed by those bytes; and whenever the call
    returns a value at all, it is such a container of an even number of
    decoded bytes. *)
Theorem speech_requires_even_length
    (speak : option string -> string -> option string -> M string)
    (voices : string -> string)
    (text : option string) (voiceType : string) (apiKey : option string)
    (w : World) :
  (speak = generateSpeech env /\ voices = voiceName)
  \/ (speak = generateSpeech_v1 env /\ voices = voiceName_v1) ->
  (forall ai response base64Audio binaryString,
     getAI env apiKey = Ok ai ->
     service env (calls w) (speechRequest voices ai text voiceType) = Ok response ->
     firstInlineData response = Some base64Audio ->
     truthy base64Audio = true ->
     atob env base64Audio = Ok binaryString ->
     (Nat.Odd (length binaryString) ->
      speak text voiceType apiKey w
      = (Err oddLength, w ++ [EvCall (speechRequest voices ai text voiceType)]))
     /\ (Nat.Even (length binaryString) ->
         speak text voiceType apiKey w
         = (Ok (btoa env (wavHeader 24000 (length binaryString)
                          ++ map (fun c => c mod 256) binaryString)),
            w ++ [EvCall (speechRequest voices ai text voiceType)])))
  /\ (forall out w',
        speak text voiceType apiKey w = (Ok out, w') ->
        exists binaryString,
          Nat.Even (length binaryString)
          /\ out = btoa env (wavHeader 24000 (length binaryString)
                             ++ map (fun c => c mod 256) binaryString)).
Proof.
  intros [[-> ->]|[-> ->]].
  - exact (speech_even_or_fail voiceName "No audio" text voiceType apiKey w).
  - exact (speech_even_or_fail voiceName_v1 "No audio data returned from Gemini."
             text voiceType apiKey w).
Qed.

End SpeechFacts.

Lemma speech_requires_even_length_witness :
  generateSpeech (platform service_three_bytes (Some "key") [])
    (Some "Voss locks the door.") "man_soft" None []
  = (Err oddLength,
     [EvCall (speechRequest voiceName "key" (Some "Voss locks the door.")
                "man_soft")]).
Proof.
  refine (proj1 (proj1 (speech_requires_even_length
    (platform service_three_bytes (Some "key") [])
    (generateSpeech (platform service_three_bytes (Some "key") []))
    voiceName (Some "Voss locks the door.") "man_soft" None []
    (or_introl (conj eq_refl eq_refl)))
    "key" (audioResponse "AQID") "AQID" [1; 2; 3]
    eq_refl eq_refl eq_refl eq_refl eq_refl) _).
  exists 1%nat. reflexivity.
Defined.


(** ** BatchRunner *)

Section BatchFacts.

Lemma with_scenes_id p o : output p = Some o -> with_scenes p o (scenes o) = p.
Proof. destruct p, o. cbn. by intros ->. Qed.

Lemma forLoop_add body a : forall b i st w,
  forLoop body i (a + b) st w
  = let '(st1, w1) := forLoop body i a st w in
    forLoop body (i + a) b st1 w1.
Proof.
  induction a as [|a IH]; intros b i st w; cbn [forLoop Nat.add].
  - by rewrite Nat.add_0_r.
  - destruct (body i st w) as [st1 w1]. rewrite IH.
    by replace (S i + a)%nat with (i + S a)%nat by lia.
Qed.

Lemma jobRuns_app job l1 : forall l2 w,
  jobRuns job (l1 ++ l2) w
  = let '(rs1, w1) := jobRuns job l1 w in
    let '(rs2, w2) := jobRuns job l2 w1 in
    (rs1 ++ rs2, w2).
Proof.
  induction l1 as [|[s|] l1 IH]; intros l2 w; cbn [jobRuns app].
  - by destruct (jobRuns job l2 w).
  - destruct (job s w) as [r w1]. rewrite IH.
    destruct (jobRuns job l1 w1) as [rs1 w2].
    by destruct (jobRuns job l2 w2).
  - rewrite IH. destruct (jobRuns job l1 w) as [rs1 w2].
    by destruct (jobRuns job l2 w2).
Qed.

Lemma jobRuns_length job scs : forall w,
  length (jobRuns job scs w).1 = length scs.
Proof.
  induction scs as [|[s|] scs IH]; intros w; cbn [jobRuns]; [done| |].
  - destruct (job s w) as [r w1]. specialize (IH w1).
    destruct (jobRuns job scs w1). cbn in *. by rewrite IH.
  - specialize (IH w). destruct (jobRuns job scs w). cbn in *. by rewrite IH.
Qed.

Lemma array_get_middle {A} (l1 l2 : list (option A)) x :
  array_get (l1 ++ x :: l2) (length l1) = x.
Proof.
  unfold array_get. rewrite list_lookup_middle by done. by destruct x.
Qed.

Lemma array_set_middle {A} (l1 l2 : list (option A)) x y :
  array_set (l1 ++ x :: l2) (length l1) y = l1 ++ Some y :: l2.
Proof.
  unfold array_set. rewrite decide_True by (rewrite length_app; cbn; lia).
  by rewrite insert_app_r_alt, Nat.sub_diag by lia.
Qed.

(** The batch loop over all the scenes, in terms of its jobs. *)
Lemma batch_loop job set merge setIdx round (p0 : Project) (o : StoryOutput)
    (k : nat) st w :
  (forall x st, project (setIdx x st) = project st) ->
  (forall i v p o', output p = Some o' ->
     merge i v p
     = with_scenes p o'
         (array_set (scenes o') i (set (spread (array_get (scenes o') i)) v))) ->
  (forall i st w,
     round i st w
     = match array_get (scenes o) i with
       | None => (setIdx (Some i) st, w)
       | Some scene =>
           match job scene w with
           | (Ok v, w') => (setProject (merge i v) (setIdx (Some i) st), w')
           | (Err _, w') => (setIdx (Some i) st, w')
           end
       end) ->
  output (project st) = Some o -> project st = p0 ->
  (k <= length (scenes o))%nat ->
  (forLoop round 0 k st w).2 = (jobRuns job (take k (scenes o)) w).2
  /\ project (forLoop round 0 k st w).1
     = with_scenes p0 o
         (apply_results set (take k (scenes o))
            (jobRuns job (take k (scenes o)) w).1
          ++ drop k (scenes o))
  /\ forLoop round 0 (length (scenes o)) st w
     = forLoop round k (length (scenes o) - k)
         (forLoop round 0 k st w).1 (forLoop round 0 k st w).2.
Proof.
  intros Hidx Hmerge Hround Hout Hp0 Hk.
  assert (Hlen : length (take k (scenes o)) = k) by (rewrite length_take; lia).
  pose proof (forLoop_add round k (length (scenes o) - k) 0 st w) as Hsplit.
  replace (k + (length (scenes o) - k))%nat with (length (scenes o)) in Hsplit
    by lia.
  revert st w Hout Hp0 Hsplit.
  cut (forall rest pre cur st w,
         scenes o = pre ++ take k rest ++ drop k rest ->
         length cur = length pre ->
         project st = with_scenes p0 o (cur ++ rest) ->
         (k <= length rest)%nat ->
         (forLoop round (length pre) k st w).2 = (jobRuns job (take k rest) w).2
         /\ project (forLoop round (length pre) k st w).1
            = with_scenes p0 o
                (cur ++ apply_results set (take k rest)
                          (jobRuns job (take k rest) w).1 ++ drop k rest)).
  { intros Hcut st w Hout Hp0 Hsplit.
    destruct (Hcut (scenes o) [] [] st w) as [H1 H2].
    - by rewrite take_drop.
    - done.
    - subst p0. by rewrite with_scenes_id.
    - done.
    - split; [done|]. split; [done|].
      rewrite Hsplit. by destruct (forLoop round 0 k st w). }
  clear Hk Hlen. induction k as [|k IH]; intros rest pre cur st w Hscs Hl Hp Hk.
  - cbn [forLoop take drop jobRuns]. by rewrite take_0, drop_0.
  - destruct rest as [|sc rest]; [cbn in Hk; lia|].
    cbn [forLoop take drop jobRuns length app] in *.
    rewrite Hround, Hscs, array_get_middle.
    assert (Hscs' : scenes o = (pre ++ [sc]) ++ take k rest ++ drop k rest)
      by (by rewrite Hscs, <- app_assoc).
    assert (Hl' : forall x : option Scene,
              length (cur ++ [x]) = length (pre ++ [sc]))
      by (intros; rewrite !length_app; cbn; lia).
    assert (Hk' : (k <= length rest)%nat) by lia.
    destruct sc as [s|]; [destruct (job s w) as [[v|e] w1]|].
    + assert (Hproj : project (setProject (merge (length pre) v)
                                 (setIdx (Some (length pre)) st))
                      = with_scenes p0 o ((cur ++ [Some (set s v)]) ++ rest)).
      { cbn [setProject project]. rewrite Hidx, Hp.
        erewrite Hmerge by reflexivity. cbn [scenes].
        rewrite <- Hl, array_get_middle, array_set_middle.
        cbn [spread default]. by rewrite <- app_assoc. }
      pose proof (IH rest (pre ++ [Some s]) _ _ w1 Hscs' (Hl' _) Hproj Hk')
        as [H1 H2].
      rewrite length_app, Nat.add_1_r in H1, H2.
      destruct (jobRuns job (take k rest) w1) as [rs wj].
      split; [done|]. rewrite H2. cbn. by rewrite <- app_assoc.
    + assert (Hproj : project (setIdx (Some (length pre)) st)
                      = with_scenes p0 o ((cur ++ [Some s]) ++ rest)).
      { rewrite Hidx, Hp. by rewrite <- app_assoc. }
      pose proof (IH rest (pre ++ [Some s]) _ _ w1 Hscs' (Hl' _) Hproj Hk')
        as [H1 H2].
      rewrite length_app, Nat.add_1_r in H1, H2.
      destruct (jobRuns job (take k rest) w1) as [rs wj].
      split; [done|]. rewrite H2. cbn. by rewrite <- app_assoc.
    + assert (Hproj : project (setIdx (Some (length pre)) st)
                      = with_scenes p0 o ((cur ++ [None]) ++ rest)).
      { rewrite Hidx, Hp. by rewrite <- app_assoc. }
      pose proof (IH rest (pre ++ [None]) _ _ w Hscs' (Hl' _) Hproj Hk')
        as [H1 H2].
      rewrite length_app, Nat.add_1_r in H1, H2.
      destruct (jobRuns job (take k rest) w) as [rs wj].
      split; [done|]. rewrite H2. cbn. by rewrite <- app_assoc.
Qed.


Lemma apply_results_length set scs rs :
  length rs = length scs -> length (apply_results set scs rs) = length scs.
Proof. intros Hl. unfold apply_results. rewrite length_zip_with. lia. Qed.

Lemma apply_results_ok set scs rs j s v :
  scs !! j = Some (Some s) -> rs !! j = Some (Some (Ok v)) ->
  apply_results set scs rs !! j = Some (Some (set s v)).
Proof.
  intros Hs Hr. unfold apply_results. rewrite lookup_zip_with, Hs. cbn.
  by rewrite Hr.
Qed.

Lemma apply_results_other set scs rs j :
  length rs = length scs ->
  (forall v, rs !! j <> Some (Some (Ok v))) ->
  apply_results set scs rs !! j = scs !! j.
Proof.
  intros Hl Hr. unfold apply_results. rewrite lookup_zip_with.
  destruct (scs !! j) as [sc|] eqn:Hs; [|done]. cbn.
  destruct (rs !! j) as [r|] eqn:Hrj.
  - cbn. destruct sc as [s|], r as [[v|e]|]; try done. by destruct (Hr v).
  - apply lookup_ge_None in Hrj. apply lookup_lt_Some in Hs. lia.
Qed.

(** A batch handler whose loop has the common shape of the two batches
    ends in the outcome of the batch. *)
Lemma batch_outcome_intro job set slot other merge setIdx round
    (finish : AppState -> AppState) (p : Project) (o : StoryOutput) st0 w :
  (forall x st, project (setIdx x st) = project st) ->
  (forall st, project (finish st) = project st) ->
  (forall s v, slot (set s v) = Some v /\ other (set s v) = other s
               /\ same_text s (set s v)) ->
  (forall i v p o', output p = Some o' ->
     merge i v p
     = with_scenes p o'
         (array_set (scenes o') i (set (spread (array_get (scenes o') i)) v))) ->
  (forall i st w,
     round i st w
     = match array_get (scenes o) i with
       | None => (setIdx (Some i) st, w)
       | Some scene =>
           match job scene w with
           | (Ok v, w') => (setProject (merge i v) (setIdx (Some i) st), w')
           | (Err _, w') => (setIdx (Some i) st, w')
           end
       end) ->
  output p = Some o -> project st0 = p ->
  batch_outcome job set slot other round p o st0 w
    (finish (forLoop round 0 (length (scenes o)) st0 w).1,
     (forLoop round 0 (length (scenes o)) st0 w).2).
Proof.
  intros Hidx Hfin Hset Hmerge Hround Hout Hp.
  assert (Hout' : output (project st0) = Some o) by (by rewrite Hp).
  pose proof (batch_loop job set merge setIdx round p o (length (scenes o))
                st0 w Hidx Hmerge Hround Hout' Hp (Nat.le_refl _))
    as (Hw & Hproj & _).
  rewrite firstn_all, drop_all, app_nil_r in Hproj. rewrite firstn_all in Hw.
  assert (Hlen : length (jobRuns job (scenes o) w).1 = length (scenes o))
    by apply jobRuns_length.
  unfold batch_outcome. cbn [fst snd]. rewrite Hfin.
  split; [done|]. split; [done|]. split; [done|].
  unfold scenes_of. rewrite Hproj. cbn [with_scenes output scenes].
  split.
  { intros j s v Hs Hr. exists (set s v).
    split; [by apply apply_results_ok|]. apply Hset. }
  split; [intros j; by apply apply_results_other|].
  intros k Hk.
  exact (batch_loop job set merge setIdx round p o k st0 w
           Hidx Hmerge Hround Hout' Hp Hk).
Qed.

Section Handlers.

Variable env : Platform.

Lemma handleGenerateAllAudio_outcome st w o :
  output (project st) = Some o ->
  batch_outcome (audioJob env (project st)) with_audioData audioData imageUrl
    (audioRound env (project st) o) (project st) o
    (setError None (setGeneratingAllAudio true st)) w
    (handleGenerateAllAudio env (project st) st w).
Proof.
  intros Hout. unfold handleGenerateAllAudio. rewrite Hout.
  pose proof (batch_outcome_intro (audioJob env (project st)) with_audioData
    audioData imageUrl audioMergeAll setAudioLoadingIndex (audioRound env (project st) o)
    (fun s => setGeneratingAllAudio false (setAudioLoadingIndex None s))
    (project st) o (setError None (setGeneratingAllAudio true st)) w) as H.
  destruct (forLoop (audioRound env (project st) o) 0 (length (scenes o))
              (setError None (setGeneratingAllAudio true st)) w) as [st' w'].
  apply H; try done.
  all: try (intros i v p o' Ho; unfold audioMergeAll; by rewrite Ho).
  all: intros i st1 w1; unfold audioRound, audioJob.
  all: destruct (array_get (scenes o) i); [|done].
  all: by destruct (generateSpeech _ _ _ _ _) as [[?|?] ?].
Qed.

Lemma handleGenerateAllImages_outcome st w o :
  output (project st) = Some o ->
  batch_outcome (imageJob env (project st)) with_imageUrl imageUrl audioData
    (imageRound env (project st) o) (project st) o
    (setError None (setGeneratingAllImages true st)) w
    (handleGenerateAllImages env (project st) st w).
Proof.
  intros Hout. unfold handleGenerateAllImages. rewrite Hout.
  pose proof (batch_outcome_intro (imageJob env (project st)) with_imageUrl
    imageUrl audioData imageMergeAll setImageLoadingIndex (imageRound env (project st) o)
    (fun s => setGeneratingAllImages false (setImageLoadingIndex None s))
    (project st) o (setError None (setGeneratingAllImages true st)) w) as H.
  destruct (forLoop (imageRound env (project st) o) 0 (length (scenes o))
              (setError None (setGeneratingAllImages true st)) w) as [st' w'].
  apply H; try done.
  all: try (intros i v p o' Ho; unfold imageMergeAll; by rewrite Ho).
  all: intros i st1 w1; unfold imageRound, imageJob.
  all: destruct (array_get (scenes o) i); [|done].
  all: by destruct (generateImage _ _ _ _ _ _ _) as [[?|?] ?].
Qed.

(** C6. A batch over the scenes of a story, all-audio or all-images: the
    jobs run strictly one after the other in ascending index order; the
    result of each job that succeeds is in the project state before the next
    round starts; a job that fails changes nothing and the loop goes on; and
    at the end every scene whose job succeeded holds its result, whatever
    happened to the other scenes: its audio slot (its image slot, for the
    images) reads the value the job returned, and its other slot and its
    text fields are as they were; every other scene is as it was. *)
Theorem batch_isolates_failures (st : AppState) (w : World) (o : StoryOutput) :
  output (project st) = Some o ->
  batch_outcome (audioJob env (project st)) with_audioData audioData imageUrl
    (audioRound env (project st) o) (project st) o
    (setError None (setGeneratingAllAudio true st)) w
    (handleGenerateAllAudio env (project st) st w)
  /\ batch_outcome (imageJob env (project st)) with_imageUrl imageUrl
       audioData (imageRound env (project st) o) (project st) o
       (setError None (setGeneratingAllImages true st)) w
       (handleGenerateAllImages env (project st) st w).
Proof.
  intros Hout. split.
  - by apply handleGenerateAllAudio_outcome.
  - by apply handleGenerateAllImages_outcome.
Qed.

End Handlers.
End BatchFacts.

Lemma batch_isolates_failures_witness :
  let env := platform service_second_odd (Some "key") [] in
  let final := handleGenerateAllAudio env (project state_three) state_three [] in
  let wav := base64_encode (wavHeader 24000 4 ++ [1; 2; 3; 4]) in
  output (project state_three) = Some story_three
  /\ (jobRuns (audioJob env (project state_three)) (scenes story_three) []).1
     = [Some (Ok wav); Some (Err oddLength); Some (Ok wav)]
  /\ (exists s', scenes_of (project final.1) !! 0%nat = Some (Some s')
        /\ audioData s' = Some wav
        /\ imageUrl s' = imageUrl (scene_n 1 "Lina finds a door.")
        /\ same_text (scene_n 1 "Lina finds a door.") s')
  /\ scenes_of (project final.1) !! 1%nat
     = Some (Some (scene_n 2 "Lina opens the door."))
  /\ (exists s', scenes_of (project final.1) !! 2%nat = Some (Some s')
        /\ audioData s' = Some wav
        /\ imageUrl s' = imageUrl (scene_n 3 "Lina steps inside.")
        /\ same_text (scene_n 3 "Lina steps inside.") s').
Proof.
  intros env final wav.
  assert (Hrs : (jobRuns (audioJob env (project state_three))
                   (scenes story_three) []).1
                = [Some (Ok wav); Some (Err oddLength); Some (Ok wav)])
    by (vm_compute; reflexivity).
  destruct (proj1 (batch_isolates_failures env state_three [] story_three
                     eq_refl)) as (_ & _ & _ & Hok & Hother & _).
  rewrite Hrs in Hok, Hother.
  split; [reflexivity|]. split; [exact Hrs|].
  split; [exact (Hok 0%nat _ wav eq_refl eq_refl)|].
  split; [|exact (Hok 2%nat _ wav eq_refl eq_refl)].
  refine (eq_trans (Hother 1%nat _) eq_refl). intros v H. discriminate H.
Defined.


(** ** ProjectStateMerger *)

Section MergeFacts.

Lemma array_get_Some {A} (l : list (option A)) i x :
  array_get l i = Some x <-> l !! i = Some (Some x).
Proof.
  unfold array_get. destruct (l !! i) as [[y|]|]; split; congruence.
Qed.

Lemma array_set_in_range {A} (l : list (option A)) i x y :
  array_get l i = Some y -> array_set l i x = <[i := Some x]> l.
Proof.
  intros H%array_get_Some%lookup_lt_Some. unfold array_set.
  by rewrite decide_True.
Qed.

Lemma same_but_scenes_refl p : same_but_scenes p p.
Proof. done. Qed.

Lemma same_but_scenes_with p o l :
  output p = Some o -> same_but_scenes p (with_scenes p o l).
Proof. intros Ho. unfold same_but_scenes. rewrite Ho. by destruct p. Qed.

Lemma single_scene_unchanged job slot other i w p :
  (forall s, array_get (scenes_of p) i = Some s ->
             exists e w', job s w = (Err e, w')) ->
  single_scene_outcome job slot other i w p p.
Proof.
  intros Hfail. split; [done|]. split; [done|]. split; [done|].
  split; [|done]. intros s Hs. exists s.
  destruct (Hfail s Hs) as (e & w' & ->). done.
Qed.

Lemma single_scene_replaced job (set : Scene -> string -> Scene) slot other
    i w p o s v w' :
  output p = Some o -> array_get (scenes o) i = Some s ->
  job s w = (Ok v, w') ->
  same_text s (set s v) -> other (set s v) = other s ->
  slot (set s v) = Some v ->
  single_scene_outcome job slot other i w p
    (with_scenes p o (array_set (scenes o) i (set s v))).
Proof.
  intros Ho Hs Hjob Htext Hother Hslot.
  rewrite (array_set_in_range _ _ _ _ Hs).
  split; [by apply same_but_scenes_with|].
  unfold scenes_of. rewrite Ho. cbn [with_scenes output scenes].
  split; [by rewrite length_insert|].
  split; [intros j Hj; by rewrite list_lookup_insert_ne|].
  split.
  - intros s0 Hs0. assert (s0 = s) as -> by congruence.
    exists (set s v). rewrite Hjob. repeat split; try done; try apply Htext.
    apply array_get_Some, list_lookup_insert_eq.
    by apply array_get_Some, lookup_lt_Some in Hs.
  - congruence.
Qed.

Section Handlers.

Variable env : Platform.

(** A single-scene handler, from the point where the call to the service
    was made: what is left is the part after the [await]. *)
Lemma handleGenerateAudio_settled project0 out i scene st w :
  output project0 = Some out -> array_get (scenes out) i = Some scene ->
  handleGenerateAudio env project0 i st w
  = (audioSettled i scene (audioJob env project0 scene w).1
       (setAudioLoadingIndex (Some i) st),
     (audioJob env project0 scene w).2).
Proof.
  intros Ho Hs. unfold handleGenerateAudio, audioJob. rewrite Ho, Hs.
  by destruct (generateSpeech _ _ _ _ _).
Qed.

Lemma handleGenerateImage_settled project0 out i scene st w :
  output project0 = Some out -> array_get (scenes out) i = Some scene ->
  handleGenerateImage env project0 i st w
  = (imageSettled i scene (imageJob env project0 scene w).1
       (setImageLoadingIndex (Some i) st),
     (imageJob env project0 scene w).2).
Proof.
  intros Ho Hs. unfold handleGenerateImage, imageJob. rewrite Ho, Hs.
  by destruct (generateImage _ _ _ _ _ _ _).
Qed.

(** A run of a single-scene handler that is started on the current project
    and during which no other update arrives. *)
Lemma handleGenerateAudio_alone st w i :
  single_scene_outcome (audioJob env (project st)) audioData imageUrl
    i w (project st)
    (project (handleGenerateAudio env (project st) i st w).1).
Proof.
  destruct (output (project st)) as [o|] eqn:Ho.
  2:{ unfold handleGenerateAudio. rewrite Ho. cbn [fst].
      apply single_scene_unchanged. intros s Hs.
      unfold scenes_of, array_get in Hs. by rewrite Ho, lookup_nil in Hs. }
  destruct (array_get (scenes o) i) as [s|] eqn:Hs.
  2:{ unfold handleGenerateAudio. rewrite Ho, Hs.
      cbn [fst project setAudioLoadingIndex setError].
      apply single_scene_unchanged. intros s Hs'.
      unfold scenes_of in Hs'. rewrite Ho in Hs'. congruence. }
  rewrite (handleGenerateAudio_settled _ o i s) by done.
  destruct (audioJob env (project st) s w) as [[v|e] w'] eqn:Hjob; cbn [fst].
  - cbn [audioSettled setAudioLoadingIndex setProject project].
    unfold audioMerge. rewrite Ho.
    by eapply (single_scene_replaced _ with_audioData).
  - cbn [audioSettled imageSettled project setAudioLoadingIndex
         setImageLoadingIndex setError].
    apply single_scene_unchanged. intros s0 Hs0.
    unfold scenes_of in Hs0. rewrite Ho in Hs0.
    assert (s0 = s) as -> by congruence. eauto.
Qed.

Lemma handleGenerateImage_alone st w i :
  single_scene_outcome (imageJob env (project st)) imageUrl audioData
    i w (project st)
    (project (handleGenerateImage env (project st) i st w).1).
Proof.
  destruct (output (project st)) as [o|] eqn:Ho.
  2:{ unfold handleGenerateImage. rewrite Ho. cbn [fst].
      apply single_scene_unchanged. intros s Hs.
      unfold scenes_of, array_get in Hs. by rewrite Ho, lookup_nil in Hs. }
  destruct (array_get (scenes o) i) as [s|] eqn:Hs.
  2:{ unfold handleGenerateImage. rewrite Ho, Hs.
      cbn [fst project setImageLoadingIndex setError].
      apply single_scene_unchanged. intros s Hs'.
      unfold scenes_of in Hs'. rewrite Ho in Hs'. congruence. }
  rewrite (handleGenerateImage_settled _ o i s) by done.
  destruct (imageJob env (project st) s w) as [[v|e] w'] eqn:Hjob; cbn [fst].
  - cbn [imageSettled setImageLoadingIndex setProject project].
    unfold imageMerge. rewrite Ho.
    by eapply (single_scene_replaced _ with_imageUrl).
  - cbn [audioSettled imageSettled project setAudioLoadingIndex
         setImageLoadingIndex setError].
    apply single_scene_unchanged. intros s0 Hs0.
    unfold scenes_of in Hs0. rewrite Ho in Hs0.
    assert (s0 = s) as -> by congruence. eauto.
Qed.

End Handlers.

(** Where the two families of updaters differ: the single-scene handlers
    write the scene they had read before the call, with the new slot; the
    batch handlers and the upload write the scene of the state they are
    applied to, with the new slot. *)
Lemma audioMerge_writes_captured i scene v p o cur :
  output p = Some o -> array_get (scenes o) i = Some cur ->
  array_get (scenes_of (audioMerge i scene v p)) i
  = Some (with_audioData scene v).
Proof.
  intros Ho Hcur. unfold audioMerge, scenes_of. rewrite Ho.
  cbn [with_scenes output scenes]. rewrite (array_set_in_range _ _ _ _ Hcur).
  apply array_get_Some, list_lookup_insert_eq.
  by apply array_get_Some, lookup_lt_Some in Hcur.
Qed.

Lemma imageMerge_writes_captured i scene v p o cur :
  output p = Some o -> array_get (scenes o) i = Some cur ->
  array_get (scenes_of (imageMerge i scene v p)) i
  = Some (with_imageUrl scene v).
Proof.
  intros Ho Hcur. unfold imageMerge, scenes_of. rewrite Ho.
  cbn [with_scenes output scenes]. rewrite (array_set_in_range _ _ _ _ Hcur).
  apply array_get_Some, list_lookup_insert_eq.
  by apply array_get_Some, lookup_lt_Some in Hcur.
Qed.

Lemma audioMergeAll_writes_current i v p o cur :
  output p = Some o -> array_get (scenes o) i = Some cur ->
  array_get (scenes_of (audioMergeAll i v p)) i = Some (with_audioData cur v).
Proof.
  intros Ho Hcur. unfold audioMergeAll, scenes_of. rewrite Ho.
  cbn [with_scenes output scenes].
  rewrite (array_set_in_range _ _ _ _ Hcur), Hcur.
  apply array_get_Some, list_lookup_insert_eq.
  by apply array_get_Some, lookup_lt_Some in Hcur.
Qed.

Lemma imageMergeAll_writes_current i v p o cur :
  output p = Some o -> array_get (scenes o) i = Some cur ->
  array_get (scenes_of (imageMergeAll i v p)) i = Some (with_imageUrl cur v).
Proof.
  intros Ho Hcur. unfold imageMergeAll, scenes_of. rewrite Ho.
  cbn [with_scenes output scenes].
  rewrite (array_set_in_range _ _ _ _ Hcur), Hcur.
  apply array_get_Some, list_lookup_insert_eq.
  by apply array_get_Some, lookup_lt_Some in Hcur.
Qed.

(** C8 fails on the code.  The audio job of scene 0 is started on
    [initialState] and reads [scene_voss]; while the call is pending an
    image lands in scene 0; when the call settles, the updater of
    [handleGenerateAudio] runs on that newer state and writes a copy of the
    scene as it was read before the call: the image is gone.  Likewise for
    the image job and an audio result that landed in between.  The updaters
    of the batch handlers and of the upload, which copy the element of the
    state they are applied to, keep it. *)
Lemma stale_scene_overwrites_newer_slot :
  let st0 := initialState in
  let st1 := imageUploaded 0 uploaded_image st0 in
  let st2 := audioSettled 0 scene_voss (Ok spoken_audio) st1 in
  let st1' := setProject (audioMergeAll 0 spoken_audio) st0 in
  let st2' := imageSettled 0 scene_voss (Ok uploaded_image) st1' in
  array_get (scenes_of (project st0)) 0 = Some scene_voss
  /\ imageUrl <$> array_get (scenes_of (project st1)) 0
     = Some (Some uploaded_image)
  /\ array_get (scenes_of (project st2)) 0
     = Some (with_audioData scene_voss spoken_audio)
  /\ imageUrl <$> array_get (scenes_of (project st2)) 0 = Some None
  /\ audioData <$> array_get (scenes_of (project st1')) 0
     = Some (Some spoken_audio)
  /\ audioData <$> array_get (scenes_of (project st2')) 0 = Some None
  /\ array_get (scenes_of (audioMergeAll 0 spoken_audio (project st1))) 0
     = Some (with_audioData (with_imageUrl scene_voss uploaded_image)
               spoken_audio).
Proof. repeat split. Qed.

(** C7 fails on the code, by the slip that C8 shows. The audio job of scene 0
    is started on [initialState] and reads [scene_voss]; while the call is
    pending the user goes back to the form and generates the script anew, and
    [generateScript] stores another story; when the call settles, the updater
    of [handleGenerateAudio] runs on that newer state and writes a copy of the
    scene as it was read before the call: scene 0 of the new story has the
    number, the narrative, the prompts and the names of the old one again.
    Likewise for the image job. The updater of the batch handlers, applied to
    the same state, keeps the text of the scene it finds. *)
Lemma stale_scene_replaces_text_fields :
  let env := platform service_harbour (Some "key")
               [(harbour_text, harbour_story)] in
  let st0 := initialState in
  let back := setProject (fun p => with_output p None) st0 in
  let st1 := (generateScript env (project back) en back []).1 in
  let st2 := audioSettled 0 scene_voss (Ok spoken_audio) st1 in
  let st3 := imageSettled 0 scene_voss (Ok uploaded_image) st1 in
  array_get (scenes_of (project st0)) 0 = Some scene_voss
  /\ array_get (scenes_of (project st1)) 0 = Some scene_harbour
  /\ array_get (scenes_of (project st2)) 0
     = Some (with_audioData scene_voss spoken_audio)
  /\ narrative <$> array_get (scenes_of (project st2)) 0
     = Some (Some "Voss locks the door.")
  /\ ~ same_text scene_harbour (with_audioData scene_voss spoken_audio)
  /\ array_get (scenes_of (project st3)) 0
     = Some (with_imageUrl scene_voss uploaded_image)
  /\ ~ same_text scene_harbour (with_imageUrl scene_voss uploaded_image)
  /\ array_get (scenes_of (audioMergeAll 0 spoken_audio (project st1))) 0
     = Some (with_audioData scene_harbour spoken_audio).
Proof.
  intros env st0 back st1 st2 st3.
  repeat match goal with |- _ /\ _ => split end;
    first [ reflexivity | intros (H & _); discriminate H ].
Qed.

End MergeFacts.

(** ** The model at work on concrete inputs *)

Example isRetryable_overloaded :
  isRetryable (Error "The model is overloaded. Please try again later.") = true.
Proof. reflexivity. Qed.

Example isRetryable_status_429 :
  isRetryable {| status := Some 429; message := None |} = true.
Proof. reflexivity. Qed.

Example isRetryable_missing_key :
  isRetryable (Error "Missing API Key. Please add one in Settings.") = false.
Proof. reflexivity. Qed.

Example isRetryable_oddLength : isRetryable oddLength = false.
Proof. reflexivity. Qed.

Example addWavHeader_two_samples :
  addWavHeader two_samples 24000
  = Ok [82; 73; 70; 70; 40; 0; 0; 0; 87; 65; 86; 69; 102; 109; 116; 32;
        16; 0; 0; 0; 1; 0; 1; 0; 192; 93; 0; 0; 128; 187; 0; 0; 2; 0; 16; 0;
        100; 97; 116; 97; 4; 0; 0; 0; 1; 2; 3; 255].
Proof. reflexivity. Qed.

Example samples_two_samples : samples two_samples = [513; -253].
Proof. reflexivity. Qed.

Example activeChars_voss :
  activeChars (platform service_400_503_ok (Some "key") []) project0 scene_voss
  = [dr_voss].
Proof. reflexivity. Qed.

Example batch_audio_slots :
  map (fun sc => bool_decide (is_Some (sc ≫= audioData)))
      (scenes_of (project (handleGenerateAllAudio
         (platform service_second_odd (Some "key") [])
         (project state_three) state_three []).1))
  = [true; false; true].
Proof. vm_compute. reflexivity. Qed.

(** * Further properties of the code *)

(** ** Credentials and effort of the services *)

Section RetryEffort.

Context {T : Type}.
Variables (fn : M T) (Q : Event -> Prop) (c : nat).
Hypothesis Qsleep : forall ms, Q (EvSleep ms).
Hypothesis Hfn : forall w, exists evs,
  (fn w).2 = w ++ evs /\ Forall Q evs /\ sleeps evs = [] /\ (calls evs <= c)%nat.

Lemma sleeps_app (w1 w2 : World) : sleeps (w1 ++ w2) = sleeps w1 ++ sleeps w2.
Proof. apply omap_app. Qed.

Lemma backoff_S delay k : backoff delay (S k) = delay :: backoff (delay * 2) k.
Proof.
  unfold backoff. cbn [seq map]. f_equal; [cbn; lia|].
  rewrite <- seq_shift, map_map. apply map_ext. intros j.
  rewrite Nat2Z.inj_succ, Z.pow_succ_r by lia. lia.
Qed.

(** Whatever the wrapped operation is, a run of the wrapper is at most
    [retries + 1] runs of it, separated by the waits of the backoff. *)
Lemma callWithRetry_effort retries : forall delay w, exists evs k,
  (callWithRetry fn retries delay w).2 = w ++ evs
  /\ Forall Q evs /\ (k <= retries)%nat
  /\ sleeps evs = backoff delay k /\ (calls evs <= c * S k)%nat.
Proof.
  induction retries as [|r IH]; intros delay w;
    rewrite callWithRetry_unfold;
    destruct (Hfn w) as (evs & Hw & HQ & Hs & Hc);
    destruct (fn w) as [[v|e] w1] eqn:E; cbn [snd] in Hw; subst w1.
  - exists evs, 0%nat. cbn [snd]. repeat split; auto; lia.
  - exists evs, 0%nat. cbn [snd]. repeat split; auto; lia.
  - exists evs, 0%nat. cbn [snd]. repeat split; auto; lia.
  - destruct (isRetryable e).
    + destruct (IH (delay * 2) ((w ++ evs) ++ [EvSleep delay]))
        as (evs' & k & Hw' & HQ' & Hk & Hs' & Hc').
      exists (evs ++ [EvSleep delay] ++ evs'), (S k).
      rewrite Hw'. repeat split.
      * by rewrite <- !app_assoc.
      * apply Forall_app; split; [done|]. apply Forall_app; split; [|done].
        by apply Forall_singleton.
      * lia.
      * rewrite !sleeps_app, Hs, Hs', backoff_S. reflexivity.
      * rewrite !calls_app.
        change (calls [EvSleep delay]) with 0%nat. lia.
    + exists evs, 0%nat. cbn [snd]. repeat split; auto; lia.
Qed.

End RetryEffort.

Section ServiceFacts.

Variable env : Platform.

Lemma getAI_missing apiKey :
  truthy_opt apiKey = false -> truthy_opt (env_API_KEY env) = false ->
  getAI env apiKey = Err missingKey.
Proof.
  intros H1 H2. unfold getAI. rewrite H1.
  destruct (env_API_KEY env) as [k|]; [|done].
  cbn in H2. by rewrite H2.
Qed.

Lemma getAI_Ok apiKey ai :
  getAI env apiKey = Ok ai ->
  truthy ai = true
  /\ (forall k, apiKey = Some k -> truthy k = true -> ai = k)
  /\ (truthy_opt apiKey = false -> env_API_KEY env = Some ai).
Proof.
  unfold getAI. intros H.
  destruct (truthy_opt apiKey) eqn:E.
  - destruct apiKey as [k|]; [|done]. cbn in E. rewrite E in H.
    simplify_eq. split; [done|]. split; [|done]. by intros ? [= ->].
  - destruct (env_API_KEY env) as [k|]; [|done].
    destruct (truthy k) eqn:E'; [|done]. simplify_eq.
    split; [done|]. split; [|done].
    intros k' -> Hk. cbn in E. congruence.
Qed.

Lemma getAI_cases apiKey :
  (exists ai, getAI env apiKey = Ok ai) \/ getAI env apiKey = Err missingKey.
Proof.
  unfold getAI.
  destruct (if truthy_opt apiKey then apiKey else env_API_KEY env) as [k|];
    [destruct (truthy k)|]; eauto.
Qed.

(** The events that one attempt of each service adds. *)
Lemma storyAttempt_events config voice style apiKey w :
  (getAI env apiKey = Err missingKey
   /\ storyAttempt env config voice style apiKey w = (Err missingKey, w))
  \/ exists ai, getAI env apiKey = Ok ai
       /\ (storyAttempt env config voice style apiKey w).2
          = w ++ [EvCall (storyRequest ai config style)].
Proof.
  unfold storyAttempt, bind, lift, generateContent, throw.
  destruct (getAI_cases apiKey) as [[ai ->]| ->]; [right|left; done].
  exists ai. split; [done|].
  destruct (service env (calls w) _) as [response|e]; [|done].
  destruct (text response) as [t|]; [|done]. by destruct (truthy t).
Qed.

Lemma speechAttempt_events voices noAudio text voiceType apiKey w :
  (getAI env apiKey = Err missingKey
   /\ speechAttemptWith env voices noAudio text voiceType apiKey w
      = (Err missingKey, w))
  \/ exists ai, getAI env apiKey = Ok ai
       /\ (speechAttemptWith env voices noAudio text voiceType apiKey w).2
          = w ++ [EvCall (speechRequest voices ai text voiceType)].
Proof.
  unfold speechAttemptWith, bind, lift, generateContent, throw, ret.
  destruct (getAI_cases apiKey) as [[ai ->]| ->]; [right|left; done].
  exists ai. split; [done|].
  destruct (service env (calls w) _) as [response|e]; [|done].
  destruct (firstInlineData response) as [t|]; [|done].
  destruct (truthy t); [|done].
  destruct (atob env t) as [b|]; [|done].
  destruct (newInt16Array _) as [pcm|]; [|done].
  by destruct (addWavHeader pcm 24000).
Qed.

Lemma imageAttempt_events basePrompt settings style apiKey chars w :
  (getAI env apiKey = Err missingKey
   /\ imageAttempt env basePrompt settings style apiKey chars w
      = (Err missingKey, w))
  \/ exists ai evs, getAI env apiKey = Ok ai
       /\ (imageAttempt env basePrompt settings style apiKey chars w).2
          = w ++ evs
       /\ let prompt := finalPrompt basePrompt style chars in
          (evs = [EvCall (proRequest ai prompt settings)]
           \/ evs = [EvCall (proRequest ai prompt settings);
                     EvCall (flashRequest ai prompt settings)]).
Proof.
  destruct (getAI_cases apiKey) as [[ai Hai]| Hm].
  - right. rewrite (imageAttempt_eq env _ _ _ _ _ ai Hai).
    destruct (imageOutcome env (calls w) _); eauto 10.
  - left. split; [done|]. unfold imageAttempt, bind, lift. by rewrite Hm.
Qed.

Lemma retry_missing {T} (fn : M T) w retries delay :
  fn w = (Err missingKey, w) ->
  callWithRetry fn retries delay w = (Err missingKey, w).
Proof.
  intros H. apply callWithRetry_first; [done|]. right. reflexivity.
Qed.

Lemma retry_settles {T} (fn : M T) w e w' :
  fn w = (Err e, w') -> isRetryable e = false ->
  callWithRetry fn default_retries default_delay w = (Err e, w').
Proof. intros H He. apply callWithRetry_first; [done|]. by right. Qed.

Lemma retry_again {T} (fn : M T) w e w' :
  fn w = (Err e, w') -> isRetryable e = true ->
  callWithRetry fn default_retries default_delay w
  = callWithRetry fn 2 2000 (w' ++ [EvSleep 1000]).
Proof.
  intros H He. unfold default_retries, default_delay.
  rewrite callWithRetry_unfold, H, He. reflexivity.
Qed.

Lemma generateSpeech_missing voices noAudio text voiceType apiKey w :
  getAI env apiKey = Err missingKey ->
  callWithRetry (speechAttemptWith env voices noAudio text voiceType apiKey)
    default_retries default_delay w = (Err missingKey, w).
Proof.
  intros Hm. apply retry_missing.
  destruct (speechAttempt_events voices noAudio text voiceType apiKey w)
    as [[_ ?]|(ai & ? & _)]; [done|congruence].
Qed.

Lemma generateImage_missing basePrompt settings style apiKey chars w :
  getAI env apiKey = Err missingKey ->
  generateImage env basePrompt settings style apiKey chars w
  = (Err missingKey, w).
Proof.
  intros Hm. apply retry_missing.
  destruct (imageAttempt_events basePrompt settings style apiKey chars w)
    as [[_ ?]|(ai & ? & ? & _)]; [done|congruence].
Qed.

(** X1. With no credential, neither the per-project key nor the
    process-level key (absent or empty), every generation service rejects
    at once with the error of [getAI]: the external service is not called,
    and the retry wrapper neither waits nor runs the operation again. *)
Theorem missing_credential_fails_at_once
    (config : StoryConfig) (voice : VoiceConfig) (style : ImageStyleConfig)
    (text basePrompt : option string) (voiceType : string)
    (settings : MediaSettings) (chars : list Character)
    (apiKey : option string) (w : World) :
  truthy_opt apiKey = false -> truthy_opt (env_API_KEY env) = false ->
  generateStory env config voice style apiKey w = (Err missingKey, w)
  /\ generateSpeech env text voiceType apiKey w = (Err missingKey, w)
  /\ generateSpeech_v1 env text voiceType apiKey w = (Err missingKey, w)
  /\ generateImage env basePrompt settings style apiKey chars w
     = (Err missingKey, w).
Proof.
  intros H1 H2. pose proof (getAI_missing _ H1 H2) as Hm.
  split; [|split; [|split]].
  - apply retry_missing.
    destruct (storyAttempt_events config voice style apiKey w)
      as [[_ ?]|(ai & ? & _)]; [done|congruence].
  - by apply generateSpeech_missing.
  - by apply generateSpeech_missing.
  - by apply generateImage_missing.
Qed.

(** The effort of each attempt, in the form that [callWithRetry_effort]
    takes. *)
Lemma story_step config voice style apiKey ai :
  getAI env apiKey = Ok ai ->
  forall w, exists evs,
    (storyAttempt env config voice style apiKey w).2 = w ++ evs
    /\ Forall (carries_key ai) evs /\ sleeps evs = [] /\ (calls evs <= 1)%nat.
Proof.
  intros Hai w.
  destruct (storyAttempt_events config voice style apiKey w)
    as [[? _]|(ai' & ? & ->)]; [congruence|].
  assert (ai' = ai) as -> by congruence.
  eexists. split; [done|]. split; [by apply Forall_singleton|].
  split; [done|rewrite ?calls_cons_call; change (calls []) with 0%nat; lia].
Qed.

Lemma speech_step voices noAudio text voiceType apiKey ai :
  getAI env apiKey = Ok ai ->
  forall w, exists evs,
    (speechAttemptWith env voices noAudio text voiceType apiKey w).2 = w ++ evs
    /\ Forall (carries_key ai) evs /\ sleeps evs = [] /\ (calls evs <= 1)%nat.
Proof.
  intros Hai w.
  destruct (speechAttempt_events voices noAudio text voiceType apiKey w)
    as [[? _]|(ai' & ? & ->)]; [congruence|].
  assert (ai' = ai) as -> by congruence.
  eexists. split; [done|]. split; [by apply Forall_singleton|].
  split; [done|rewrite ?calls_cons_call; change (calls []) with 0%nat; lia].
Qed.

Lemma image_step basePrompt settings style apiKey chars ai :
  getAI env apiKey = Ok ai ->
  forall w, exists evs,
    (imageAttempt env basePrompt settings style apiKey chars w).2 = w ++ evs
    /\ Forall (carries_key ai) evs /\ sleeps evs = [] /\ (calls evs <= 2)%nat.
Proof.
  intros Hai w.
  destruct (imageAttempt_events basePrompt settings style apiKey chars w)
    as [[? _]|(ai' & evs & ? & -> & Hevs)]; [congruence|].
  assert (ai' = ai) as -> by congruence.
  exists evs. split; [done|]. cbn in Hevs.
  destruct Hevs as [-> | ->];
    (split; [repeat constructor|]; split;
     [done|rewrite ?calls_cons_call; change (calls []) with 0%nat; lia]).
Qed.

Lemma missing_step {T} (fn : M T) (Q : Event -> Prop) (c : nat) :
  (forall w, fn w = (Err missingKey, w)) ->
  forall w, exists evs,
    (fn w).2 = w ++ evs
    /\ Forall Q evs /\ sleeps evs = [] /\ (calls evs <= c)%nat.
Proof.
  intros H w. exists []. rewrite H, app_nil_r.
  split; [done|]. split; [constructor|].
  split; [done|change (calls []) with 0%nat; lia].
Qed.

Lemma step_weaken {T} (fn : M T) (Q Q' : Event -> Prop) c :
  (forall e, Q e -> Q' e) ->
  (forall w, exists evs,
     (fn w).2 = w ++ evs /\ Forall Q evs /\ sleeps evs = []
     /\ (calls evs <= c)%nat) ->
  forall w, exists evs,
     (fn w).2 = w ++ evs /\ Forall Q' evs /\ sleeps evs = []
     /\ (calls evs <= c)%nat.
Proof.
  intros HQ H w. destruct (H w) as (evs & ? & ? & ? & ?).
  exists evs. split; [done|]. split; [by eapply Forall_impl|]. done.
Qed.

Lemma backoff_prefix k :
  (k <= 3)%nat -> backoff 1000 k `prefix_of` [1000; 2000; 4000].
Proof.
  intros Hk. exists (drop k [1000; 2000; 4000]).
  destruct k as [|[|[|[|]]]]; try lia; reflexivity.
Qed.

Lemma backoff_length d k : length (backoff d k) = k.
Proof. unfold backoff. by rewrite length_map, length_seq. Qed.

Lemma backoff_total k :
  (k <= 3)%nat -> foldr Z.add 0 (backoff 1000 k) <= 7000.
Proof.
  intros Hk. destruct k as [|[|[|[|]]]]; try lia; vm_compute; discriminate.
Qed.

Lemma effort_bounded {T} (fn : M T) (Q : Event -> Prop) c w :
  (forall ms, Q (EvSleep ms)) ->
  (forall w, exists evs,
     (fn w).2 = w ++ evs /\ Forall Q evs /\ sleeps evs = []
     /\ (calls evs <= c)%nat) ->
  exists evs,
    (callWithRetry fn default_retries default_delay w).2 = w ++ evs
    /\ Forall Q evs
    /\ bounded_effort c evs /\ (calls evs <= c * 4)%nat
    /\ total_wait evs <= 7000.
Proof.
  intros Hs Hfn.
  destruct (callWithRetry_effort fn Q c Hs Hfn default_retries default_delay w)
    as (evs & k & Hw & HQ & Hk & Hsl & Hc).
  unfold default_retries in Hk. exists evs. split; [done|]. split; [done|].
  split; [|split].
  - split; [rewrite Hsl; by apply backoff_prefix|].
    by rewrite Hsl, backoff_length.
  - nia.
  - unfold total_wait. rewrite Hsl. by apply backoff_total.
Qed.

Lemma effort_any {T} (fn : M T) c w :
  (forall w, exists evs,
     (fn w).2 = w ++ evs /\ Forall (fun _ => True) evs /\ sleeps evs = []
     /\ (calls evs <= c)%nat) ->
  exists evs,
    (callWithRetry fn default_retries default_delay w).2 = w ++ evs
    /\ bounded_effort c evs /\ (calls evs <= c * 4)%nat
    /\ total_wait evs <= 7000.
Proof.
  intros Hfn.
  destruct (effort_bounded fn (fun _ => True) c w) as (evs & ? & _ & ?);
    [done|done|]. by exists evs.
Qed.

Lemma story_step_any config voice style apiKey :
  forall w, exists evs,
    (storyAttempt env config voice style apiKey w).2 = w ++ evs
    /\ Forall (fun _ => True) evs /\ sleeps evs = [] /\ (calls evs <= 1)%nat.
Proof.
  destruct (getAI_cases apiKey) as [[ai Hai]|Hm].
  - eapply step_weaken; [done|]. by apply story_step.
  - apply missing_step. intros w.
    destruct (storyAttempt_events config voice style apiKey w)
      as [[_ ?]|(ai & ? & _)]; [done|congruence].
Qed.

Lemma speech_step_any voices noAudio text voiceType apiKey :
  forall w, exists evs,
    (speechAttemptWith env voices noAudio text voiceType apiKey w).2 = w ++ evs
    /\ Forall (fun _ => True) evs /\ sleeps evs = [] /\ (calls evs <= 1)%nat.
Proof.
  destruct (getAI_cases apiKey) as [[ai Hai]|Hm].
  - eapply step_weaken; [done|]. by apply speech_step.
  - apply missing_step. intros w.
    destruct (speechAttempt_events voices noAudio text voiceType apiKey w)
      as [[_ ?]|(ai & ? & _)]; [done|congruence].
Qed.

Lemma image_step_any basePrompt settings style apiKey chars :
  forall w, exists evs,
    (imageAttempt env basePrompt settings style apiKey chars w).2 = w ++ evs
    /\ Forall (fun _ => True) evs /\ sleeps evs = [] /\ (calls evs <= 2)%nat.
Proof.
  destruct (getAI_cases apiKey) as [[ai Hai]|Hm].
  - eapply step_weaken; [done|]. by apply image_step.
  - apply missing_step. intros w.
    destruct (imageAttempt_events basePrompt settings style apiKey chars w)
      as [[_ ?]|(ai & ? & ? & _)]; [done|congruence].
Qed.

Lemma generateSpeech_effort text voiceType apiKey w :
  exists evs,
    (generateSpeech env text voiceType apiKey w).2 = w ++ evs
    /\ bounded_effort 1 evs /\ (calls evs <= 4)%nat /\ total_wait evs <= 7000.
Proof. apply (effort_any _ 1), speech_step_any. Qed.

Lemma generateImage_effort basePrompt settings style apiKey chars w :
  exists evs,
    (generateImage env basePrompt settings style apiKey chars w).2 = w ++ evs
    /\ bounded_effort 2 evs /\ (calls evs <= 8)%nat /\ total_wait evs <= 7000.
Proof. apply (effort_any _ 2), image_step_any. Qed.

(** X2. The key a request carries.  When a client can be built, its key is
    the per-project key if that is a non-empty string, and the process-level
    key otherwise; and every request that a generation service sends, on
    every attempt and at either image tier, carries that key. *)
Theorem requests_carry_effective_key
    (config : StoryConfig) (voice : VoiceConfig) (style : ImageStyleConfig)
    (text basePrompt : option string) (voiceType : string)
    (settings : MediaSettings) (chars : list Character)
    (apiKey : option string) (ai : string) (w : World) :
  getAI env apiKey = Ok ai ->
  (forall k, apiKey = Some k -> truthy k = true -> ai = k)
  /\ (truthy_opt apiKey = false -> env_API_KEY env = Some ai)
  /\ (exists evs,
        (generateStory env config voice style apiKey w).2 = w ++ evs
        /\ forall req, EvCall req ∈ evs -> req_apiKey req = ai)
  /\ (exists evs,
        (generateSpeech env text voiceType apiKey w).2 = w ++ evs
        /\ forall req, EvCall req ∈ evs -> req_apiKey req = ai)
  /\ (exists evs,
        (generateSpeech_v1 env text voiceType apiKey w).2 = w ++ evs
        /\ forall req, EvCall req ∈ evs -> req_apiKey req = ai)
  /\ (exists evs,
        (generateImage env basePrompt settings style apiKey chars w).2 = w ++ evs
        /\ forall req, EvCall req ∈ evs -> req_apiKey req = ai).
Proof.
  intros Hai. destruct (getAI_Ok _ _ Hai) as (_ & H1 & H2).
  split; [done|]. split; [done|].
  assert (forall {T} (fn : M T) c,
    (forall w, exists evs, (fn w).2 = w ++ evs /\ Forall (carries_key ai) evs
        /\ sleeps evs = [] /\ (calls evs <= c)%nat) ->
    exists evs, (callWithRetry fn default_retries default_delay w).2 = w ++ evs
      /\ forall req, EvCall req ∈ evs -> req_apiKey req = ai) as Hgen.
  { intros T fn c Hfn.
    destruct (effort_bounded fn (carries_key ai) c w) as (evs & ? & HQ & _);
      [done|done|].
    exists evs. split; [done|]. intros req Hin.
    rewrite Forall_forall in HQ. apply (HQ _ Hin). }
  split; [|split; [|split]].
  - apply (Hgen _ _ 1%nat). by apply story_step.
  - apply (Hgen _ _ 1%nat). by apply speech_step.
  - apply (Hgen _ _ 1%nat). by apply speech_step.
  - apply (Hgen _ _ 2%nat). by apply image_step.
Qed.

(** X3. The effort of one job is bounded, whatever the service answers:
    a script or a speech job calls the service at most 4 times and an image
    job at most 8 times (two tiers per attempt); the waits are the first of
    1000, 2000 and 4000 ms, so a job waits at most 7 seconds in all, and
    the calls number at most one (two for an image) per attempt. *)
Theorem service_effort_is_bounded
    (config : StoryConfig) (voice : VoiceConfig) (style : ImageStyleConfig)
    (text basePrompt : option string) (voiceType : string)
    (settings : MediaSettings) (chars : list Character)
    (apiKey : option string) (w : World) :
  (exists evs,
     (generateStory env config voice style apiKey w).2 = w ++ evs
     /\ bounded_effort 1 evs /\ (calls evs <= 4)%nat /\ total_wait evs <= 7000)
  /\ (exists evs,
        (generateSpeech env text voiceType apiKey w).2 = w ++ evs
        /\ bounded_effort 1 evs /\ (calls evs <= 4)%nat
        /\ total_wait evs <= 7000)
  /\ (exists evs,
        (generateSpeech_v1 env text voiceType apiKey w).2 = w ++ evs
        /\ bounded_effort 1 evs /\ (calls evs <= 4)%nat
        /\ total_wait evs <= 7000)
  /\ (exists evs,
        (generateImage env basePrompt settings style apiKey chars w).2 = w ++ evs
        /\ bounded_effort 2 evs /\ (calls evs <= 8)%nat
        /\ total_wait evs <= 7000).
Proof.
  split; [|split; [|split]].
  - apply (effort_any _ 1), story_step_any.
  - apply generateSpeech_effort.
  - apply (effort_any _ 1), speech_step_any.
  - apply generateImage_effort.
Qed.

End ServiceFacts.

Lemma missing_credential_fails_at_once_witness :
  generateStory (platform service_short_story None []) config0 voice0 style0
    (Some "") []
  = (Err missingKey, [])
  /\ generateSpeech (platform service_short_story None []) (Some "Hello")
       "woman" (Some "") []
     = (Err missingKey, []).
Proof.
  destruct (missing_credential_fails_at_once
              (platform service_short_story None []) config0 voice0 style0
              (Some "Hello") None "woman" settings0 [] (Some "") []
              eq_refl eq_refl) as (H1 & H2 & _).
  exact (conj H1 H2).
Defined.

Lemma requests_carry_effective_key_witness :
  getAI (platform service_400_503_ok (Some "env-key") []) (Some "project-key")
  = Ok "project-key"
  /\ exists evs,
       (generateImage (platform service_400_503_ok (Some "env-key") [])
          (Some "A cat") settings0 style0 (Some "project-key") [] []).2
       = [] ++ evs
       /\ forall req, EvCall req ∈ evs -> req_apiKey req = "project-key".
Proof.
  split; [reflexivity|].
  apply (requests_carry_effective_key
           (platform service_400_503_ok (Some "env-key") [])
           config0 voice0 style0 None (Some "A cat") "man_soft" settings0 []
           (Some "project-key") "project-key" [] eq_refl).
Defined.

(** ** Responses that the services reject *)

Section ResponseFacts.

Variable env : Platform.

(** X4. A response that cannot serve as a script.  When a credential is
    available and the service answers the first call: a response whose
    text is missing or empty makes [generateStory] reject with 'No text
    returned from Gemini.' after that single call; a text that
    [JSON.parse] rejects makes it reject with the error of the parser,
    unless the wrapper classifies that error as transient (its message
    holds '429', '503' or 'overloaded'), in which case the request is sent
    again after 1000 ms.  An error of the service that is not transient is
    surfaced after the single call. *)
Theorem story_rejects_unusable_response
    (config : StoryConfig) (voice : VoiceConfig) (style : ImageStyleConfig)
    (apiKey : option string) (ai : string) (w : World) :
  getAI env apiKey = Ok ai ->
  let req := storyRequest ai config style in
  let gen := generateStory env config voice style apiKey in
  (forall response,
     service env (calls w) req = Ok response ->
     truthy_opt (text response) = false ->
     gen w = (Err (Error "No text returned from Gemini."), w ++ [EvCall req]))
  /\ (forall response t e,
        service env (calls w) req = Ok response ->
        text response = Some t -> truthy t = true ->
        JSON_parse env t = Err e ->
        (isRetryable e = false -> gen w = (Err e, w ++ [EvCall req]))
        /\ (isRetryable e = true ->
            gen w = callWithRetry (storyAttempt env config voice style apiKey)
                      2 2000 (w ++ [EvCall req; EvSleep 1000])))
  /\ (forall e,
        service env (calls w) req = Err e -> isRetryable e = false ->
        gen w = (Err e, w ++ [EvCall req])).
Proof.
  intros Hai req gen.
  assert (forall r, service env (calls w) req = r ->
    storyAttempt env config voice style apiKey w
    = (match r with
       | Ok response =>
           match text response with
           | Some t => if truthy t then JSON_parse env t
                       else Err (Error "No text returned from Gemini.")
           | None => Err (Error "No text returned from Gemini.")
           end
       | Err e => Err e
       end, w ++ [EvCall req])) as Hatt.
  { intros r Hr. unfold storyAttempt, bind, lift, generateContent, throw.
    rewrite Hai. fold req. rewrite Hr. destruct r as [response|e]; [|done].
    destruct (text response) as [t|]; [|done]. by destruct (truthy t). }
  split; [|split].
  - intros response Hr Ht. apply retry_settles; [|done].
    rewrite (Hatt _ Hr). cbv beta iota.
    destruct (text response) as [t|]; [|done].
    cbn in Ht. by rewrite Ht.
  - intros response t e Hr Ht Htt He. pose proof (Hatt _ Hr) as H.
    cbv beta iota in H. rewrite Ht, Htt, He in H. split; intros Hre.
    + by apply retry_settles.
    + unfold gen, generateStory. rewrite (retry_again _ _ _ _ H Hre).
      by rewrite <- app_assoc.
  - intros e Hr He. apply retry_settles; [|done]. by rewrite (Hatt _ Hr).
Qed.

Lemma speechAttempt_unusable voices noAudio text voiceType apiKey ai w :
  getAI env apiKey = Ok ai ->
  let req := speechRequest voices ai text voiceType in
  let fn := speechAttemptWith env voices noAudio text voiceType apiKey in
  (forall response,
     service env (calls w) req = Ok response ->
     truthy_opt (firstInlineData response) = false ->
     fn w = (Err (Error noAudio), w ++ [EvCall req]))
  /\ (forall response b e,
        service env (calls w) req = Ok response ->
        firstInlineData response = Some b -> truthy b = true ->
        atob env b = Err e ->
        fn w = (Err e, w ++ [EvCall req]))
  /\ (forall e,
        service env (calls w) req = Err e ->
        fn w = (Err e, w ++ [EvCall req])).
Proof.
  intros Hai req fn.
  split; [|split].
  - intros response Hr Hd.
    unfold fn, speechAttemptWith, bind, lift, generateContent, throw.
    rewrite Hai. fold req. rewrite Hr.
    destruct (firstInlineData response) as [b|]; [|done].
    cbn in Hd. by rewrite Hd.
  - intros response b e Hr Hb Hbt He.
    unfold fn, speechAttemptWith, bind, lift, generateContent, throw.
    rewrite Hai. fold req. rewrite Hr, Hb, Hbt, He. done.
  - intros e Hr.
    unfold fn, speechAttemptWith, bind, lift, generateContent, throw.
    rewrite Hai. fold req. by rewrite Hr.
Qed.

(** X5. A response that cannot serve as speech, in both versions of
    [generateSpeech].  When a credential is available and the service
    answers the first call with a response whose first part of the first
    candidate carries no inline data, or empty data, the job rejects with
    the missing-audio error of that version after that single call; a
    payload that [atob] rejects, and an error of the service, are surfaced
    after the single call when they are not transient. *)
Theorem speech_rejects_unusable_response
    (text : option string) (voiceType : string) (apiKey : option string)
    (ai : string) (w : World) (response : Response) :
  getAI env apiKey = Ok ai ->
  let req := speechRequest voiceName ai text voiceType in
  let req_v1 := speechRequest voiceName_v1 ai text voiceType in
  (service env (calls w) req = Ok response ->
   (truthy_opt (firstInlineData response) = false ->
    generateSpeech env text voiceType apiKey w
    = (Err (Error "No audio"), w ++ [EvCall req]))
   /\ (forall b e,
         firstInlineData response = Some b -> truthy b = true ->
         atob env b = Err e -> isRetryable e = false ->
         generateSpeech env text voiceType apiKey w
         = (Err e, w ++ [EvCall req])))
  /\ (service env (calls w) req_v1 = Ok response ->
      (truthy_opt (firstInlineData response) = false ->
       generateSpeech_v1 env text voiceType apiKey w
       = (Err (Error "No audio data returned from Gemini."),
          w ++ [EvCall req_v1]))
      /\ (forall b e,
            firstInlineData response = Some b -> truthy b = true ->
            atob env b = Err e -> isRetryable e = false ->
            generateSpeech_v1 env text voiceType apiKey w
            = (Err e, w ++ [EvCall req_v1])))
  /\ (forall e, isRetryable e = false ->
        (service env (calls w) req = Err e ->
         generateSpeech env text voiceType apiKey w
         = (Err e, w ++ [EvCall req]))
        /\ (service env (calls w) req_v1 = Err e ->
            generateSpeech_v1 env text voiceType apiKey w
            = (Err e, w ++ [EvCall req_v1]))).
Proof.
  intros Hai req req_v1.
  destruct (speechAttempt_unusable voiceName "No audio" text voiceType
              apiKey ai w Hai) as (A1 & A2 & A3).
  destruct (speechAttempt_unusable voiceName_v1
              "No audio data returned from Gemini." text voiceType
              apiKey ai w Hai) as (B1 & B2 & B3).
  split; [|split].
  - intros Hr. split.
    + intros Hd. apply retry_settles; [|done]. by apply (A1 response).
    + intros b e Hb Hbt He Hre. apply retry_settles; [|done].
      by apply (A2 response b).
  - intros Hr. split.
    + intros Hd. apply retry_settles; [|done]. by apply (B1 response).
    + intros b e Hb Hbt He Hre. apply retry_settles; [|done].
      by apply (B2 response b).
  - intros e Hre. split; intros Hr; (apply retry_settles; [|done]).
    + by apply A3.
    + by apply B3.
Qed.

(** The scan of the parts and of the candidates. *)
Lemma firstImagePart_spec ps url :
  firstImagePart ps = Some url <->
  exists l1 part l2 d, ps = l1 ++ part :: l2
    /\ Forall (fun p => inlineData p = None) l1
    /\ inlineData part = Some d /\ url = dataUrl d.
Proof.
  split.
  - induction ps as [|p ps IH]; [done|]. cbn [firstImagePart].
    destruct (inlineData p) as [d|] eqn:E.
    + intros [= <-]. by exists [], p, ps, d.
    + intros H. destruct (IH H) as (l1 & part & l2 & d & -> & ? & ? & ?).
      exists (p :: l1), part, l2, d. split; [done|]. split; [|done].
      by constructor.
  - intros (l1 & part & l2 & d & -> & Hl1 & Hd & ->).
    induction Hl1 as [|p l1 Hp _ IH]; cbn [app firstImagePart].
    + by rewrite Hd.
    + by rewrite Hp.
Qed.

Lemma firstImagePart_None ps :
  firstImagePart ps = None <-> Forall (fun p => inlineData p = None) ps.
Proof.
  induction ps as [|p ps IH]; cbn [firstImagePart].
  - split; [constructor|done].
  - destruct (inlineData p) eqn:E.
    + split; [done|]. intros H. inversion H; congruence.
    + rewrite IH. split; [by constructor|]. by inversion 1.
Qed.

Lemma scanCandidates_spec cands url :
  scanCandidates cands = Ok url <->
  exists d, first_image cands d /\ url = dataUrl d.
Proof.
  split.
  - induction cands as [|cand cands IH]; [done|]. cbn [scanCandidates].
    destruct (content cand) as [c|] eqn:Ec; [|done].
    destruct (parts c) as [ps|] eqn:Ep; [|done].
    destruct (firstImagePart ps) as [u|] eqn:Ef.
    + intros [= <-]. apply firstImagePart_spec in Ef
        as (l1 & part & l2 & d & -> & ? & ? & ->).
      exists d. split; [|done]. by exists [], cand, cands, c, l1, part, l2.
    + intros H. destruct (IH H)
        as (d & (c1 & cand' & c2 & c' & l1 & part & l2 & -> & ? & ? & ? & ? & ?) & ->).
      exists d. split; [|done].
      exists (cand :: c1), cand', c2, c', l1, part, l2.
      split; [done|]. split; [|done]. constructor; [|done].
      exists c, ps. by rewrite <- firstImagePart_None.
  - intros (d & (c1 & cand & c2 & c & l1 & part & l2 & -> & Hc1 & Hc & Hp & Hl1 & Hd) & ->).
    induction Hc1 as [|x c1 (cx & psx & Hx1 & Hx2 & Hx3) _ IH];
      cbn [app scanCandidates].
    + rewrite Hc, Hp.
      assert (firstImagePart (l1 ++ part :: l2) = Some (dataUrl d)) as ->; [|done].
      apply firstImagePart_spec. by exists l1, part, l2, d.
    + rewrite Hx1, Hx2. apply firstImagePart_None in Hx3. by rewrite Hx3.
Qed.

Lemma scanCandidates_none cands :
  Forall no_image cands ->
  scanCandidates cands = Err (Error "No image data returned.").
Proof.
  induction 1 as [|x c1 (cx & psx & Hx1 & Hx2 & Hx3) _ IH]; [done|].
  cbn [scanCandidates]. rewrite Hx1, Hx2.
  apply firstImagePart_None in Hx3. by rewrite Hx3.
Qed.

(** X6. The image that [generateImage] returns.  Every value it returns is
    the data URL 'data:<mimeType>;base64,<data>' built from the inline data
    of the first part that carries some, in the order of the candidates and
    of their parts, of the response to the last call made; so it starts
    with 'data:' and holds ';base64,'.  A response whose candidates all
    have parts but no inline data yields 'No image data returned.'. *)
Theorem image_result_is_first_inline_part
    (basePrompt : option string) (settings : MediaSettings)
    (style : ImageStyleConfig) (apiKey : option string)
    (chars : list Character) (w w' : World) (url : string) :
  generateImage env basePrompt settings style apiKey chars w = (Ok url, w') ->
  (exists pre req response d,
     w' = pre ++ [EvCall req]
     /\ service env (calls pre) req = Ok response
     /\ first_image (default [] (candidates response)) d
     /\ url = dataUrl d
     /\ occurs_in ";base64," url
     /\ String.prefix "data:" url = true)
  /\ (forall cands, Forall no_image cands ->
        scanCandidates cands = Err (Error "No image data returned.")).
Proof.
  intros H. split; [|apply scanCandidates_none].
  unfold generateImage in H.
  apply callWithRetry_last in H as [w0 H].
  destruct (getAI_cases env apiKey) as [[ai Hai]|Hm].
  2:{ unfold imageAttempt, bind, lift in H. by rewrite Hm in H. }
  rewrite (imageAttempt_eq env _ _ _ _ _ ai Hai) in H.
  assert (forall k req, imageOutcome env k req = Ok url ->
    exists response d, service env k req = Ok response
      /\ first_image (default [] (candidates response)) d /\ url = dataUrl d)
    as Hout.
  { intros k req Ho. unfold imageOutcome in Ho.
    destruct (service env k req) as [response|]; [|done].
    apply scanCandidates_spec in Ho as (d & ? & ?). by exists response, d. }
  assert (forall d, url = dataUrl d ->
    occurs_in ";base64," url /\ String.prefix "data:" url = true) as Hurl.
  { intros d ->. split; [|apply prefix_spec; by eexists].
    exists ("data:" +:+ str_of_opt (mimeType d)), (str_of_opt (data d)).
    unfold dataUrl. by rewrite !app_assoc_s. }
  destruct (imageOutcome env (calls w0) _) as [v|e] eqn:E1.
  - simplify_eq. destruct (Hout _ _ E1) as (response & d & ? & ? & ?).
    destruct (Hurl d) as [? ?]; [done|].
    by eexists w0, _, response, d.
  - injection H as H <-.
    destruct (Hout _ _ H) as (response & d & Hs & ? & ?).
    destruct (Hurl d) as [? ?]; [done|].
    eexists (w0 ++ [EvCall _]), _, response, d.
    rewrite calls_snoc_call. split; [by rewrite <- app_assoc|]. done.
Qed.

End ResponseFacts.

Lemma story_rejects_unusable_response_witness :
  generateStory (platform service_empty (Some "key") []) config0 voice0 style0
    None []
  = (Err (Error "No text returned from Gemini."),
     [] ++ [EvCall (storyRequest "key" config0 style0)]).
Proof.
  exact (proj1 (story_rejects_unusable_response
                  (platform service_empty (Some "key") []) config0 voice0
                  style0 None "key" [] eq_refl)
               {| text := None; candidates := None |} eq_refl eq_refl).
Defined.

Lemma speech_rejects_unusable_response_witness :
  generateSpeech (platform service_empty (Some "key") [])
    (Some "Voss locks the door.") "man_soft" None []
  = (Err (Error "No audio"),
     [] ++ [EvCall (speechRequest voiceName "key"
                      (Some "Voss locks the door.") "man_soft")]).
Proof.
  exact (proj1 (proj1 (speech_rejects_unusable_response
                         (platform service_empty (Some "key") [])
                         (Some "Voss locks the door.") "man_soft" None "key"
                         [] {| text := None; candidates := None |} eq_refl)
                      eq_refl)
               eq_refl).
Defined.

Lemma image_result_is_first_inline_part_witness :
  exists pre req response d,
    [EvCall (proRequest "key" (finalPrompt (Some "A cat") style0 []) settings0);
     EvCall (flashRequest "key" (finalPrompt (Some "A cat") style0 []) settings0);
     EvSleep 1000;
     EvCall (proRequest "key" (finalPrompt (Some "A cat") style0 []) settings0)]
    = pre ++ [EvCall req]
    /\ service (platform service_400_503_ok (Some "key") []) (calls pre) req
       = Ok response
    /\ first_image (default [] (candidates response)) d
    /\ "data:image/png;base64,AAAA" = dataUrl d
    /\ occurs_in ";base64," "data:image/png;base64,AAAA"
    /\ String.prefix "data:" "data:image/png;base64,AAAA" = true.
Proof.
  apply (image_result_is_first_inline_part
           (platform service_400_503_ok (Some "key") [])
           (Some "A cat") settings0 style0 None [] []).
  vm_compute. reflexivity.
Defined.

(** ** AudioContainerCodec, continued *)

Section WavMore.

Lemma addWavHeader_setFrom pcmData sampleRate :
  addWavHeader pcmData sampleRate
  = setFrom (wavHeader sampleRate (length16 pcmData * 2)
             ++ replicate (length16 pcmData * 2) 0) 44 (buffer pcmData).
Proof.
  destruct pcmData as [buf off n].
  unfold addWavHeader. cbn [length16 buffer].
  set (d := (n * 2)%nat). clearbody d.
  replace (sampleRate * 1 * (16 / 8)) with (sampleRate * 2)
    by (change (16 / 8) with 2; lia).
  replace (1 * (16 / 8)) with 2 by reflexivity.
  unfold writeString. simpl. reflexivity.
Qed.

Lemma byte_at_is_byte v k : is_byte (byte_at v k).
Proof. unfold is_byte, byte_at. apply Z.mod_pos_bound. lia. Qed.

Lemma charCodes_bytes s : Forall is_byte (charCodes s).
Proof.
  induction s as [|c s IH]; cbn [charCodes]; constructor; [|done].
  unfold is_byte. pose proof (Ascii.nat_ascii_bounded c). lia.
Qed.

Lemma wavHeader_bytes sampleRate d : Forall is_byte (wavHeader sampleRate d).
Proof.
  unfold wavHeader.
  assert (forall v, Forall is_byte (le32 v)) as H32
    by (intros v; repeat constructor; apply byte_at_is_byte).
  assert (forall v, Forall is_byte (le16 v)) as H16
    by (intros v; repeat constructor; apply byte_at_is_byte).
  rewrite !Forall_app. auto 20 using charCodes_bytes.
Qed.

Lemma wavHeader_length sampleRate d : length (wavHeader sampleRate d) = 44%nat.
Proof. reflexivity. Qed.

Lemma setFrom_header sampleRate n buf file :
  setFrom (wavHeader sampleRate (n * 2) ++ replicate (n * 2) 0) 44 buf = Ok file ->
  (length buf <= n * 2)%nat
  /\ file = wavHeader sampleRate (n * 2) ++ buf
            ++ replicate (n * 2 - length buf) 0.
Proof.
  unfold setFrom. rewrite length_app, wavHeader_length, length_replicate.
  destruct (Nat.leb_spec (length buf) (44 + n * 2 - 44)); [|done].
  intros Hf. split; [lia|].
  assert (file = take 44 (wavHeader sampleRate (n * 2) ++ replicate (n * 2) 0)
                 ++ buf
                 ++ drop (44 + length buf)
                      (wavHeader sampleRate (n * 2) ++ replicate (n * 2) 0))
    as -> by congruence. clear Hf.
  rewrite (take_app_length' (wavHeader sampleRate (n * 2))) by reflexivity.
  f_equal. f_equal.
  rewrite drop_app_ge by (rewrite (wavHeader_length sampleRate (n * 2)); lia).
  rewrite (wavHeader_length sampleRate (n * 2)), drop_replicate. f_equal. lia.
Qed.

Lemma getUint32_le32 v pre post :
  getUint32 (pre ++ le32 v ++ post) (length pre) = v mod 2 ^ 32.
Proof.
  unfold getUint32, le32.
  rewrite !(lookup_total_app_r pre) by lia.
  replace (length pre - length pre)%nat with 0%nat by lia.
  replace (length pre + 1 - length pre)%nat with 1%nat by lia.
  replace (length pre + 2 - length pre)%nat with 2%nat by lia.
  replace (length pre + 3 - length pre)%nat with 3%nat by lia.
  cbn [app lookup_total list_lookup_total].
  apply le32_value. apply Z.mod_pos_bound. lia.
Qed.

(** X7. The sizes that the encoder declares.  Whenever [addWavHeader]
    returns a buffer shorter than 2^32 bytes, that buffer has 44 + 2 n
    bytes (n the sample count), its RIFF chunk-size field (offset 4) reads
    the length of the buffer less 8, its data-size field (offset 40) reads
    the length less 44, and, the input holding bytes, every element of the
    output is a byte, whatever the sample rate. *)
Theorem wav_sizes_are_consistent (pcmData : Int16Array) (sampleRate : Z)
    (file : list Z) :
  addWavHeader pcmData sampleRate = Ok file ->
  Forall is_byte (buffer pcmData) ->
  Z.of_nat (length file) < 2 ^ 32 ->
  length file = (44 + 2 * length16 pcmData)%nat
  /\ getUint32 file 4 = Z.of_nat (length file) - 8
  /\ getUint32 file 40 = Z.of_nat (length file) - 44
  /\ Forall is_byte file.
Proof.
  rewrite addWavHeader_setFrom. intros H Hb Hlen.
  apply setFrom_header in H as [Hle ->].
  assert (length (wavHeader sampleRate (length16 pcmData * 2) ++ buffer pcmData
                  ++ replicate (length16 pcmData * 2 - length (buffer pcmData)) 0)
          = (44 + 2 * length16 pcmData)%nat) as Hl.
  { rewrite !length_app, wavHeader_length, length_replicate. lia. }
  rewrite Hl in *. split; [done|].
  change (2 ^ 32) with 4294967296 in Hlen.
  split; [|split].
  - unfold wavHeader. rewrite <- !app_assoc.
    change (getUint32 ?l 4) with (getUint32 l (length (charCodes "RIFF"))).
    rewrite (getUint32_le32 _ (charCodes "RIFF")).
    change (2 ^ 32) with 4294967296.
    rewrite Z.mod_small by lia. lia.
  - unfold wavHeader.
    set (pre := charCodes "RIFF" ++ le32 (36 + Z.of_nat (length16 pcmData * 2))
          ++ charCodes "WAVE" ++ charCodes "fmt " ++ le32 16 ++ le16 1 ++ le16 1
          ++ le32 sampleRate ++ le32 (sampleRate * 2) ++ le16 2 ++ le16 16
          ++ charCodes "data").
    replace (_ ++ buffer pcmData ++ _)
      with (pre ++ le32 (Z.of_nat (length16 pcmData * 2))
            ++ buffer pcmData
            ++ replicate (length16 pcmData * 2 - length (buffer pcmData)) 0)
      by (unfold pre; by rewrite <- !app_assoc).
    change (getUint32 ?l 40) with (getUint32 l (length pre)).
    rewrite getUint32_le32. change (2 ^ 32) with 4294967296.
    rewrite Z.mod_small by lia. lia.
  - apply Forall_app; split; [apply wavHeader_bytes|].
    apply Forall_app; split; [done|].
    apply Forall_replicate. unfold is_byte. lia.
Qed.

(** X8. The encoder and views into a larger buffer.  For every
    [Int16Array] (an aligned window inside a buffer of bytes),
    [addWavHeader] succeeds exactly when the array spans its whole buffer;
    then it returns the 44 header bytes followed by the buffer, and
    otherwise it throws the RangeError of [payload.set]. *)
Theorem wav_encoder_needs_whole_buffer (pcmData : Int16Array) (sampleRate : Z) :
  valid_view pcmData ->
  (whole_buffer pcmData ->
   addWavHeader pcmData sampleRate
   = Ok (wavHeader sampleRate (length16 pcmData * 2) ++ buffer pcmData))
  /\ (~ whole_buffer pcmData ->
      addWavHeader pcmData sampleRate
      = Err (RangeError "offset is out of bounds"))
  /\ (isOk (addWavHeader pcmData sampleRate) = true <-> whole_buffer pcmData).
Proof.
  intros (Hal & Hin & _).
  assert (~ whole_buffer pcmData ->
          addWavHeader pcmData sampleRate
          = Err (RangeError "offset is out of bounds")) as Hno.
  { intros Hnw. rewrite addWavHeader_setFrom. unfold setFrom.
    rewrite length_app, wavHeader_length, length_replicate.
    destruct (Nat.leb_spec (length (buffer pcmData))
                (44 + length16 pcmData * 2 - 44)); [|done].
    destruct Hnw. unfold whole_buffer. lia. }
  split; [apply addWavHeader_whole|]. split; [done|].
  split.
  - intros Hok. destruct (decide (byteOffset pcmData = 0%nat
                                  /\ length (buffer pcmData)
                                     = (2 * length16 pcmData)%nat)) as [|Hn];
      [done|]. rewrite (Hno Hn) in Hok. done.
  - intros Hw. by rewrite addWavHeader_whole.
Qed.

Lemma writeCodes_spec codes : forall view offset,
  (offset + length codes <= length view)%nat ->
  writeCodes view offset codes
  = Ok (take offset view ++ map (fun c => c mod 256) codes
        ++ drop (offset + length codes) view).
Proof.
  induction codes as [|c codes IH]; intros view offset Hlen.
  - cbn. by rewrite Nat.add_0_r, take_drop.
  - cbn [writeCodes length] in *. unfold setUint8.
    destruct (Nat.leb_spec (offset + 1) (length view)); [|lia].
    cbn [rbind]. rewrite IH by (rewrite length_insert; lia).
    f_equal.
    rewrite (take_S_r _ _ (c mod 256)).
    2:{ apply list_lookup_insert_eq. lia. }
    rewrite take_insert_ge by lia.
    rewrite drop_insert_lt by lia.
    replace (S offset + length codes)%nat
      with (offset + S (length codes))%nat by lia.
    by rewrite <- app_assoc.
Qed.

Lemma writeCodes_out codes : forall view offset,
  codes <> [] -> (length view < offset + length codes)%nat ->
  writeCodes view offset codes
  = Err (RangeError "Offset is outside the bounds of the DataView").
Proof.
  induction codes as [|c codes IH]; intros view offset Hne Hlen; [done|].
  cbn [writeCodes length] in *. unfold setUint8.
  destruct (Nat.leb_spec (offset + 1) (length view)); [|done].
  cbn [rbind]. apply IH.
  - destruct codes; [cbn in Hlen; lia|done].
  - rewrite length_insert. lia.
Qed.

Lemma charCodes_length s : length (charCodes s) = String.length s.
Proof. induction s; cbn; congruence. Qed.

(** X9. [writeString] writes the character codes of the string, each
    modulo 256, at the offset and leaves every other byte of the view as it
    was, when the string fits into the view; a string that is not empty and
    does not fit makes it throw a RangeError; the empty string changes
    nothing at any offset. *)
Theorem writeString_writes_char_codes (view : list Z) (offset : nat) (s : string) :
  ((offset + String.length s <= length view)%nat ->
   writeString view offset s
   = Ok (take offset view ++ map (fun c => c mod 256) (charCodes s)
         ++ drop (offset + String.length s) view))
  /\ (s <> "" -> (length view < offset + String.length s)%nat ->
      writeString view offset s
      = Err (RangeError "Offset is outside the bounds of the DataView"))
  /\ writeString view offset "" = Ok view.
Proof.
  unfold writeString. split; [|split].
  - intros H. rewrite writeCodes_spec by (by rewrite charCodes_length).
    by rewrite charCodes_length.
  - intros Hs H. apply writeCodes_out; [by destruct s|].
    by rewrite charCodes_length.
  - reflexivity.
Qed.

(** X10. The loop of [generateSpeech] that rebuilds the binary string in
    chunks of 8192 bytes yields the bytes of the buffer, all of them, once
    each and in order, for a buffer of any length (empty, shorter than a
    chunk, or not a multiple of the chunk size); the loop has ended as soon
    as the rounds run cover the length, 8192 bytes each. *)
Theorem binary_string_is_the_buffer (wavBytes : list Z) (rounds : nat) :
  toBinaryString wavBytes = wavBytes
  /\ ((length wavBytes <= rounds * chunkSize)%nat ->
      chunkLoop rounds wavBytes 0 [] = wavBytes).
Proof.
  split; [apply toBinaryString_all|].
  - assert (forall r i,
      (length wavBytes - i <= r * chunkSize)%nat ->
      chunkLoop r wavBytes i (take i wavBytes) = wavBytes) as Hgen.
    { induction r as [|r IH]; intros i Hi; cbn [chunkLoop].
      - apply take_ge. lia.
      - destruct (i <? length wavBytes)%nat eqn:Hlt.
        + apply Nat.ltb_lt in Hlt.
          replace (take i wavBytes
                   ++ take (Nat.min (i + chunkSize) (length wavBytes) - i)
                           (drop i wavBytes))
            with (take (i + chunkSize) wavBytes); [apply IH; lia|].
          destruct (decide (i + chunkSize <= length wavBytes)%nat).
          * rewrite Nat.min_l by lia.
            replace (i + chunkSize - i)%nat with chunkSize by lia.
            by rewrite take_take_drop.
          * rewrite Nat.min_r by lia.
            rewrite (take_ge wavBytes (i + chunkSize)) by lia.
            rewrite (take_ge (drop i wavBytes)) by (rewrite length_drop; lia).
            by rewrite take_drop.
        + apply Nat.ltb_ge in Hlt. by apply take_ge. }
    intros H. apply (Hgen rounds 0%nat). lia.
Qed.

End WavMore.

Lemma wav_sizes_are_consistent_witness :
  let file := [82; 73; 70; 70; 40; 0; 0; 0; 87; 65; 86; 69; 102; 109; 116; 32;
               16; 0; 0; 0; 1; 0; 1; 0; 192; 93; 0; 0; 128; 187; 0; 0; 2; 0;
               16; 0; 100; 97; 116; 97; 4; 0; 0; 0; 1; 2; 3; 255] in
  length file = (44 + 2 * length16 two_samples)%nat
  /\ getUint32 file 4 = Z.of_nat (length file) - 8
  /\ getUint32 file 40 = Z.of_nat (length file) - 44
  /\ Forall is_byte file.
Proof.
  apply (wav_sizes_are_consistent two_samples 24000).
  - reflexivity.
  - repeat constructor; unfold is_byte; lia.
  - reflexivity.
Defined.

Lemma wav_encoder_needs_whole_buffer_witness :
  addWavHeader view_of_second_half 24000
  = Err (RangeError "offset is out of bounds").
Proof.
  apply (wav_encoder_needs_whole_buffer view_of_second_half 24000).
  - split; [reflexivity|]. split; [cbn; lia|].
    repeat constructor; unfold is_byte; lia.
  - intros [H _]. discriminate H.
Defined.

(** ** Arrays with holes *)

Section ArrayFacts.

Context {A : Type}.
Implicit Types (l : list (option A)) (x y : A).

Lemma array_set_length l i x :
  length (array_set l i x) = Nat.max (length l) (S i).
Proof.
  unfold array_set. case_decide.
  - rewrite length_insert. lia.
  - rewrite !length_app, length_replicate. cbn. lia.
Qed.

Lemma array_set_lookup l i x k :
  array_set l i x !! k
  = if decide (k = i) then Some (Some x)
    else if decide (k < length l)%nat then l !! k
    else if decide (k < i)%nat then Some None else None.
Proof.
  unfold array_set. case_decide as Hi.
  - destruct (decide (k = i)) as [->|Hk].
    + by rewrite list_lookup_insert_eq.
    + rewrite list_lookup_insert_ne by done.
      destruct (decide (k < length l)%nat); [done|].
      rewrite lookup_ge_None_2 by lia. by rewrite decide_False by lia.
  - destruct (decide (k < length l)%nat) as [Hk|Hk].
    + rewrite decide_False by lia. by rewrite lookup_app_l.
    + rewrite lookup_app_r by lia.
      destruct (decide (k = i)) as [->|Hki].
      * rewrite lookup_app_r by (rewrite length_replicate; lia).
        rewrite length_replicate.
        by replace (i - length l - (i - length l))%nat with 0%nat by lia.
      * destruct (decide (k < i)%nat).
        -- rewrite lookup_app_l by (rewrite length_replicate; lia).
           apply lookup_replicate_2. lia.
        -- rewrite lookup_app_r by (rewrite length_replicate; lia).
           rewrite length_replicate.
           destruct (k - length l - (i - length l))%nat as [|[|m]] eqn:E;
             [lia|done|done].
Qed.

Lemma array_get_set l i x k :
  array_get (array_set l i x) k
  = if decide (k = i) then Some x else array_get l k.
Proof.
  unfold array_get. rewrite array_set_lookup.
  destruct (decide (k = i)); [done|].
  destruct (decide (k < length l)%nat); [done|].
  rewrite (lookup_ge_None_2 l k) by lia. by destruct (decide (k < i)%nat).
Qed.

Lemma array_set_twice l i x y :
  array_set (array_set l i x) i y = array_set l i y.
Proof.
  apply list_eq. intros k. rewrite !array_set_lookup, array_set_length.
  destruct (decide (k = i)); [done|].
  destruct (decide (k < length l)%nat).
  - by rewrite decide_True by lia.
  - destruct (decide (k < i)%nat).
    + by rewrite decide_True by lia.
    + by rewrite decide_False by lia.
Qed.

Lemma array_set_comm l i j x y :
  i <> j ->
  array_set (array_set l i x) j y = array_set (array_set l j y) i x.
Proof.
  intros Hij. apply list_eq. intros k.
  rewrite !array_set_lookup, !array_set_length.
  repeat case_decide; try done; try lia.
Qed.

End ArrayFacts.

(** ** ProjectStateMerger, continued *)

Section UpdaterFacts.

Lemma with_scenes_output p o l :
  output (with_scenes p o l)
  = Some {| out_title := out_title o; summary := summary o; scenes := l |}.
Proof. reflexivity. Qed.

Lemma with_scenes_twice p o l o' l' :
  out_title o' = out_title o -> summary o' = summary o ->
  with_scenes (with_scenes p o l) o' l' = with_scenes p o l'.
Proof. intros H1 H2. unfold with_scenes. cbn. by rewrite H1, H2. Qed.

(** X11. Regeneration replaces.  Applying one of the four updaters twice
    for the same scene index gives the state that the second application
    alone gives: the later result replaces the earlier one, at any index
    and in any state.  Within the scenes array an update never changes the
    number of scenes. *)
Theorem regeneration_replaces_the_slot (i : nat) (v1 v2 : string)
    (scene : Scene) (p : Project) :
  audioMergeAll i v2 (audioMergeAll i v1 p) = audioMergeAll i v2 p
  /\ imageMergeAll i v2 (imageMergeAll i v1 p) = imageMergeAll i v2 p
  /\ audioMerge i scene v2 (audioMerge i scene v1 p) = audioMerge i scene v2 p
  /\ imageMerge i scene v2 (imageMerge i scene v1 p) = imageMerge i scene v2 p
  /\ ((i < length (scenes_of p))%nat ->
      length (scenes_of (audioMergeAll i v1 p)) = length (scenes_of p)
      /\ length (scenes_of (imageMergeAll i v1 p)) = length (scenes_of p)
      /\ length (scenes_of (audioMerge i scene v1 p)) = length (scenes_of p)
      /\ length (scenes_of (imageMerge i scene v1 p)) = length (scenes_of p)).
Proof.
  unfold audioMergeAll, imageMergeAll, audioMerge, imageMerge, scenes_of.
  destruct (output p) as [o|] eqn:Ho.
  2:{ rewrite !Ho. cbn. repeat split; lia. }
  rewrite !with_scenes_output. cbn [scenes out_title summary].
  rewrite !with_scenes_twice by done.
  rewrite !array_set_twice, !array_get_set, !decide_True by done.
  cbn [spread default]. rewrite !array_set_length.
  split; [done|]. split; [done|]. split; [done|]. split; [done|].
  intros Hi. repeat split; lia.
Qed.

(** X12. The updater of the audio batch and the updater of the image batch
    (which is also the updater of an upload) commute: applied in either
    order, at any two indices, equal or not, inside the array or past its
    end, they give the same project.  So a result of one kind is never
    lost to a result of the other kind that is merged by these updaters. *)
Theorem batch_updaters_commute (i j : nat) (a b : string) (p : Project) :
  audioMergeAll i a (imageMergeAll j b p)
  = imageMergeAll j b (audioMergeAll i a p).
Proof.
  unfold audioMergeAll, imageMergeAll.
  destruct (output p) as [o|] eqn:Ho; [|by rewrite !Ho].
  rewrite !with_scenes_output. cbn [scenes out_title summary].
  rewrite !with_scenes_twice by done. f_equal.
  rewrite !array_get_set.
  destruct (decide (i = j)) as [->|Hij].
  - rewrite !decide_True by done. by rewrite !array_set_twice.
  - rewrite !decide_False by done. by apply array_set_comm.
Qed.

End UpdaterFacts.

(** ** The handlers, continued *)

Section HandlerFacts.

Variable env : Platform.

Lemma forLoop_invariant (P : AppState -> Prop) (body : nat -> Handler) :
  (forall i st w, P st -> P (body i st w).1) ->
  forall rounds i st w, P st -> P (forLoop body i rounds st w).1.
Proof.
  intros Hb rounds. induction rounds as [|r IH]; intros i st w HP; [done|].
  cbn [forLoop]. pose proof (Hb i st w HP) as H.
  destruct (body i st w) as [st' w']. by apply IH.
Qed.

Lemma audioRound_flags project0 out i st w st0 :
  same_flags st0 st /\ imageLoadingIndex st = imageLoadingIndex st0 ->
  same_flags st0 (audioRound env project0 out i st w).1
  /\ imageLoadingIndex (audioRound env project0 out i st w).1
     = imageLoadingIndex st0.
Proof.
  intros H. unfold audioRound.
  destruct (array_get (scenes out) i) as [scene|]; [|done].
  by destruct (generateSpeech env _ _ _ w) as [[v|e] w'].
Qed.

Lemma imageRound_flags project0 out i st w st0 :
  same_flags st0 st /\ audioLoadingIndex st = audioLoadingIndex st0 ->
  same_flags st0 (imageRound env project0 out i st w).1
  /\ audioLoadingIndex (imageRound env project0 out i st w).1
     = audioLoadingIndex st0.
Proof.
  intros H. unfold imageRound.
  destruct (array_get (scenes out) i) as [scene|]; [|done].
  by destruct (generateImage env _ _ _ _ _ w) as [[v|e] w'].
Qed.

(** X13. A batch ends quietly.  When the handler's project has a script,
    [handleGenerateAllAudio] and [handleGenerateAllImages] end with no
    error shown, whatever number of their jobs failed and whatever error
    was shown before, with their own progress flag off and their own
    loading index cleared; the language, the script-loading flag and the
    flag and index of the other batch are as they were. *)
Theorem batch_never_reports_failures (project0 : Project) (out : StoryOutput)
    (st : AppState) (w : World) :
  output project0 = Some out ->
  (let st' := (handleGenerateAllAudio env project0 st w).1 in
   error st' = None /\ generatingAllAudio st' = false
   /\ audioLoadingIndex st' = None
   /\ lang st' = lang st /\ loading st' = loading st
   /\ imageLoadingIndex st' = imageLoadingIndex st
   /\ generatingAllImages st' = generatingAllImages st)
  /\ (let st' := (handleGenerateAllImages env project0 st w).1 in
      error st' = None /\ generatingAllImages st' = false
      /\ imageLoadingIndex st' = None
      /\ lang st' = lang st /\ loading st' = loading st
      /\ audioLoadingIndex st' = audioLoadingIndex st
      /\ generatingAllAudio st' = generatingAllAudio st).
Proof.
  intros Ho. split.
  - unfold handleGenerateAllAudio. rewrite Ho.
    set (st0 := setError None (setGeneratingAllAudio true st)).
    pose proof (forLoop_invariant
      (fun s => same_flags st0 s /\ imageLoadingIndex s = imageLoadingIndex st0)
      (audioRound env project0 out)
      (fun i s w' H => audioRound_flags project0 out i s w' st0 H)
      (length (scenes out)) 0%nat st0 w) as H.
    destruct H as ((H1 & H2 & H3 & H4 & H5) & H6); [done|].
    destruct (forLoop _ _ _ st0 w) as [st1 w1]. cbn in *.
    by rewrite H1, H2, H3, H5, H6.
  - unfold handleGenerateAllImages. rewrite Ho.
    set (st0 := setError None (setGeneratingAllImages true st)).
    pose proof (forLoop_invariant
      (fun s => same_flags st0 s /\ audioLoadingIndex s = audioLoadingIndex st0)
      (imageRound env project0 out)
      (fun i s w' H => imageRound_flags project0 out i s w' st0 H)
      (length (scenes out)) 0%nat st0 w) as H.
    destruct H as ((H1 & H2 & H3 & H4 & H5) & H6); [done|].
    destruct (forLoop _ _ _ st0 w) as [st1 w1]. cbn in *.
    by rewrite H1, H2, H3, H4, H6.
Qed.

Lemma total_wait_app a b : total_wait (a ++ b) = total_wait a + total_wait b.
Proof.
  unfold total_wait. rewrite sleeps_app.
  induction (sleeps a) as [|x l IH]; cbn; [done|]. rewrite IH. lia.
Qed.

Lemma effort_within_refl w : effort_within 0 0 w w.
Proof. exists []. by rewrite app_nil_r. Qed.

Lemma effort_within_trans c1 t1 c2 t2 w1 w2 w3 :
  effort_within c1 t1 w1 w2 -> effort_within c2 t2 w2 w3 ->
  effort_within (c1 + c2) (t1 + t2) w1 w3.
Proof.
  intros (e1 & -> & ? & ?) (e2 & -> & ? & ?). exists (e1 ++ e2).
  rewrite app_assoc, calls_app, total_wait_app. split; [done|]. lia.
Qed.

Lemma effort_within_weaken c t c' t' w w' :
  (c <= c')%nat -> t <= t' -> effort_within c t w w' -> effort_within c' t' w w'.
Proof. intros ? ? (e & -> & ? & ?). exists e. split; [done|]. lia. Qed.

Lemma forLoop_effort (body : nat -> Handler) c t :
  0 <= t ->
  (forall i st w, effort_within c t w (body i st w).2) ->
  forall rounds i st w,
    effort_within (c * rounds) (t * Z.of_nat rounds) w
      (forLoop body i rounds st w).2.
Proof.
  intros Ht Hb rounds. induction rounds as [|r IH]; intros i st w.
  - cbn [forLoop snd].
    eapply effort_within_weaken; [| |apply effort_within_refl]; lia.
  - cbn [forLoop]. pose proof (Hb i st w) as H1.
    destruct (body i st w) as [st' w']. cbn [snd] in H1.
    eapply effort_within_weaken;
      [| |exact (effort_within_trans _ _ _ _ _ _ _ H1 (IH (S i) st' w'))]; lia.
Qed.

Lemma audioRound_effort project0 out i st w :
  effort_within 4 7000 w (audioRound env project0 out i st w).2.
Proof.
  unfold audioRound. destruct (array_get (scenes out) i) as [scene|].
  - destruct (generateSpeech_effort env (narrative scene)
                (voiceType_str (voiceType (voiceConfig project0)))
                (apiKey project0) w) as (evs & Hw & _ & Hc & Ht).
    destruct (generateSpeech env _ _ _ w) as [[v|e] w']; cbn [snd] in *;
      by exists evs.
  - eapply effort_within_weaken; [| |apply effort_within_refl]; lia.
Qed.

Lemma imageRound_effort project0 out i st w :
  effort_within 8 7000 w (imageRound env project0 out i st w).2.
Proof.
  unfold imageRound. destruct (array_get (scenes out) i) as [scene|].
  - destruct (generateImage_effort env (imagePrompt scene)
                (mediaSettings project0) (imageStyle project0)
                (apiKey project0) (activeChars env project0 scene) w)
      as (evs & Hw & _ & Hc & Ht).
    destruct (generateImage env _ _ _ _ _ w) as [[v|e] w']; cbn [snd] in *;
      by exists evs.
  - eapply effort_within_weaken; [| |apply effort_within_refl]; lia.
Qed.

(** X14. The effort of a batch is bounded by the number of scenes: over a
    script of n scenes, the audio batch calls the service at most 4 n
    times and the image batch at most 8 n times, and each waits at most
    7 n seconds in all, whatever the service answers. *)
Theorem batch_effort_is_bounded (project0 : Project) (out : StoryOutput)
    (st : AppState) (w : World) :
  output project0 = Some out ->
  let n := length (scenes out) in
  effort_within (4 * n) (7000 * Z.of_nat n) w
    (handleGenerateAllAudio env project0 st w).2
  /\ effort_within (8 * n) (7000 * Z.of_nat n) w
       (handleGenerateAllImages env project0 st w).2.
Proof.
  intros Ho n. split.
  - unfold handleGenerateAllAudio. rewrite Ho.
    pose proof (forLoop_effort (audioRound env project0 out) 4 7000
                  ltac:(lia) (audioRound_effort project0 out)
                  (length (scenes out)) 0%nat
                  (setError None (setGeneratingAllAudio true st)) w) as H.
    by destruct (forLoop _ _ _ _ w).
  - unfold handleGenerateAllImages. rewrite Ho.
    pose proof (forLoop_effort (imageRound env project0 out) 8 7000
                  ltac:(lia) (imageRound_effort project0 out)
                  (length (scenes out)) 0%nat
                  (setError None (setGeneratingAllImages true st)) w) as H.
    by destruct (forLoop _ _ _ _ w).
Qed.


Lemma single_merge_frame (set : Scene -> string -> Scene)
    (slot other : Scene -> option string) i scene v p :
  (forall s x, slot (set s x) = Some x /\ other (set s x) = other s
               /\ same_text s (set s x)) ->
  let p' := match output p with
            | None => p
            | Some o => with_scenes p o (array_set (scenes o) i (set scene v))
            end in
  same_but_scenes p p'
  /\ (forall j, j <> i ->
        array_get (scenes_of p') j = array_get (scenes_of p) j)
  /\ (output p = None -> p' = p)
  /\ (is_Some (output p) ->
      exists s', array_get (scenes_of p') i = Some s'
        /\ slot s' = Some v /\ other s' = other scene /\ same_text scene s').
Proof.
  intros Hset p'. subst p'. unfold scenes_of.
  destruct (output p) as [o|] eqn:Ho.
  - split; [by apply same_but_scenes_with|].
    cbn [with_scenes output scenes].
    split; [intros j Hj; by rewrite array_get_set, decide_False|].
    split; [done|]. intros _. exists (set scene v).
    split; [by rewrite array_get_set, decide_True|]. apply Hset.
  - rewrite Ho. split; [done|]. split; [done|]. split; [done|].
    by intros [? ?].
Qed.

(** X29. What the result of a single-scene job touches.  Whatever the
    state is by the time the result is merged, the updaters of
    [handleGenerateAudio] and [handleGenerateImage] leave every scene but
    scene [i] as it reads, and the rest of the project as it is; on a
    project without a script they change nothing; on one with a script,
    scene [i] becomes the scene that the handler had read before the call,
    with the result in the targeted slot.  And a run of either handler that
    is started on the current project, and during which no other update
    arrives, changes only the targeted slot of scene [i], to the result
    when the job succeeds: the number of scenes, every other scene, and the
    text fields and the other slot of scene [i] are as they were. *)
Theorem single_scene_merge_frame (st : AppState) (w : World) (i : nat) :
  (forall scene v p,
     let p' := audioMerge i scene v p in
     same_but_scenes p p'
     /\ (forall j, j <> i ->
           array_get (scenes_of p') j = array_get (scenes_of p) j)
     /\ (output p = None -> p' = p)
     /\ (is_Some (output p) ->
         exists s', array_get (scenes_of p') i = Some s'
           /\ audioData s' = Some v /\ imageUrl s' = imageUrl scene
           /\ same_text scene s'))
  /\ (forall scene v p,
        let p' := imageMerge i scene v p in
        same_but_scenes p p'
        /\ (forall j, j <> i ->
              array_get (scenes_of p') j = array_get (scenes_of p) j)
        /\ (output p = None -> p' = p)
        /\ (is_Some (output p) ->
            exists s', array_get (scenes_of p') i = Some s'
              /\ imageUrl s' = Some v /\ audioData s' = audioData scene
              /\ same_text scene s'))
  /\ single_scene_outcome (audioJob env (project st)) audioData imageUrl
       i w (project st)
       (project (handleGenerateAudio env (project st) i st w).1)
  /\ single_scene_outcome (imageJob env (project st)) imageUrl audioData
       i w (project st)
       (project (handleGenerateImage env (project st) i st w).1).
Proof.
  split; [|split; [|split]].
  - intros scene v p.
    by apply (single_merge_frame with_audioData audioData imageUrl).
  - intros scene v p.
    by apply (single_merge_frame with_imageUrl imageUrl audioData).
  - apply handleGenerateAudio_alone.
  - apply handleGenerateImage_alone.
Qed.


(** Rounds of a batch on a state without a script. *)
Lemma audioRound_reset project0 out i st w :
  output (project st) = None ->
  project (audioRound env project0 out i st w).1 = project st.
Proof.
  intros H. unfold audioRound.
  destruct (array_get (scenes out) i) as [scene|]; [|done].
  destruct (generateSpeech env _ _ _ w) as [[v|e] w']; [|done].
  cbn. unfold audioMergeAll. by rewrite H.
Qed.

Lemma imageRound_reset project0 out i st w :
  output (project st) = None ->
  project (imageRound env project0 out i st w).1 = project st.
Proof.
  intros H. unfold imageRound.
  destruct (array_get (scenes out) i) as [scene|]; [|done].
  destruct (generateImage env _ _ _ _ _ w) as [[v|e] w']; [|done].
  cbn. unfold imageMergeAll. by rewrite H.
Qed.

Lemma audioRound_world project0 out i st w :
  (audioRound env project0 out i st w).2
  = match array_get (scenes out) i with
    | Some scene => (audioJob env project0 scene w).2
    | None => w
    end.
Proof.
  unfold audioRound, audioJob.
  destruct (array_get (scenes out) i) as [scene|]; [|done].
  by destruct (generateSpeech env _ _ _ w) as [[v|e] w'].
Qed.

Lemma imageRound_world project0 out i st w :
  (imageRound env project0 out i st w).2
  = match array_get (scenes out) i with
    | Some scene => (imageJob env project0 scene w).2
    | None => w
    end.
Proof.
  unfold imageRound, imageJob.
  destruct (array_get (scenes out) i) as [scene|]; [|done].
  by destruct (generateImage env _ _ _ _ _ w) as [[v|e] w'].
Qed.

(** The world a loop ends in does not depend on the state it runs on. *)
Lemma forLoop_world (body : nat -> Handler) (job : Scene -> M string)
    (scs : list (option Scene)) :
  (forall i st w,
     (body i st w).2 = match array_get scs i with
                       | Some scene => (job scene w).2
                       | None => w
                       end) ->
  forall rounds i st w, (i + rounds <= length scs)%nat ->
    (forLoop body i rounds st w).2
    = (jobRuns job (take rounds (drop i scs)) w).2.
Proof.
  intros Hb rounds. induction rounds as [|r IH]; intros i st w Hlen; [done|].
  cbn [forLoop]. pose proof (Hb i st w) as H.
  destruct (body i st w) as [st' w']. cbn [snd] in H.
  rewrite (IH (S i)) by lia.
  destruct (lookup_lt_is_Some_2 scs i) as [x Hx]; [lia|].
  rewrite (drop_S _ _ _ Hx). cbn [take jobRuns].
  unfold array_get in H. rewrite Hx in H.
  destruct x as [scene|].
  - subst w'. destruct (job scene w) as [r0 w1]. cbn [snd].
    by destruct (jobRuns job _ w1).
  - subst w'. by destruct (jobRuns job _ w).
Qed.

(** X17. Start over.  When [goHome] goes ahead (the handler's project has
    no script, or the user confirms), the project is a fresh one without a
    script that keeps only the API key, and the flags of the batches are
    not touched.  From then on, and until a new script is stored, a result
    that arrives is dropped: the part after the await of a single-scene
    handler and an upload leave the project as it is; and the rounds that a
    running batch has left still run the jobs of their scenes, one after
    the other, calling the service, while the project stays as it is. *)
Theorem start_over_drops_pending_results (confirm : bool)
    (now_id now_created : Z) (project1 : Project) (st : AppState) :
  output project1 = None \/ confirm = true ->
  let st1 := goHome confirm now_id now_created project1 st in
  output (project st1) = None
  /\ apiKey (project st1) = apiKey (project st)
  /\ config (project st1) = getInitialConfig
  /\ generatingAllAudio st1 = generatingAllAudio st
  /\ generatingAllImages st1 = generatingAllImages st
  /\ (forall i scene r,
        project (audioSettled i scene r st1) = project st1
        /\ project (imageSettled i scene r st1) = project st1)
  /\ (forall i base64, project (imageUploaded i base64 st1) = project st1)
  /\ (forall project0 out w i rounds,
        (i + rounds <= length (scenes out))%nat ->
        project (forLoop (audioRound env project0 out) i rounds st1 w).1
        = project st1
        /\ (forLoop (audioRound env project0 out) i rounds st1 w).2
           = (jobRuns (audioJob env project0)
                (take rounds (drop i (scenes out))) w).2
        /\ project (forLoop (imageRound env project0 out) i rounds st1 w).1
           = project st1
        /\ (forLoop (imageRound env project0 out) i rounds st1 w).2
           = (jobRuns (imageJob env project0)
                (take rounds (drop i (scenes out))) w).2).
Proof.
  intros Hc st1.
  assert (st1 = setProject (fun prev =>
      {| project_id := pretty now_id; project_title := None;
         lastSaved := None; createdAt := now_created;
         config := getInitialConfig; output := None;
         mediaSettings := getInitialMediaSettings;
         imageStyle := getInitialImageStyle;
         voiceConfig := getInitialVoice; apiKey := apiKey prev |})
      (setError None (setImageLoadingIndex None
         (setAudioLoadingIndex None (setLoading false st))))) as Hst1.
  { unfold st1, goHome. destruct Hc as [-> | ->].
    - by rewrite bool_decide_eq_false_2 by (by intros [? ?]).
    - by rewrite andb_false_r. }
  assert (output (project st1) = None) as Hnone by (by rewrite Hst1).
  split; [done|]. split; [by rewrite Hst1|]. split; [by rewrite Hst1|].
  split; [by rewrite Hst1|]. split; [by rewrite Hst1|].
  split.
  { intros i scene [v|e]; cbn; unfold audioMerge, imageMerge;
      rewrite ?Hnone; done. }
  split.
  { intros i base64. cbn. unfold imageMergeAll. by rewrite Hnone. }
  intros project0 out w i rounds Hlen.
  split; [|split; [|split]].
  - pose proof (forLoop_invariant (fun s => project s = project st1)
      (audioRound env project0 out)) as H.
    apply H; [|done]. intros j s w' Hs.
    rewrite audioRound_reset; [done|]. by rewrite Hs.
  - by rewrite (forLoop_world _ (audioJob env project0) (scenes out)
                  (audioRound_world project0 out)).
  - pose proof (forLoop_invariant (fun s => project s = project st1)
      (imageRound env project0 out)) as H.
    apply H; [|done]. intros j s w' Hs.
    rewrite imageRound_reset; [done|]. by rewrite Hs.
  - by rewrite (forLoop_world _ (imageJob env project0) (scenes out)
                  (imageRound_world project0 out)).
Qed.

End HandlerFacts.

Lemma batch_never_reports_failures_witness :
  let st' := (handleGenerateAllAudio
                (platform service_second_odd (Some "key") [])
                (project state_three) state_three []).1 in
  error st' = None /\ generatingAllAudio st' = false
  /\ audioLoadingIndex st' = None.
Proof.
  destruct (batch_never_reports_failures
              (platform service_second_odd (Some "key") [])
              (project state_three) story_three state_three [] eq_refl)
    as ((H1 & H2 & H3 & _) & _).
  exact (conj H1 (conj H2 H3)).
Defined.

Lemma batch_effort_is_bounded_witness :
  effort_within (4 * 3) (7000 * 3) []
    (handleGenerateAllAudio (platform service_second_odd (Some "key") [])
       (project state_three) state_three []).2.
Proof.
  exact (proj1 (batch_effort_is_bounded
                  (platform service_second_odd (Some "key") [])
                  (project state_three) story_three state_three [] eq_refl)).
Defined.


Lemma start_over_drops_pending_results_witness :
  let st1 := goHome true 1700000000000 1700000000000 (project state_three)
               state_three in
  output (project st1) = None
  /\ project (audioSettled 0 (scene_n 1 "Lina finds a door.")
                (Ok spoken_audio) st1) = project st1.
Proof.
  destruct (start_over_drops_pending_results
              (platform service_second_odd (Some "key") [])
              true 1700000000000 1700000000000 (project state_three)
              state_three (or_intror eq_refl))
    as (H1 & _ & _ & _ & _ & H2 & _).
  exact (conj H1 (proj1 (H2 0%nat (scene_n 1 "Lina finds a door.")
                           (Ok spoken_audio)))).
Defined.

(** ** The archive *)

Section ArchiveFacts.

Variable substring : string -> nat -> nat -> string.

Implicit Types (l : list Project).

Lemma findIndex_Some id l i :
  findIndex id l = Some i <->
  exists p, l !! i = Some p /\ project_id p = id
    /\ forall j q, l !! j = Some q -> (j < i)%nat -> project_id q <> id.
Proof.
  unfold findIndex. split.
  - destruct (list_find _ l) as [[i' p]|] eqn:E; [|done].
    intros [= <-]. apply list_find_Some in E. by exists p.
  - intros (p & H). assert (list_find (fun p => project_id p = id) l = Some (i, p))
      as -> by (by apply list_find_Some). done.
Qed.

Lemma findIndex_None id l :
  findIndex id l = None <-> id ∉ archive_ids l.
Proof.
  unfold findIndex, archive_ids.
  destruct (list_find _ l) as [[i' p]|] eqn:E.
  - split; [done|]. intros Hn. destruct Hn.
    apply list_find_Some in E as (Hl & <- & _).
    apply list_elem_of_fmap. exists p. split; [done|].
    by eapply list_elem_of_lookup_2.
  - split; [|done]. intros _. apply list_find_None in E.
    intros (p & -> & Hp)%list_elem_of_fmap.
    rewrite Forall_forall in E. by apply (E p).
Qed.

Lemma take_cap {A} (l : list A) :
  (if (50 <? length l)%nat then take 50 l else l) = take 50 l.
Proof.
  destruct (Nat.ltb_spec 50 (length l)); [done|]. by rewrite take_ge by lia.
Qed.

Lemma saveToArchive_saved now project0 l st a o :
  output project0 = Some o ->
  saveToArchive substring now project0 l st a
  = (st,
     let newProjects :=
       take 50 match findIndex (project_id project0) l with
               | Some i => <[i := with_saved project0 (archiveTitle substring project0 o) now]> l
               | None => with_saved project0 (archiveTitle substring project0 o) now :: l
               end in
     {| savedProjects := newProjects; stored := Some newProjects |}).
Proof.
  intros Ho. unfold saveToArchive. rewrite Ho. cbv zeta. by rewrite take_cap.
Qed.

Lemma archive_ids_insert l i p q :
  l !! i = Some p -> project_id q = project_id p ->
  archive_ids (<[i := q]> l) = archive_ids l.
Proof.
  intros Hp Hq. unfold archive_ids.
  change (map project_id) with (fmap (M:=list) project_id).
  rewrite list_fmap_insert, Hq. apply list_insert_id.
  by rewrite list_lookup_fmap, Hp.
Qed.

(** X18. The archive is capped at fifty.  [saveToArchive] on a project
    without a script changes nothing in the archive and shows an error.
    On a project with a script it leaves the state of the application as
    it is, and the archive it stores has at most 50 entries and is the
    list written to local storage.  A project that is not yet archived is
    put first, in its saved version (with its identifier, script and
    configuration, and the time of saving), and only the first 49 of the
    earlier entries are kept: when the archive is full, its last entry is
    dropped without notice.  A project that is archived already does not
    change the number of entries. *)
Theorem archive_keeps_at_most_fifty (now : Z) (project0 : Project)
    (l : list Project) (st : AppState) (a : ArchiveState) :
  let r := saveToArchive substring now project0 l st a in
  (output project0 = None ->
   r.2 = a
   /\ r.1 = setError
              (Some "Cannot save an empty project. Generate a story first.") st)
  /\ (forall o, output project0 = Some o ->
        let saved := with_saved project0 (archiveTitle substring project0 o) now in
        r.1 = st
        /\ (length (savedProjects r.2) <= 50)%nat
        /\ stored r.2 = Some (savedProjects r.2)
        /\ (project_id project0 ∉ archive_ids l ->
            savedProjects r.2 = saved :: take 49 l)
        /\ (project_id project0 ∈ archive_ids l ->
            length (savedProjects r.2) = Nat.min 50 (length l))
        /\ project_id saved = project_id project0
        /\ output saved = Some o /\ config saved = config project0
        /\ lastSaved saved = Some now).
Proof.
  intros r. subst r. split.
  - intros Ho. unfold saveToArchive. by rewrite Ho.
  - intros o Ho saved. rewrite (saveToArchive_saved _ _ _ _ _ _ Ho).
    cbn [fst snd savedProjects stored]. fold saved.
    split; [done|]. split; [rewrite length_take; lia|]. split; [done|].
    split; [|split].
    + intros Hn. apply findIndex_None in Hn. by rewrite Hn.
    + intros Hin. destruct (findIndex _ l) as [i|] eqn:E.
      * by rewrite length_take, length_insert.
      * apply findIndex_None in E. done.
    + done.
Qed.

(** X19. A saved project can be found again.  After [saveToArchive] on a
    project with a script, run on an archive of at most 50 entries, the
    first entry of the archive with the identifier of the project is the
    saved version (the project with its script and configuration, the
    time of saving, and as its title the title of the script or, when that
    is empty, what [substring(0, 30)] gives for the premise), at the index
    the project had in the archive, or first when it is new.  Every other
    entry is still there, but for the 50th entry of a full archive when the
    project is new; and saving an archived project again leaves the order
    of the identifiers as it was. *)
Theorem saved_project_is_retrievable (now : Z) (project0 : Project)
    (o : StoryOutput) (l : list Project) (st : AppState) (a : ArchiveState) :
  output project0 = Some o ->
  (length l <= 50)%nat ->
  let pid := project_id project0 in
  let saved := with_saved project0 (archiveTitle substring project0 o) now in
  let l' := savedProjects (saveToArchive substring now project0 l st a).2 in
  list_find (fun p => project_id p = pid) l'
  = Some (default 0%nat (findIndex pid l), saved)
  /\ output saved = Some o /\ config saved = config project0
  /\ lastSaved saved = Some now
  /\ (out_title o <> "" -> project_title saved = Some (out_title o))
  /\ (out_title o = "" ->
      project_title saved = Some (substring (premise (config project0)) 0 30))
  /\ (forall j q, l !! j = Some q -> project_id q <> pid ->
        pid ∈ archive_ids l \/ (j < 49)%nat -> q ∈ l')
  /\ (pid ∈ archive_ids l -> archive_ids l' = archive_ids l).
Proof.
  intros Ho Hlen pid saved l'. subst l'.
  rewrite (saveToArchive_saved _ _ _ _ _ _ Ho). cbn [snd savedProjects].
  fold saved. fold pid.
  split; [|split; [done|split; [done|split; [done|split; [|split; [|split]]]]]].
  2:{ intros Ht. subst saved. unfold archiveTitle. cbn.
      by destruct (out_title o). }
  2:{ intros Ht. subst saved. unfold archiveTitle. cbn. by rewrite Ht. }
  - destruct (findIndex pid l) as [i|] eqn:E.
    + change (default 0%nat (Some i)) with i.
      apply findIndex_Some in E as (p & Hp & Hid & Hbefore).
      pose proof (lookup_lt_Some _ _ _ Hp) as Hi.
      apply list_find_Some. split; [|split; [done|]].
      * rewrite lookup_take_lt by lia. by apply list_lookup_insert_eq.
      * intros j q Hq Hj. apply lookup_take_Some in Hq as [Hq _].
        rewrite list_lookup_insert_ne in Hq by lia. by eapply Hbefore.
    + change (default 0%nat None) with 0%nat.
      apply list_find_Some. split; [done|]. split; [done|]. intros; lia.
  - intros j q Hj Hne Hroom.
    pose proof (lookup_lt_Some _ _ _ Hj) as Hjl.
    destruct (findIndex pid l) as [i|] eqn:E.
    + apply (list_elem_of_lookup_2 _ j).
      rewrite lookup_take_lt by lia.
      rewrite list_lookup_insert_ne; [done|]. intros ->.
      apply findIndex_Some in E as (p & Hp & Hid & _). congruence.
    + apply findIndex_None in E. destruct Hroom as [? | ?]; [done|].
      apply (list_elem_of_lookup_2 _ (S j)).
      rewrite lookup_take_lt by lia. done.
  - intros Hin. destruct (findIndex pid l) as [i|] eqn:E.
    + apply findIndex_Some in E as (p & Hp & Hid & _).
      rewrite take_ge by (rewrite length_insert; lia).
      by apply (archive_ids_insert _ _ p).
    + by apply findIndex_None in E.
Qed.

(** X20. The identifiers of the archive stay distinct: when no two entries
    of the archive share an identifier, none do after [saveToArchive] and
    after [deleteFromArchive] run on it, whatever project is saved,
    whatever identifier is deleted and whatever the user answers. *)
Theorem archive_ids_stay_distinct (now : Z) (project0 : Project)
    (confirm : bool) (id : string) (l : list Project) (st : AppState)
    (a : ArchiveState) :
  NoDup (archive_ids l) ->
  NoDup (archive_ids (savedProjects (saveToArchive substring now project0 l st
                        {| savedProjects := l; stored := stored a |}).2))
  /\ NoDup (archive_ids (savedProjects (deleteFromArchive confirm id l
                           {| savedProjects := l; stored := stored a |}))).
Proof.
  intros Hnd. split.
  - unfold saveToArchive. destruct (output project0) as [o|]; [|done].
    cbv zeta. rewrite take_cap. cbn [snd savedProjects].
    eapply sublist_NoDup; [|apply fmap_sublist, sublist_take].
    destruct (findIndex _ l) as [i|] eqn:E.
    + apply findIndex_Some in E as (p & Hp & Hid & _).
      fold (archive_ids (<[i := with_saved project0 (archiveTitle substring project0 o) now]> l)).
      by rewrite (archive_ids_insert _ _ p).
    + apply findIndex_None in E. cbn. by apply NoDup_cons.
  - unfold deleteFromArchive. destruct confirm; [|done]. cbn [savedProjects].
    eapply sublist_NoDup; [exact Hnd|]. apply fmap_sublist, sublist_filter.
Qed.

(** X21. Deleting removes one identifier and nothing else.  Declined,
    [deleteFromArchive] changes nothing.  Confirmed, it stores the archive
    without the entries of the given identifier: no entry has that
    identifier any more, every other entry is kept, in the same order, the
    list is written to local storage, and an identifier that is not in the
    archive leaves the list as it is.  Deleting a project right after
    saving it, new, into an archive with room gives the archive back. *)
Theorem deleting_removes_exactly_that_id (confirm : bool) (id : string)
    (l : list Project) (a : ArchiveState) :
  let a' := deleteFromArchive confirm id l a in
  (confirm = false -> a' = a)
  /\ (confirm = true ->
      (id ∉ archive_ids (savedProjects a'))
      /\ (forall q, q ∈ savedProjects a' <-> q ∈ l /\ project_id q <> id)
      /\ savedProjects a' `sublist_of` l
      /\ stored a' = Some (savedProjects a')
      /\ (id ∉ archive_ids l -> savedProjects a' = l))
  /\ (forall now project0 o st,
        output project0 = Some o -> project_id project0 = id ->
        id ∉ archive_ids l -> (length l < 50)%nat ->
        savedProjects
          (deleteFromArchive true id
             (savedProjects (saveToArchive substring now project0 l st a).2)
             (saveToArchive substring now project0 l st a).2) = l).
Proof.
  intros a'. subst a'.
  assert (id ∉ archive_ids l -> filter (fun p => project_id p <> id) l = l)
    as Hfresh.
  { intros Hn. induction l as [|p l IH]; [done|].
    rewrite filter_cons_True.
    - f_equal. apply IH. intros H. apply Hn. by right.
    - intros <-. apply Hn. by left. }
  split; [by intros ->|]. split.
  - intros ->. cbn [deleteFromArchive savedProjects stored].
    split; [|split; [|split; [|split]]].
    + intros (p & Hid & Hp)%list_elem_of_fmap.
      apply list_elem_of_filter in Hp as [Hp _]. done.
    + intros q. rewrite list_elem_of_filter. tauto.
    + apply sublist_filter.
    + done.
    + done.
  - intros now project0 o st Ho Hid Hn Hlen.
    rewrite (saveToArchive_saved _ _ _ _ _ _ Ho). cbn [snd savedProjects].
    rewrite Hid. pose proof Hn as Hn'. apply findIndex_None in Hn'.
    rewrite Hn'. rewrite take_ge by (cbn; lia).
    cbn [deleteFromArchive savedProjects].
    rewrite filter_cons_False by (cbn; intros H; by apply H).
    by apply Hfresh.
Qed.

End ArchiveFacts.

Lemma saved_project_is_retrievable_witness :
  let untitled := with_output project0 (Some untitled_story) in
  let l := [project_harbour; with_saved project0 "An earlier title" 1600000000000] in
  let l' := savedProjects
              (saveToArchive ascii_substring 1700000000000 untitled l
                 initialState {| savedProjects := l; stored := None |}).2 in
  list_find (fun p => project_id p = project_id untitled) l'
  = Some (1%nat,
          with_saved untitled "A girl finds a hidden laborato" 1700000000000).
Proof.
  intros untitled l.
  refine (proj1 (saved_project_is_retrievable ascii_substring 1700000000000
                   untitled untitled_story l initialState
                   {| savedProjects := l; stored := None |} eq_refl _)).
  cbn. lia.
Defined.

Lemma archive_ids_stay_distinct_witness :
  NoDup (archive_ids
           (savedProjects
              (saveToArchive ascii_substring 1700000000000 project0
                 [with_saved project0 "An earlier title" 1600000000000]
                 initialState
                 {| savedProjects :=
                      [with_saved project0 "An earlier title" 1600000000000];
                    stored := None |}).2)).
Proof.
  refine (proj1 (archive_ids_stay_distinct ascii_substring 1700000000000
                   project0 true "1"
                   [with_saved project0 "An earlier title" 1600000000000]
                   initialState {| savedProjects := []; stored := None |} _)).
  apply NoDup_singleton.
Defined.

(** ** Settings *)

Section SettingsFacts.

(** X22. A change of the voice language sets the three languages of the
    application together: after [handleVoiceUpdate] with a language, the
    language of the interface (the one a script is generated in), the
    language of the story configuration and the language of the voice are
    all that language.  The interface has translations for Arabic and
    English only: with French, Spanish or German, which the list of voice
    languages offers as well, the render that follows throws, and with
    Arabic or English it finds its translations.  In every case the voice
    configuration becomes that of the handler's project with the update
    applied, the rest of the story configuration, the script and the API
    key are as they were, and without a language in the update so are the
    interface language and the story configuration. *)
Theorem voice_language_update_is_synchronised (project0 : Project)
    (updates : PartialVoiceConfig) (st : AppState) :
  let st' := handleVoiceUpdate project0 updates st in
  (forall l, upd_voice_language updates = Some l ->
     lang st' = l /\ language (config (project st')) = l
     /\ voice_language (voiceConfig (project st')) = l
     /\ (render_lacks_translations st' = true <-> l = fr \/ l = es \/ l = de)
     /\ (render_lacks_translations st' = false <-> l = ar \/ l = en))
  /\ (upd_voice_language updates = None ->
      lang st' = lang st /\ config (project st') = config (project st)
      /\ render_lacks_translations st' = render_lacks_translations st)
  /\ voiceConfig (project st') = spreadVoice (voiceConfig project0) updates
  /\ output (project st') = output (project st)
  /\ apiKey (project st') = apiKey (project st)
  /\ with_language (config (project st')) (language (config (project st)))
     = config (project st).
Proof.
  intros st'. subst st'. unfold handleVoiceUpdate.
  destruct (upd_voice_language updates) as [l|] eqn:El.
  - split.
    { intros ? [= <-]. cbn. rewrite El. cbn.
      split; [done|]. split; [done|]. split; [done|].
      unfold render_lacks_translations. cbn.
      destruct l; cbn; split; split; intros H; try done;
        try (by auto); by repeat destruct H as [H|H]. }
    split; [done|].
    split; [done|]. split; [done|]. split; [done|].
    cbn. by destruct (config (project st)).
  - split; [done|]. split; [done|].
    split; [done|]. split; [done|]. split; [done|].
    cbn. by destruct (config (project st)).
Qed.

End SettingsFacts.

(** ** ConsistencyPromptBuilder, continued *)

Section MatchFacts.

Variable env : Platform.

Lemma includes_empty s : includes s "" = true.
Proof. apply includes_spec. exists "", s. by rewrite !app_nil_l_s. Qed.

Lemma includes_self s : includes s s = true.
Proof. apply includes_spec, occurs_in_refl. Qed.

(** X23. Edges of the matching of names.  A scene without a list of names,
    or with an empty one, has no active character.  A character is active
    in a scene that lists a name equal to its own up to case.  An entry of
    the list whose lower-cased form is the empty string makes every stored
    character active, and a stored character whose lower-cased name is the
    empty string is active in every scene that lists any name at all. *)
Theorem name_matching_edge_cases (scene : Scene) (c : Character) :
  (characterNames scene = None -> isActive env scene c = false)
  /\ (characterNames scene = Some [] -> isActive env scene c = false)
  /\ (forall names n, characterNames scene = Some names -> n ∈ names ->
        (toLowerCase env n = toLowerCase env (name c) ->
         isActive env scene c = true)
        /\ (toLowerCase env n = "" -> isActive env scene c = true)
        /\ (toLowerCase env (name c) = "" -> isActive env scene c = true)).
Proof.
  split; [|split].
  - intros H. unfold isActive. by rewrite H.
  - intros H. unfold isActive. by rewrite H.
  - intros names n Hn Hin.
    assert (forall P : Prop, P ->
      (P -> includes (toLowerCase env n) (toLowerCase env (name c)) = true
            \/ includes (toLowerCase env (name c)) (toLowerCase env n) = true) ->
      isActive env scene c = true) as Hact.
    { intros P HP H. apply isActive_spec. exists names, n. auto. }
    split; [|split]; intros H; apply (Hact _ H); intros E; rewrite E.
    + left. apply includes_self.
    + right. apply includes_empty.
    + left. apply includes_empty.
Qed.

Lemma join_split sep l1 x l2 :
  exists pre post, join sep (l1 ++ x :: l2) = pre +:+ x +:+ post
    /\ (l2 = [] -> post = "")
    /\ (forall y l3, l2 = y :: l3 -> post = sep +:+ join sep (y :: l3)).
Proof.
  induction l1 as [|a l1 (pre & post & IH & H1 & H2)].
  - exists "". destruct l2 as [|y l3].
    + exists "". cbn. rewrite app_nil_l_s, app_nil_r_s. by split.
    + exists (sep +:+ join sep (y :: l3)). cbn [app join].
      rewrite app_nil_l_s. split; [done|]. split; [done|]. by intros ? ? [= <- <-].
  - exists (a +:+ sep +:+ pre), post. split; [|by split].
    cbn [app].
    assert (exists z zs, l1 ++ x :: l2 = z :: zs) as (z & zs & Hz)
      by (destruct l1; cbn; eauto).
    rewrite Hz in *.
    change (join sep (a :: z :: zs)) with (a +:+ sep +:+ join sep (z :: zs)).
    rewrite IH.
    by rewrite !app_assoc_s.
Qed.

Lemma join_two sep l1 x l2 y l3 :
  occurs_before x y (join sep (l1 ++ x :: l2 ++ y :: l3)).
Proof.
  destruct (join_split sep l1 x (l2 ++ y :: l3)) as (pre & post & -> & _ & H).
  assert (exists z zs, l2 ++ y :: l3 = z :: zs) as (z & zs & Hz)
    by (destruct l2; cbn; eauto).
  rewrite (H _ _ Hz), <- Hz.
  destruct (join_split sep l2 y l3) as (pre' & post' & -> & _).
  exists pre, (sep +:+ pre'), post'. by rewrite !app_assoc_s.
Qed.

Lemma occurs_before_app_r x y p s :
  occurs_before x y s -> occurs_before x y (p +:+ s).
Proof.
  intros (a & b & c & ->). exists (p +:+ a), b, c. by rewrite !app_assoc_s.
Qed.

Lemma occurs_before_app_l x y s q :
  occurs_before x y s -> occurs_before x y (s +:+ q).
Proof.
  intros (a & b & c & ->). exists a, b, (c +:+ q). by rewrite !app_assoc_s.
Qed.

Lemma occurs_before_block c1 c2 f1 f2 f3 :
  occurs_before (characterEntry c1) (characterEntry c2)
    (characterBlock (f1 ++ c1 :: f2 ++ c2 :: f3)).
Proof.
  unfold characterBlock.
  replace (0 <? length (f1 ++ c1 :: f2 ++ c2 :: f3))%nat with true
    by (symmetry; apply Nat.ltb_lt; rewrite length_app; cbn; lia).
  apply occurs_before_app_r, occurs_before_app_l.
  rewrite map_app. cbn [map]. rewrite map_app. cbn [map].
  apply join_two.
Qed.

(** X24. The blocks of the active characters keep the stored order.  The
    active characters of a scene are stored characters, in the order in
    which they are stored, whatever the order of the names in the scene;
    and of two active characters, the block of the one stored first comes
    first in the prompt. *)
Theorem character_blocks_keep_stored_order (project : Project) (scene : Scene)
    (c1 c2 : Character) (l1 l2 l3 : list Character) :
  characters (config project) = l1 ++ c1 :: l2 ++ c2 :: l3 ->
  isActive env scene c1 = true -> isActive env scene c2 = true ->
  activeChars env project scene `sublist_of` characters (config project)
  /\ occurs_before (characterEntry c1) (characterEntry c2)
       (scenePrompt env project scene).
Proof.
  intros Hcs H1 H2. split.
  - unfold activeChars. clear Hcs.
    induction (characters (config project)) as [|x l IH];
      cbn [List.filter]; [constructor|].
    destruct (isActive env scene x); by constructor.
  - unfold scenePrompt, activeChars. rewrite Hcs.
    rewrite List.filter_app. cbn [List.filter]. rewrite H1.
    rewrite List.filter_app. cbn [List.filter]. rewrite H2.
    unfold finalPrompt.
    do 3 apply occurs_before_app_r. apply occurs_before_app_l.
    apply occurs_before_block.
Qed.

End MatchFacts.

Lemma character_blocks_keep_stored_order_witness :
  occurs_before (characterEntry lina) (characterEntry dr_voss)
    (scenePrompt (platform service_400_503_ok (Some "key") []) project0
       scene_both).
Proof.
  exact (proj2 (character_blocks_keep_stored_order
                  (platform service_400_503_ok (Some "key") []) project0
                  scene_both lina dr_voss [] [] [] eq_refl eq_refl eq_refl)).
Defined.

(** ** The suggestion services *)

Section IdFacts.

Lemma no_underscore_cons c s :
  String c "" <> "_" -> no_underscore s -> no_underscore (String c s).
Proof.
  intros Hc Hs pre post H. destruct pre as [|c' pre].
  - rewrite app_nil_l_s in H. apply Hc.
    assert ("_" +:+ post = String (Ascii.ascii_of_nat 95) post) as E
      by reflexivity.
    rewrite E in H. by injection H as -> _.
  - rewrite app_cons_s in H. injection H as _ H. by apply (Hs pre post).
Qed.

Lemma no_underscore_nil : no_underscore "".
Proof. intros [|c pre] post H; cbn in H; discriminate. Qed.

Lemma pretty_N_go_no_underscore x : forall s,
  no_underscore s -> no_underscore (pretty_N_go x s).
Proof.
  induction (N.lt_wf_0 x) as [x _ IH]. intros s Hs.
  assert (x = 0 \/ 0 < x)%N as [->|Hx] by lia.
  - by rewrite pretty_N_go_0.
  - rewrite pretty_N_go_step by done. apply IH.
    + by apply N.div_lt.
    + apply no_underscore_cons; [|done].
      unfold pretty_N_char. by repeat case_match.
Qed.

Lemma pretty_N_no_underscore (x : N) : no_underscore (pretty x).
Proof.
  unfold pretty, pretty_N. case_decide.
  - apply no_underscore_cons; [done|apply no_underscore_nil].
  - apply pretty_N_go_no_underscore, no_underscore_nil.
Qed.

Lemma number_str_no_underscore (z : Z) : no_underscore (number_str z).
Proof.
  unfold number_str, pretty, pretty_Z. destruct z as [|p|p].
  - apply no_underscore_cons; [done|apply no_underscore_nil].
  - apply (pretty_N_no_underscore (Npos p)).
  - apply no_underscore_cons; [done|]. apply (pretty_N_no_underscore (Npos p)).
Qed.

Lemma underscore_app s : "_" +:+ s = String (Ascii.ascii_of_nat 95) s.
Proof. reflexivity. Qed.

(** The text after the last [_] determines itself. *)
Lemma suffix_after_underscore a : forall a' b b',
  no_underscore b -> no_underscore b' ->
  a +:+ "_" +:+ b = a' +:+ "_" +:+ b' -> b = b'.
Proof.
  induction a as [|c a IH]; intros a' b b' Hb Hb' H.
  - destruct a' as [|c' a'].
    + rewrite !app_nil_l_s, !underscore_app in H. by injection H.
    + rewrite app_nil_l_s, app_cons_s, underscore_app in H.
      injection H as _ H. by destruct (Hb a' b').
  - destruct a' as [|c' a'].
    + rewrite app_nil_l_s, app_cons_s, underscore_app in H.
      injection H as _ H. symmetry in H. by destruct (Hb' a b).
    + rewrite !app_cons_s in H. injection H as _ H. by eapply IH.
Qed.

End IdFacts.

Section SuggestionFacts.

Variable env : Platform.
Variable parseIdeas : string -> Result PartialStoryConfig.
Variable parseCharacters : string -> Result (option (list Character)).
Variable now : nat -> Z.

Lemma newCharacter_id_inj i j c d :
  char_id (newCharacter now i c) = char_id (newCharacter now j d) -> i = j.
Proof.
  cbn [newCharacter char_id]. intros H.
  rewrite <- !(app_assoc_s "char_") in H.
  apply suffix_after_underscore in H; try apply number_str_no_underscore.
  apply (inj pretty) in H. lia.
Qed.

Lemma profiles_ids_distinct (parsed : list Character) :
  NoDup (map char_id (imap (newCharacter now) parsed)).
Proof.
  apply NoDup_alt. intros i j x Hi Hj.
  change (map char_id) with (fmap (M:=list) char_id) in *.
  rewrite list_lookup_fmap, list_lookup_imap in Hi, Hj.
  destruct (parsed !! i) as [c|]; [|done].
  destruct (parsed !! j) as [d|]; [|done].
  apply (newCharacter_id_inj i j c d).
  assert (Some (char_id (newCharacter now i c))
          = Some (char_id (newCharacter now j d))) as E
    by (etrans; [exact Hi|symmetry; exact Hj]).
  by apply (inj Some).
Qed.

Lemma charactersAttempt_eq premise setting count lang apiKey ai w :
  getAI env apiKey = Ok ai ->
  charactersAttempt env parseCharacters now premise setting count lang apiKey w
  = (match service env (calls w)
             (charactersRequest ai premise setting count lang) with
     | Ok response =>
         match text response with
         | Some t =>
             if truthy t then
               match parseCharacters t with
               | Ok (Some characters) => Ok (imap (newCharacter now) characters)
               | Ok None =>
                   Err (TypeError
                          "Cannot read properties of undefined (reading 'map')")
               | Err e => Err e
               end
             else Err (Error "No characters generated.")
         | None => Err (Error "No characters generated.")
         end
     | Err e => Err e
     end,
     w ++ [EvCall (charactersRequest ai premise setting count lang)]).
Proof.
  intros Hai.
  unfold charactersAttempt, bind, lift, generateContent, throw, ret.
  rewrite Hai. destruct (service env (calls w) _) as [response|e]; [|done].
  destruct (text response) as [t|]; [|done].
  destruct (truthy t); [|done].
  by destruct (parseCharacters t) as [[cs|]|e].
Qed.

Lemma ideasAttempt_eq category lang apiKey ai w :
  getAI env apiKey = Ok ai ->
  ideasAttempt env parseIdeas category lang apiKey w
  = (match service env (calls w) (ideasRequest ai category lang) with
     | Ok response =>
         match text response with
         | Some t => if truthy t then parseIdeas t
                     else Err (Error "No ideas generated.")
         | None => Err (Error "No ideas generated.")
         end
     | Err e => Err e
     end,
     w ++ [EvCall (ideasRequest ai category lang)]).
Proof.
  intros Hai. unfold ideasAttempt, bind, lift, generateContent, throw.
  rewrite Hai. destruct (service env (calls w) _) as [response|e]; [|done].
  destruct (text response) as [t|]; [|done]. by destruct (truthy t).
Qed.

(** X25. The characters that [generateCharacterProfiles] returns.  The
    identifiers of the returned characters are pairwise distinct, whatever
    the clock reads while they are built.  They are the characters that the
    text of the response to the last call parses to, as many as there are
    and in their order, whatever count was asked for: each has the name,
    role and description parsed, a fresh identifier and no image. *)
Theorem generated_character_ids_are_distinct
    (premise setting : string) (count : Z) (lang : string)
    (apiKey : option string) (w w' : World) (chars : list Character) :
  generateCharacterProfiles env parseCharacters now premise setting count lang
    apiKey w = (Ok chars, w') ->
  NoDup (map char_id chars)
  /\ exists pre ai response t parsed,
       w' = pre ++ [EvCall (charactersRequest ai premise setting count lang)]
       /\ service env (calls pre)
            (charactersRequest ai premise setting count lang) = Ok response
       /\ text response = Some t
       /\ parseCharacters t = Ok (Some parsed)
       /\ chars = imap (newCharacter now) parsed
       /\ length chars = length parsed
       /\ map name chars = map name parsed
       /\ map role chars = map role parsed
       /\ map description chars = map description parsed
       /\ Forall (fun c => image c = None) chars.
Proof.
  intros H. unfold generateCharacterProfiles in H.
  apply callWithRetry_last in H as [w0 H].
  destruct (getAI_cases env apiKey) as [[ai Hai]|Hm].
  2:{ unfold charactersAttempt, bind, lift in H. by rewrite Hm in H. }
  rewrite (charactersAttempt_eq _ _ _ _ _ ai _ Hai) in H.
  destruct (service env (calls w0) _) as [response|] eqn:Es; [|done].
  destruct (text response) as [t|] eqn:Et; [|done].
  destruct (truthy t); [|done].
  destruct (parseCharacters t) as [[parsed|]|] eqn:Ep; [|done|done].
  injection H as <- <-.
  split; [apply profiles_ids_distinct|].
  exists w0, ai, response, t, parsed.
  split; [done|]. split; [done|]. split; [done|]. split; [done|].
  split; [done|]. split; [by rewrite length_imap|].
  assert (forall {B} (f : Character -> B),
    (forall i c, f (newCharacter now i c) = f c) ->
    map f (imap (newCharacter now) parsed) = map f parsed) as Hmap.
  { intros B f Hf. apply list_eq. intros i.
    change (map f) with (fmap (M:=list) f).
    rewrite !list_lookup_fmap, list_lookup_imap.
    destruct (parsed !! i) as [c|]; [|done]. cbn. by rewrite Hf. }
  split; [by apply Hmap|]. split; [by apply Hmap|]. split; [by apply Hmap|].
  apply Forall_forall. intros c Hc.
  apply list_elem_of_lookup in Hc as [i Hi].
  rewrite list_lookup_imap in Hi.
  destruct (parsed !! i) as [c'|]; [|done]. cbn in Hi. by simplify_eq.
Qed.

Lemma ideas_step category lang apiKey :
  forall w, exists evs,
    (ideasAttempt env parseIdeas category lang apiKey w).2 = w ++ evs
    /\ Forall (fun _ => True) evs /\ sleeps evs = [] /\ (calls evs <= 1)%nat.
Proof.
  destruct (getAI_cases env apiKey) as [[ai Hai]|Hm]; intros w.
  - rewrite (ideasAttempt_eq _ _ _ ai _ Hai). eexists. split; [done|].
    split; [by repeat constructor|]. split; [done|].
    rewrite calls_cons_call. change (calls []) with 0%nat. lia.
  - exists []. unfold ideasAttempt, bind, lift. rewrite Hm, app_nil_r.
    split; [done|]. split; [constructor|]. split; [done|].
    change (calls []) with 0%nat. lia.
Qed.

Lemma characters_step premise setting count lang apiKey :
  forall w, exists evs,
    (charactersAttempt env parseCharacters now premise setting count lang
       apiKey w).2 = w ++ evs
    /\ Forall (fun _ => True) evs /\ sleeps evs = [] /\ (calls evs <= 1)%nat.
Proof.
  destruct (getAI_cases env apiKey) as [[ai Hai]|Hm]; intros w.
  - rewrite (charactersAttempt_eq _ _ _ _ _ ai _ Hai). eexists.
    split; [done|].
    split; [by repeat constructor|]. split; [done|].
    rewrite calls_cons_call. change (calls []) with 0%nat. lia.
  - exists []. unfold charactersAttempt, bind, lift. rewrite Hm, app_nil_r.
    split; [done|]. split; [constructor|]. split; [done|].
    change (calls []) with 0%nat. lia.
Qed.

(** X26. The suggestion services follow the policy of the generation
    services.  With no credential [generateStoryIdeas] and
    [generateCharacterProfiles] reject at once, without a call.  Each calls
    the service at most 4 times and waits at most 7 seconds in all.  When
    the service answers the first call with a response whose text is
    missing or empty, they reject after that call with 'No ideas
    generated.' and 'No characters generated.'; and a text that parses to
    an object without a [characters] property makes
    [generateCharacterProfiles] reject with the TypeError of reading [map]
    of undefined. *)
Theorem suggestion_jobs_follow_the_service_policy
    (category premise setting lang : string) (count : Z)
    (apiKey : option string) (w : World) :
  let ideas := generateStoryIdeas env parseIdeas category lang apiKey in
  let profiles := generateCharacterProfiles env parseCharacters now premise
                    setting count lang apiKey in
  (getAI env apiKey = Err missingKey ->
   ideas w = (Err missingKey, w) /\ profiles w = (Err missingKey, w))
  /\ (exists evs,
        (ideas w).2 = w ++ evs /\ bounded_effort 1 evs
        /\ (calls evs <= 4)%nat /\ total_wait evs <= 7000)
  /\ (exists evs,
        (profiles w).2 = w ++ evs /\ bounded_effort 1 evs
        /\ (calls evs <= 4)%nat /\ total_wait evs <= 7000)
  /\ (forall ai response,
        getAI env apiKey = Ok ai ->
        (service env (calls w) (ideasRequest ai category lang) = Ok response ->
         truthy_opt (text response) = false ->
         ideas w = (Err (Error "No ideas generated."),
                    w ++ [EvCall (ideasRequest ai category lang)]))
        /\ (service env (calls w)
              (charactersRequest ai premise setting count lang) = Ok response ->
            (truthy_opt (text response) = false ->
             profiles w
             = (Err (Error "No characters generated."),
                w ++ [EvCall (charactersRequest ai premise setting count lang)]))
            /\ (forall t, text response = Some t -> truthy t = true ->
                  parseCharacters t = Ok None ->
                  profiles w
                  = (Err (TypeError
                       "Cannot read properties of undefined (reading 'map')"),
                     w ++ [EvCall (charactersRequest ai premise setting count
                                     lang)])))).
Proof.
  intros ideas profiles. subst ideas profiles.
  split; [|split; [|split]].
  - intros Hm. split; apply retry_missing.
    + unfold ideasAttempt, bind, lift. by rewrite Hm.
    + unfold charactersAttempt, bind, lift. by rewrite Hm.
  - apply (effort_any _ 1), ideas_step.
  - apply (effort_any _ 1), characters_step.
  - intros ai response Hai. split.
    + intros Hs Ht. apply retry_settles; [|done].
      rewrite (ideasAttempt_eq _ _ _ ai _ Hai), Hs.
      destruct (text response) as [t|]; [|done]. cbn in Ht. by rewrite Ht.
    + intros Hs. split.
      * intros Ht. apply retry_settles; [|done].
        rewrite (charactersAttempt_eq _ _ _ _ _ ai _ Hai), Hs.
        destruct (text response) as [t|]; [|done]. cbn in Ht. by rewrite Ht.
      * intros t Ht Htt Hp. apply retry_settles; [|done].
        by rewrite (charactersAttempt_eq _ _ _ _ _ ai _ Hai), Hs, Ht, Htt, Hp.
Qed.

End SuggestionFacts.

Lemma generated_character_ids_are_distinct_witness :
  NoDup ["char_1700000000000_0"; "char_1700000000000_1"].
Proof.
  exact (proj1 (generated_character_ids_are_distinct
                  (platform service_characters (Some "key") [])
                  parse_characters clock_still
                  "A girl finds a hidden laboratory" "A harbour town" 2 "en"
                  None []
                  [EvCall (charactersRequest "key"
                             "A girl finds a hidden laboratory"
                             "A harbour town" 2 "en")]
                  [newCharacter clock_still 0 lina;
                   newCharacter clock_still 1 dr_voss]
                  eq_refl)).
Defined.

(** ** What the prompts carry *)

(** [sub] occurs in one of the segments of a concatenation: the segments
    are tried from the left, and [tac] proves the occurrence in one. *)
Ltac in_segment tac :=
  first [ apply occurs_in_app_l; solve [tac]
        | solve [tac]
        | apply occurs_in_app_r; in_segment tac ].

Section CarriedFacts.

Variable env : Platform.

Lemma profile_parts c :
  occurs_in (name c) (characterProfile c)
  /\ occurs_in (role_str (role c)) (characterProfile c)
  /\ occurs_in (description c) (characterProfile c).
Proof.
  unfold characterProfile.
  split; [|split]; in_segment ltac:(apply occurs_in_refl).
Qed.

(** X27. What a script request carries.  Every request that
    [generateStory] sends has the prompt built from the configuration and
    the style, and the system instruction of the language: the Arabic
    storyteller for Arabic, 'Write in <code>.' for every other language.
    The prompt holds the genre, the premise, the setting and the pacing,
    the four style fields, and the profile of every stored character (name,
    role and visual signature, verbatim), and asks for exactly the
    configured number of scenes, printed in decimal digits when it is a
    safe integer. *)
Theorem script_request_carries_the_configuration
    (config : StoryConfig) (voice : VoiceConfig) (style : ImageStyleConfig)
    (apiKey : option string) (w : World) :
  (exists evs,
     (generateStory env config voice style apiKey w).2 = w ++ evs
     /\ forall req, EvCall req ∈ evs ->
          req_contents req = Some (storyPrompt config style)
          /\ req_systemInstruction req = Some (dialectSystemInstruction config)
          /\ req_model req = "gemini-3-flash-preview")
  /\ (language config = ar ->
      dialectSystemInstruction config
      = "You are an expert Arabic storyteller. Write narration in the requested dialect.")
  /\ (language config <> ar ->
      dialectSystemInstruction config
      = "Write in " +:+ language_str (language config) +:+ ".")
  /\ (forall c, c ∈ characters config ->
        occurs_in (characterProfile c) (storyPrompt config style)
        /\ occurs_in (name c) (storyPrompt config style)
        /\ occurs_in (description c) (storyPrompt config style))
  /\ occurs_in (category config) (storyPrompt config style)
  /\ occurs_in (premise config) (storyPrompt config style)
  /\ occurs_in (setting config) (storyPrompt config style)
  /\ occurs_in (pacing_str (pacing config)) (storyPrompt config style)
  /\ occurs_in (artStyle style) (storyPrompt config style)
  /\ occurs_in (cameraAngle style) (storyPrompt config style)
  /\ occurs_in (lighting style) (storyPrompt config style)
  /\ occurs_in (colorGrade style) (storyPrompt config style)
  /\ (isSafeInteger (sceneCount config) ->
      occurs_in ("Generate exactly " +:+ number_str (sceneCount config)
                 +:+ " scenes.") (storyPrompt config style)).
Proof.
  split.
  { destruct (getAI_cases env apiKey) as [[ai Hai]|Hm].
    - destruct (effort_bounded
                  (storyAttempt env config voice style apiKey)
                  (fun e => match e with
                            | EvCall req => req = storyRequest ai config style
                            | _ => True
                            end) 1 w) as (evs & Hw & HQ & _).
      + done.
      + intros w0.
        destruct (storyAttempt_events env config voice style apiKey w0)
          as [[? _]|(ai' & ? & ->)]; [congruence|].
        assert (ai' = ai) as -> by congruence.
        eexists. split; [done|]. split; [by apply Forall_singleton|].
        split; [done|].
        rewrite calls_cons_call. change (calls []) with 0%nat. lia.
      + exists evs. split; [done|]. intros req Hin.
        rewrite Forall_forall in HQ. by rewrite (HQ _ Hin).
    - exists []. unfold generateStory. rewrite retry_missing.
      + split; [by rewrite app_nil_r|]. by intros req Hin%elem_of_nil.
      + destruct (storyAttempt_events env config voice style apiKey w)
          as [[_ ?]|(ai & ? & _)]; [done|congruence]. }
  split.
  { unfold dialectSystemInstruction. by intros ->. }
  split.
  { unfold dialectSystemInstruction. by destruct (language config). }
  split.
  { intros c Hc.
    assert (occurs_in (characterProfile c) (storyPrompt config style)) as H.
    { unfold storyPrompt.
      in_segment ltac:(unfold characterProfiles; apply occurs_in_join;
                       apply list_elem_of_fmap; by exists c). }
    destruct (profile_parts c) as (Hn & _ & Hd).
    split; [done|]. split; eapply occurs_in_trans; eauto. }
  repeat match goal with |- _ /\ _ => split end;
    first [ intros _; apply storyPrompt_asks_count
          | unfold storyPrompt; in_segment ltac:(apply occurs_in_refl) ].
Qed.

Lemma occurs_before_intro x y s :
  occurs_in y s -> occurs_before x y (x +:+ s).
Proof.
  intros (pre & post & ->). exists "", pre, post. by rewrite app_nil_l_s.
Qed.

(** X28. What an image prompt carries.  The prompt that the image job of a
    scene sends holds, verbatim, the six fields of the image style and,
    after them, the image prompt of the scene; a scene object without an
    image prompt puts the text 'undefined' in its place.  With no active
    character the prompt has no character entry: it is the prompt of the
    same scene in a project without characters. *)
Theorem image_prompt_carries_style_and_scene (project : Project)
    (scene : Scene) :
  let prompt := scenePrompt env project scene in
  let style := imageStyle project in
  occurs_in (artStyle style) prompt
  /\ occurs_in (lighting style) prompt
  /\ occurs_in (colorGrade style) prompt
  /\ occurs_in (cameraAngle style) prompt
  /\ occurs_in (characterLook style) prompt
  /\ occurs_in (clothingStyle style) prompt
  /\ occurs_before (styleBlock style) (sceneBlock (imagePrompt scene)) prompt
  /\ (forall text, imagePrompt scene = Some text ->
        occurs_in text (sceneBlock (imagePrompt scene)))
  /\ (imagePrompt scene = None ->
      occurs_in "undefined" (sceneBlock (imagePrompt scene)))
  /\ (activeChars env project scene = [] ->
      prompt = scenePrompt env (with_characters project []) scene).
Proof.
  intros prompt style. subst prompt style.
  unfold scenePrompt, finalPrompt.
  split; [|split; [|split; [|split; [|split; [|split; [|split; [|split; [|split]]]]]]]].
  1-6: apply occurs_in_app_r, occurs_in_app_l; unfold styleBlock;
       in_segment ltac:(apply occurs_in_refl).
  - apply occurs_before_app_r, occurs_before_intro.
    in_segment ltac:(apply occurs_in_refl).
  - intros text ->. unfold sceneBlock.
    in_segment ltac:(apply occurs_in_refl).
  - intros ->. unfold sceneBlock. in_segment ltac:(apply occurs_in_refl).
  - intros ->. reflexivity.
Qed.

End CarriedFacts.

(** ** The theorems above on concrete inputs *)

Lemma writeString_writes_char_codes_witness :
  writeString [0; 0; 0; 0; 0; 0] 1 "RIFF" = Ok [0; 82; 73; 70; 70; 0].
Proof.
  exact (proj1 (writeString_writes_char_codes [0; 0; 0; 0; 0; 0] 1 "RIFF")
               (proj1 (Nat.leb_le 5 6) eq_refl)).
Defined.

Lemma binary_string_is_the_buffer_witness :
  chunkLoop 1 [82; 73; 70] 0 [] = [82; 73; 70].
Proof.
  exact (proj2 (binary_string_is_the_buffer [82; 73; 70] 1)
               (proj1 (Nat.leb_le 3 (1 * chunkSize)) eq_refl)).
Defined.

Lemma regeneration_replaces_the_slot_witness :
  length (scenes_of (audioMergeAll 0 spoken_audio (project state_three)))
  = length (scenes_of (project state_three)).
Proof.
  exact (proj1 (proj2 (proj2 (proj2 (proj2
           (regeneration_replaces_the_slot 0 spoken_audio spoken_audio
              scene_voss (project state_three)))))
           (proj1 (Nat.leb_le 1 3) eq_refl))).
Defined.

Lemma archive_keeps_at_most_fifty_witness :
  savedProjects
    (saveToArchive ascii_substring 1700000000000 project0 [project_harbour]
       initialState {| savedProjects := [project_harbour]; stored := None |}).2
  = [with_saved project0 "The Laboratory" 1700000000000; project_harbour].
Proof.
  refine (proj1 (proj2 (proj2 (proj2
            (proj2 (archive_keeps_at_most_fifty ascii_substring 1700000000000
                      project0 [project_harbour] initialState
                      {| savedProjects := [project_harbour]; stored := None |})
               _ eq_refl)))) _).
  intros H%list_elem_of_singleton. discriminate H.
Defined.

Lemma deleting_removes_exactly_that_id_witness :
  savedProjects
    (deleteFromArchive true "1" [project0]
       {| savedProjects := [project0]; stored := None |})
  `sublist_of` [project0].
Proof.
  exact (proj1 (proj2 (proj2 (proj1 (proj2
           (deleting_removes_exactly_that_id ascii_substring true "1"
              [project0]
              {| savedProjects := [project0]; stored := None |}))
           eq_refl)))).
Defined.

Lemma voice_language_update_is_synchronised_witness :
  let st' := handleVoiceUpdate project0
               {| upd_voiceType := None; upd_tone := None; upd_accent := None;
                  upd_voice_language := Some fr |} initialState in
  lang st' = fr /\ language (config (project st')) = fr
  /\ voice_language (voiceConfig (project st')) = fr
  /\ render_lacks_translations st' = true.
Proof.
  intros st'.
  destruct (proj1 (voice_language_update_is_synchronised project0
                     {| upd_voiceType := None; upd_tone := None;
                        upd_accent := None; upd_voice_language := Some fr |}
                     initialState) fr eq_refl)
    as (H1 & H2 & H3 & H4 & _).
  exact (conj H1 (conj H2 (conj H3 (proj2 H4 (or_introl eq_refl))))).
Defined.

Lemma name_matching_edge_cases_witness :
  isActive (platform service_400_503_ok (Some "key") []) scene_both
    {| char_id := "char_3"; name := ""; role := supporting;
       description := "A grey cat"; image := None |} = true.
Proof.
  refine (proj2 (proj2 (proj2 (proj2
            (name_matching_edge_cases
               (platform service_400_503_ok (Some "key") []) scene_both
               {| char_id := "char_3"; name := ""; role := supporting;
                  description := "A grey cat"; image := None |}))
            ["Lina"; "Voss"] "Lina" eq_refl _)) eq_refl).
  left.
Defined.

Lemma suggestion_jobs_follow_the_service_policy_witness :
  generateStoryIdeas (platform service_characters None []) parse_no_ideas
    "mystery" "en" None []
  = (Err missingKey, []).
Proof.
  exact (proj1 (proj1 (suggestion_jobs_follow_the_service_policy
                         (platform service_characters None [])
                         parse_no_ideas parse_characters clock_still
                         "mystery" "A girl finds a hidden laboratory"
                         "A harbour town" "en" 2 None [])
                      eq_refl)).
Defined.

Lemma script_request_carries_the_configuration_witness :
  occurs_in (characterProfile dr_voss) (storyPrompt config0 style0)
  /\ occurs_in "Generate exactly 3 scenes." (storyPrompt config0 style0).
Proof.
  pose proof (script_request_carries_the_configuration
                (platform service_short_story (Some "key") [])
                config0 voice0 style0 None [])
    as (_ & _ & _ & Hc & _ & _ & _ & _ & _ & _ & _ & _ & Hn).
  split.
  - refine (proj1 (Hc dr_voss _)). right. left.
  - refine (Hn _). unfold isSafeInteger. cbn. lia.
Defined.

Lemma image_prompt_carries_style_and_scene_witness :
  occurs_in "undefined"
    (sceneBlock (imagePrompt {| sceneNumber := Some 7; narrative := None;
                               imagePrompt := None; motionPrompt := None;
                               characterNames := None; audioData := None;
                               imageUrl := None |})).
Proof.
  exact (proj1 (proj2 (proj2 (proj2 (proj2 (proj2 (proj2 (proj2 (proj2
           (image_prompt_carries_style_and_scene
              (platform service_short_story (Some "key") []) project0
              {| sceneNumber := Some 7; narrative := None;
                 imagePrompt := None; motionPrompt := None;
                 characterNames := None; audioData := None;
                 imageUrl := None |})))))))))
           eq_refl).
Defined.
